(** * Win-probability analysis of the reduced-deck blackjack games

    A shallow embedding of [blackjack.py] and [win_probability_analysis.py]
    of the one-player and the two-player game, and the properties of the
    memoized solvers proved over it.

    Conventions of the embedding.
    - Python floats are modelled by exact rationals ([Qc], canonical
      fractions, so that equal values are equal terms) in the solvers: what
      is proved of them are equalities and orders, which rounding keeps.
      The rounding of the floats is [binary64], and the theorems on the
      sums of probabilities state what holds of the rounded numbers.
    - A [BlackJack] value holds the four attributes that change during a
      game ([deck], [dealer_hand], [player_hand], [turn]).  The attributes
      [deck_copy], [blackjack_num] and [dealer_limit] are set once by
      [__init__] from the configuration and never assigned again; they are
      read from the [Config] of the game.
    - [copy] is [deepcopy]; values are immutable here, so it is the
      identity, and every branch works on its own value.
    - The [record] dictionary is a [gmap] threaded through the calls.
    - A Python exception is [Raise]; a recursion that does not come back is
      [OutOfFuel] for every amount of fuel. *)

From Stdlib Require Import ZArith QArith Qcanon Qround Qpower Lia Lqa.
From Stdlib Require Floats.
From stdpp Require Import gmap list sorting numbers relations.

Local Open Scope Z_scope.

(** ** Exceptions and results *)

(** The places of the source that divide. *)
Inductive site := in_draw_prob | in_get_features | in_get_all_initial_states.

Inductive exn :=
  | ZeroDivisionError (s : site)
  | ValueError
  | IndexError
  | TypeError
  | OracleError (code : Z).

Inductive outcome (A : Type) :=
  | Done (a : A)
  | Raise (e : exn)
  | OutOfFuel.
Arguments Done {A} a.
Arguments Raise {A} e.
Arguments OutOfFuel {A}.

Global Instance outcome_ret : MRet outcome := λ A a, Done a.
Global Instance outcome_bind : MBind outcome := λ A B f m,
  match m with
  | Done a => f a
  | Raise e => Raise e
  | OutOfFuel => OutOfFuel
  end.
Global Instance outcome_fmap : FMap outcome := λ A B f m,
  match m with
  | Done a => Done (f a)
  | Raise e => Raise e
  | OutOfFuel => OutOfFuel
  end.

(** A call has come back: with a value or with an exception. *)
Definition settled {A} (o : outcome A) : Prop := o ≠ OutOfFuel.

(** ** Numbers *)

Definition half : Qc := Q2Qc (1 # 2).

(** Python's [max(a, b)] and [min(a, b)]: the first argument unless the
    second is strictly better. *)
Definition py_max (a b : Qc) : Qc := if decide (a < b)%Qc then b else a.
Definition py_min (a b : Qc) : Qc := if decide (b < a)%Qc then b else a.

(** Python's [a / b] on ints. *)
Definition py_div (s : site) (a b : Z) : outcome Qc :=
  if b =? 0 then Raise (ZeroDivisionError s)
  else Done (Qc_of_Z a / Qc_of_Z b)%Qc.

(** ** Lists *)

(** [sum(l)] *)
Definition py_sum (l : list Z) : Z := fold_left Z.add l 0.

(** [sorted(l)] *)
Definition py_sorted (l : list Z) : list Z := merge_sort Z.le l.

(** [np.unique(l)]: the distinct values, in increasing order. *)
Definition np_unique (l : list Z) : list Z := remove_dups (py_sorted l).

(** [l.count(x)] *)
Definition py_count (x : Z) (l : list Z) : Z :=
  Z.of_nat (length (filter (λ y, y = x) l)).

(** [len(l)] *)
Definition py_len (l : list Z) : Z := Z.of_nat (length l).

(** [l.remove(x)]: drops the first occurrence, [ValueError] when absent. *)
Fixpoint py_remove (x : Z) (l : list Z) : outcome (list Z) :=
  match l with
  | [] => Raise ValueError
  | y :: l' => if decide (y = x) then Done l' else (y ::.) <$> py_remove x l'
  end.

(** [l.pop()]: the last element and the list without it. *)
Definition py_pop (l : list Z) : outcome (Z * list Z) :=
  match reverse l with
  | [] => Raise IndexError
  | x :: l' => Done (x, reverse l')
  end.

(** ** The game *)

Record Config := {
  deck_copy : list Z;
  blackjack_num : Z;
  dealer_limit : Z   (* not read by the two-player game *)
}.

Record BlackJack := {
  deck : list Z;
  dealer_hand : list Z;
  player_hand : list Z;
  turn : Z           (* 0 = player turn, 1 = dealer turn *)
}.

Definition copy (game : BlackJack) : BlackJack := game.

Inductive party := Dealer | Player.

(** [game.turn += 1] *)
Definition advance_turn (game : BlackJack) : BlackJack :=
  {| deck := deck game; dealer_hand := dealer_hand game;
     player_hand := player_hand game; turn := turn game + 1 |}.

(** [game.<who>_hand.append(card); game.deck.remove(card)] *)
Definition hit (who : party) (game : BlackJack) (card : Z) : outcome BlackJack :=
  let dealer_hand' :=
    match who with Dealer => dealer_hand game ++ [card] | Player => dealer_hand game end in
  let player_hand' :=
    match who with Dealer => player_hand game | Player => player_hand game ++ [card] end in
  deck' ← py_remove card (deck game);
  Done {| deck := deck'; dealer_hand := dealer_hand'; player_hand := player_hand';
          turn := turn game |}.

(** ** win_probability_analysis.py, the part shared by the two games *)

Definition draw_prob (game : BlackJack) (card : Z) : outcome Qc :=
  py_div in_draw_prob (py_count card (deck game)) (py_len (deck game)).

Abbreviation key := (Z * Z * list Z * Z)%type.

Definition get_game_state_representation (game_state : BlackJack) : key :=
  (py_sum (dealer_hand game_state), py_sum (player_hand game_state),
   py_sorted (deck game_state), turn game_state).

(** The probability tuples: one [Qc] per slot, [0] and
    [acc + p * v] slot by slot. *)
Class Slots (T : Type) := {
  slots_zero : T;
  slots_add_scaled : T → Qc → T → T
}.

Global Instance slots1 : Slots Qc := {|
  slots_zero := 0%Qc;
  slots_add_scaled acc p v := (acc + p * v)%Qc
|}.
Global Instance slots2 : Slots (Qc * Qc) := {|
  slots_zero := (0, 0)%Qc;
  slots_add_scaled acc p v := (acc.1 + p * v.1, acc.2 + p * v.2)%Qc
|}.
Global Instance slots3 : Slots (Qc * Qc * Qc) := {|
  slots_zero := (0, 0, 0)%Qc;
  slots_add_scaled acc p v :=
    (acc.1.1 + p * v.1.1, acc.1.2 + p * v.1.2, acc.2 + p * v.2)%Qc
|}.
Global Instance slots4 : Slots (Qc * Qc * Qc * Qc) := {|
  slots_zero := (0, 0, 0, 0)%Qc;
  slots_add_scaled acc p v :=
    (acc.1.1.1 + p * v.1.1.1, acc.1.1.2 + p * v.1.1.2,
     acc.1.2 + p * v.1.2, acc.2 + p * v.2)%Qc
|}.

(** A solver: from a state and the record to a tuple and the record. *)
Abbreviation solver T := (BlackJack → gmap key T → outcome (T * gmap key T)).

(** The loop [for card in np.unique(game_state.deck): ...] of every solver:
    the state after the draw is built on a copy, the solver [rec] is called on
    it with the current record, and its tuple is added with the weight of the
    draw. *)
Fixpoint hit_loop {T} `{Slots T}
    (rec : solver T) (who : party) (game_state : BlackJack) (cards : list Z)
    (acc : T) (record : gmap key T) : outcome (T * gmap key T) :=
  match cards with
  | [] => Done (acc, record)
  | card :: cards =>
      let hit_game_state := copy game_state in
      card_draw_prob ← draw_prob hit_game_state card;
      hit_game_state ← hit who hit_game_state card;
      '(win_probability, record) ← rec hit_game_state record;
      hit_loop rec who game_state cards
        (slots_add_scaled acc card_draw_prob win_probability) record
  end.

(** The policy oracle [agent.get_argmax_action_index]: an action index, or
    a failure. *)
Inductive answer := Action (action_index : Z) | Fails (code : Z).
Abbreviation agent := (list Qc → answer).

Definition get_argmax_action_index (a : agent) (features : list Qc) : outcome Z :=
  match a features with
  | Action action_index => Done action_index
  | Fails code => Raise (OracleError code)
  end.

(** [get_features], the same in the two games. *)
Definition get_features (cfg : Config) (game : BlackJack) : outcome (list Qc) :=
  d ← py_div in_get_features (py_sum (dealer_hand game)) (blackjack_num cfg);
  p ← py_div in_get_features (py_sum (player_hand game)) (blackjack_num cfg);
  probs ← mapM (λ card, py_div in_get_features (py_count card (deck game))
                                (py_len (deck game)))
               (np_unique (deck_copy cfg));
  Done (d :: p :: probs).

(** The question put to the oracle at a state:
    [agent.get_argmax_action_index(game_state.get_features())]. *)
Definition ask (cfg : Config) (a : agent) (g : BlackJack) : outcome Z :=
  features ← get_features cfg g; get_argmax_action_index a features.

(** What that question raises. *)
Definition raised_by_ask (e : exn) : Prop :=
  e = ZeroDivisionError in_get_features ∨ ∃ code, e = OracleError code.

(** The agent whose every answer other than 0 is replaced by 1. *)
Definition as_stay_or_hit (a : agent) : agent :=
  λ features,
    match a features with
    | Action action_index => Action (if action_index =? 0 then 0 else 1)
    | Fails code => Fails code
    end.

(** ** The common shape of the four solvers

    Every solver looks its state up in the record, asks [is_game_over], and
    otherwise expands the state along a [plan]: the stay branch, the hit
    branch, or both, combined slot by slot.  [solve] is that shape, with
    the terminal test, the terminal tuple and the plan as parameters; each
    solver of the source is shown below to be an instance of it.  [value]
    is the same recursion without a record. *)

Inductive plan (T : Type) :=
  | HitOnly (who : party)
  | StayOnly (finish : T → T)
  | StayAndHit (who : party) (combine : T → T → T).
Arguments HitOnly {T} who.
Arguments StayOnly {T} finish.
Arguments StayAndHit {T} who combine.

Definition has_stay {T} (p : plan T) : bool :=
  match p with HitOnly _ => false | _ => true end.

Section Engine.
Context {T : Type} `{Slots T}.
Variable over : BlackJack → bool * option Qc.
Variable terminal : Qc → T.
Variable plan_of : BlackJack → outcome (plan T).

Definition expand (rec : solver T) (p : plan T) (game_state : BlackJack) (record : gmap key T)
    : outcome (T * gmap key T) :=
  match p with
  | HitOnly who =>
      hit_loop rec who game_state (np_unique (deck game_state)) slots_zero record
  | StayOnly finish =>
      '(stay, record) ← rec (advance_turn (copy game_state)) record;
      Done (finish stay, record)
  | StayAndHit who combine =>
      '(stay, record) ← rec (advance_turn (copy game_state)) record;
      '(hit, record) ←
        hit_loop rec who game_state (np_unique (deck game_state)) slots_zero record;
      Done (combine stay hit, record)
  end.

Fixpoint solve (fuel : nat) (game_state : BlackJack) (record : gmap key T)
    : outcome (T * gmap key T) :=
  match fuel with
  | O => OutOfFuel
  | S fuel =>
    match record !! get_game_state_representation game_state with
    | Some probabilities => Done (probabilities, record)
    | None =>
      match over game_state with
      | (true, Some result) => Done (terminal result, record)
      | (true, None) => Raise TypeError
      | (false, _) =>
        p ← plan_of game_state;
        '(totals, record) ← expand (solve fuel) p game_state record;
        Done (totals, <[get_game_state_representation game_state := totals]> record)
      end
    end
  end.

(** A solver without a record, as a function on records that it leaves
    alone. *)
Definition unrecorded (f : BlackJack → outcome T) : solver T :=
  λ game_state record, (λ v, (v, record)) <$> f game_state.

Fixpoint value (fuel : nat) (game_state : BlackJack) : outcome T :=
  match fuel with
  | O => OutOfFuel
  | S fuel =>
    match over game_state with
    | (true, Some result) => Done (terminal result)
    | (true, None) => Raise TypeError
    | (false, _) =>
      p ← plan_of game_state;
      fst <$> expand (unrecorded (value fuel)) p game_state ∅
    end
  end.

(** Every entry of the record is the value of every state it stands for. *)
Definition sound_record (record : gmap key T) : Prop :=
  ∀ game_state v,
    record !! get_game_state_representation game_state = Some v →
    ∃ fuel, value fuel game_state = Done v.

(** The call with a record gives what the call without a record gives,
    and leaves a sound record. *)
Definition agrees (o : outcome T) (o' : outcome (T * gmap key T)) : Prop :=
  match o with
  | Done v => ∃ record, o' = Done (v, record) ∧ sound_record record
  | Raise e => o' = Raise e
  | OutOfFuel => True
  end.
End Engine.

(** Two states with one key. *)
Definition same_key (g1 g2 : BlackJack) : Prop :=
  get_game_state_representation g1 = get_game_state_representation g2.

(** A solver that gives one result on the states with one key. *)
Definition respects_key {T} (rec : solver T) : Prop :=
  ∀ g1 g2 r, same_key g1 g2 → rec g1 r = rec g2 r.

(** [rec2] gives the result of [rec1] wherever [rec1] comes back. *)
Definition extends {T} (rec1 rec2 : solver T) : Prop :=
  ∀ g r, settled (rec1 g r) → rec2 g r = rec1 g r.

(** The cards of the deck and the turns left up to [tmax]. *)
Definition rank (tmax : Z) (g : BlackJack) : nat :=
  (length (deck g) + Z.to_nat (tmax - turn g))%nat.

(** A plan and a solver that keep a property of the tuples. *)
Definition plan_keeps {T} (P : T → Prop) (p : plan T) : Prop :=
  match p with
  | HitOnly _ => True
  | StayOnly finish => ∀ stay, P stay → P (finish stay)
  | StayAndHit _ combine => ∀ stay hit, P stay → P hit → P (combine stay hit)
  end.

Definition keeps {T} (P : T → Prop) (rec : solver T) : Prop :=
  ∀ g r v r',
    map_Forall (λ _ : key, P) r → rec g r = Done (v, r') →
    P v ∧ map_Forall (λ _ : key, P) r'.

(** ** The values of the claims *)

(** [l] without its first [x]. *)
Fixpoint remove_one (x : Z) (l : list Z) : list Z :=
  match l with
  | [] => []
  | y :: l' => if decide (y = x) then l' else y :: remove_one x l'
  end.

(** The state after [who] has drawn [card]: the card is appended to the
    hand and one such card has left the deck. *)
Definition drawn (who : party) (game : BlackJack) (card : Z) : BlackJack :=
  {| deck := remove_one card (deck game);
     dealer_hand :=
       match who with Dealer => dealer_hand game ++ [card] | Player => dealer_hand game end;
     player_hand :=
       match who with Dealer => player_hand game | Player => player_hand game ++ [card] end;
     turn := turn game |}.

(** The probability of drawing [card]: its count in the deck over the size
    of the deck. *)
Definition draw_weight (game : BlackJack) (card : Z) : Qc :=
  (Qc_of_Z (py_count card (deck game)) / Qc_of_Z (py_len (deck game)))%Qc.

(** The sum, over the distinct cards of the deck, of the probability of the
    draw times the value [f] after the draw. *)
Definition expected (game : BlackJack) (f : Z → Qc) : Qc :=
  foldr (λ card s, (draw_weight game card * f card + s)%Qc) 0%Qc
        (np_unique (deck game)).

(** The tuple that the loop has added up when every call gave a value. *)
Definition added_up {T} `{Slots T} (g : BlackJack) (V : Z → T) (cards : list Z)
    (acc : T) : T :=
  fold_left (λ acc c, slots_add_scaled acc (draw_weight g c) (V c)) cards acc.

(** The value of a call, when it gave one. *)
Definition the_value {T} (d : T) (o : outcome T) : T :=
  match o with Done v => v | _ => d end.

(** The fraction that a call gave. *)
Definition fraction (o : outcome Qc) : outcome Q := this <$> o.

(** ** one_player_blackjack *)

Module OnePlayer.

(** [BlackJack.is_game_over] *)
Definition is_game_over (cfg : Config) (game : BlackJack) : bool * option Qc :=
  if (turn game =? 0) && (py_sum (player_hand game) >? blackjack_num cfg)
  then (true, Some 0%Qc) (* player busts *)
  else if turn game =? 1 then
    if py_sum (dealer_hand game) >? blackjack_num cfg
    then (true, Some 1%Qc) (* dealer busts *)
    else if py_sum (dealer_hand game) >=? dealer_limit cfg then (* dealer_limit reached *)
      if py_sum (player_hand game) >? py_sum (dealer_hand game) then (true, Some 1%Qc)
      else if py_sum (player_hand game) <? py_sum (dealer_hand game) then (true, Some 0%Qc)
      else (true, Some 0%Qc) (* tie *)
    else (false, None)
  else (false, None).

Fixpoint get_theoretical_win_probability (cfg : Config) (fuel : nat)
    (game_state : BlackJack) (record : gmap key (Qc * Qc))
    : outcome ((Qc * Qc) * gmap key (Qc * Qc)) :=
  match fuel with
  | O => OutOfFuel
  | S fuel =>
    let game_state_representation := get_game_state_representation game_state in
    match record !! game_state_representation with
    | Some probabilities => Done (probabilities, record)
    | None =>
      match is_game_over cfg game_state with
      | (true, Some result) => Done ((result, result), record)
      | (true, None) => Raise TypeError (* is_game_over has no such result *)
      | (false, _) =>
        '(totals, record) ←
          (if turn game_state =? 1 then (* dealer turn *)
             hit_loop (get_theoretical_win_probability cfg fuel) Dealer game_state
               (np_unique (deck game_state)) (0, 0)%Qc record
           else (* player turn *)
             let player_stay_game_state := advance_turn (copy game_state) in
             '(stay, record) ←
               get_theoretical_win_probability cfg fuel player_stay_game_state record;
             '(hit, record) ←
               hit_loop (get_theoretical_win_probability cfg fuel) Player game_state
                 (np_unique (deck game_state)) (0, 0)%Qc record;
             Done ((0 + py_max stay.1 hit.1,
                    0 + (half * stay.2 + half * hit.2))%Qc, record));
        Done (totals, <[game_state_representation := totals]> record)
      end
    end
  end.

Fixpoint get_ai_win_probability (cfg : Config) (a : agent) (fuel : nat)
    (game_state : BlackJack) (record : gmap key Qc)
    : outcome (Qc * gmap key Qc) :=
  match fuel with
  | O => OutOfFuel
  | S fuel =>
    let game_state_representation := get_game_state_representation game_state in
    match record !! game_state_representation with
    | Some probability => Done (probability, record)
    | None =>
      match is_game_over cfg game_state with
      | (true, Some result) => Done (result, record)
      | (true, None) => Raise TypeError (* is_game_over has no such result *)
      | (false, _) =>
        '(total, record) ←
          (if turn game_state =? 1 then (* dealer turn *)
             hit_loop (get_ai_win_probability cfg a fuel) Dealer game_state
               (np_unique (deck game_state)) 0%Qc record
           else (* player turn *)
             features ← get_features cfg game_state;
             action_index ← get_argmax_action_index a features;
             if action_index =? 0 then (* player stays *)
               let player_stay_game_state := advance_turn (copy game_state) in
               '(stay, record) ←
                 get_ai_win_probability cfg a fuel player_stay_game_state record;
               Done ((0 + stay)%Qc, record)
             else (* player hits *)
               hit_loop (get_ai_win_probability cfg a fuel) Player game_state
                 (np_unique (deck game_state)) 0%Qc record);
        Done (total, <[game_state_representation := total]> record)
      end
    end
  end.

(** Fuel that covers the recursion from [game_state]: one call per card of
    the deck and per turn left, and the call itself. *)
Definition fuel_for (game_state : BlackJack) : nat :=
  S (length (deck game_state) + Z.to_nat (1 - turn game_state)).

(** A call with a fresh record, as the first call of
    [get_total_theoretical_win_probability] and of
    [get_total_ai_win_probability]. *)
Definition theoretical_win_probability (cfg : Config) (game_state : BlackJack)
    : outcome (Qc * Qc) :=
  fst <$> get_theoretical_win_probability cfg (fuel_for game_state) game_state ∅.

Definition ai_win_probability (cfg : Config) (a : agent) (game_state : BlackJack)
    : outcome Qc :=
  fst <$> get_ai_win_probability cfg a (fuel_for game_state) game_state ∅.

(** The plans of the two solvers. *)
Definition theoretical_plan (game_state : BlackJack) : outcome (plan (Qc * Qc)) :=
  Done (if turn game_state =? 1 then HitOnly Dealer
        else StayAndHit Player (λ stay hit,
               (0 + py_max stay.1 hit.1, 0 + (half * stay.2 + half * hit.2))%Qc)).

Definition ai_plan (cfg : Config) (a : agent) (game_state : BlackJack)
    : outcome (plan Qc) :=
  if turn game_state =? 1 then Done (HitOnly Dealer)
  else
    features ← get_features cfg game_state;
    action_index ← get_argmax_action_index a features;
    Done (if action_index =? 0 then StayOnly (λ stay, (0 + stay)%Qc)
          else HitOnly Player).

End OnePlayer.

(** ** two_player_blackjack *)

Module TwoPlayer.

(** [BlackJack.is_game_over] *)
Definition is_game_over (cfg : Config) (game : BlackJack) : bool * option Qc :=
  if (turn game =? 0) && (py_sum (player_hand game) >? blackjack_num cfg)
  then (true, Some 0%Qc) (* player busts *)
  else if (turn game =? 1) && (py_sum (dealer_hand game) >? blackjack_num cfg)
  then (true, Some 1%Qc) (* dealer busts *)
  else if turn game =? 2 then (* dealer stays *)
    if py_sum (player_hand game) >? py_sum (dealer_hand game) then (true, Some 1%Qc)
    else if py_sum (player_hand game) <? py_sum (dealer_hand game) then (true, Some 0%Qc)
    else (true, Some 0%Qc) (* tie *)
  else (false, None).

(** The slots are (opod, oprd, rpod, rprd): optimal or random player against
    optimal or random dealer. *)
Fixpoint get_theoretical_win_probability (cfg : Config) (fuel : nat)
    (game_state : BlackJack) (record : gmap key (Qc * Qc * Qc * Qc))
    : outcome ((Qc * Qc * Qc * Qc) * gmap key (Qc * Qc * Qc * Qc)) :=
  match fuel with
  | O => OutOfFuel
  | S fuel =>
    let game_state_representation := get_game_state_representation game_state in
    match record !! game_state_representation with
    | Some probabilities => Done (probabilities, record)
    | None =>
      match is_game_over cfg game_state with
      | (true, Some result) => Done ((result, result, result, result), record)
      | (true, None) => Raise TypeError (* is_game_over has no such result *)
      | (false, _) =>
        '(totals, record) ←
          (if turn game_state =? 1 then (* dealer turn *)
             let dealer_stay_game_state := advance_turn (copy game_state) in
             '(stay, record) ←
               get_theoretical_win_probability cfg fuel dealer_stay_game_state record;
             '(hit, record) ←
               hit_loop (get_theoretical_win_probability cfg fuel) Dealer game_state
                 (np_unique (deck game_state)) (0, 0, 0, 0)%Qc record;
             Done ((0 + py_min stay.1.1.1 hit.1.1.1,
                    0 + (half * stay.1.1.2 + half * hit.1.1.2),
                    0 + py_min stay.1.2 hit.1.2,
                    0 + (half * stay.2 + half * hit.2))%Qc, record)
           else (* player turn *)
             let player_stay_game_state := advance_turn (copy game_state) in
             '(stay, record) ←
               get_theoretical_win_probability cfg fuel player_stay_game_state record;
             '(hit, record) ←
               hit_loop (get_theoretical_win_probability cfg fuel) Player game_state
                 (np_unique (deck game_state)) (0, 0, 0, 0)%Qc record;
             Done ((0 + py_max stay.1.1.1 hit.1.1.1,
                    0 + py_max stay.1.1.2 hit.1.1.2,
                    0 + (half * stay.1.2 + half * hit.1.2),
                    0 + (half * stay.2 + half * hit.2))%Qc, record));
        Done (totals, <[game_state_representation := totals]> record)
      end
    end
  end.

(** The slots are (apad, aprd, rpad): agent or random player against agent
    or random dealer. *)
Fixpoint get_ai_win_probability (cfg : Config) (player_agent dealer_agent : agent)
    (fuel : nat) (game_state : BlackJack) (record : gmap key (Qc * Qc * Qc))
    : outcome ((Qc * Qc * Qc) * gmap key (Qc * Qc * Qc)) :=
  match fuel with
  | O => OutOfFuel
  | S fuel =>
    let game_state_representation := get_game_state_representation game_state in
    match record !! game_state_representation with
    | Some probabilities => Done (probabilities, record)
    | None =>
      match is_game_over cfg game_state with
      | (true, Some result) => Done ((result, result, result), record)
      | (true, None) => Raise TypeError (* is_game_over has no such result *)
      | (false, _) =>
        '(totals, record) ←
          (if turn game_state =? 1 then (* dealer turn *)
             features ← get_features cfg game_state;
             action_index ← get_argmax_action_index dealer_agent features;
             let dealer_stay_game_state := advance_turn (copy game_state) in
             '(stay, record) ←
               get_ai_win_probability cfg player_agent dealer_agent fuel
                 dealer_stay_game_state record;
             '(hit, record) ←
               hit_loop (get_ai_win_probability cfg player_agent dealer_agent fuel)
                 Dealer game_state (np_unique (deck game_state)) (0, 0, 0)%Qc record;
             Done ((if action_index =? 0
                    then (0 + stay.1.1, 0 + (half * stay.1.2 + half * hit.1.2),
                          0 + stay.2)
                    else (0 + hit.1.1, 0 + (half * stay.1.2 + half * hit.1.2),
                          0 + hit.2))%Qc, record)
           else (* player turn *)
             features ← get_features cfg game_state;
             action_index ← get_argmax_action_index player_agent features;
             let player_stay_game_state := advance_turn (copy game_state) in
             '(stay, record) ←
               get_ai_win_probability cfg player_agent dealer_agent fuel
                 player_stay_game_state record;
             '(hit, record) ←
               hit_loop (get_ai_win_probability cfg player_agent dealer_agent fuel)
                 Player game_state (np_unique (deck game_state)) (0, 0, 0)%Qc record;
             Done ((if action_index =? 0
                    then (0 + stay.1.1, 0 + stay.1.2,
                          0 + (half * stay.2 + half * hit.2))
                    else (0 + hit.1.1, 0 + hit.1.2,
                          0 + (half * stay.2 + half * hit.2)))%Qc, record));
        Done (totals, <[game_state_representation := totals]> record)
      end
    end
  end.

(** Fuel that covers the recursion from [game_state]: one call per card of
    the deck and per turn left, and the call itself. *)
Definition fuel_for (game_state : BlackJack) : nat :=
  S (length (deck game_state) + Z.to_nat (2 - turn game_state)).

(** A call with a fresh record. *)
Definition theoretical_win_probability (cfg : Config) (game_state : BlackJack)
    : outcome (Qc * Qc * Qc * Qc) :=
  fst <$> get_theoretical_win_probability cfg (fuel_for game_state) game_state ∅.

Definition ai_win_probability (cfg : Config) (player_agent dealer_agent : agent)
    (game_state : BlackJack) : outcome (Qc * Qc * Qc) :=
  fst <$> get_ai_win_probability cfg player_agent dealer_agent
            (fuel_for game_state) game_state ∅.

(** The plans of the two solvers. *)
Definition theoretical_plan (game_state : BlackJack)
    : outcome (plan (Qc * Qc * Qc * Qc)) :=
  Done (if turn game_state =? 1
        then StayAndHit Dealer (λ stay hit,
               (0 + py_min stay.1.1.1 hit.1.1.1,
                0 + (half * stay.1.1.2 + half * hit.1.1.2),
                0 + py_min stay.1.2 hit.1.2,
                0 + (half * stay.2 + half * hit.2))%Qc)
        else StayAndHit Player (λ stay hit,
               (0 + py_max stay.1.1.1 hit.1.1.1,
                0 + py_max stay.1.1.2 hit.1.1.2,
                0 + (half * stay.1.2 + half * hit.1.2),
                0 + (half * stay.2 + half * hit.2))%Qc)).

Definition ai_plan (cfg : Config) (player_agent dealer_agent : agent)
    (game_state : BlackJack) : outcome (plan (Qc * Qc * Qc)) :=
  if turn game_state =? 1 then
    features ← get_features cfg game_state;
    action_index ← get_argmax_action_index dealer_agent features;
    Done (StayAndHit Dealer (λ stay hit,
            (if action_index =? 0
             then (0 + stay.1.1, 0 + (half * stay.1.2 + half * hit.1.2), 0 + stay.2)
             else (0 + hit.1.1, 0 + (half * stay.1.2 + half * hit.1.2), 0 + hit.2))%Qc))
  else
    features ← get_features cfg game_state;
    action_index ← get_argmax_action_index player_agent features;
    Done (StayAndHit Player (λ stay hit,
            (if action_index =? 0
             then (0 + stay.1.1, 0 + stay.1.2, 0 + (half * stay.2 + half * hit.2))
             else (0 + hit.1.1, 0 + hit.1.2, 0 + (half * stay.2 + half * hit.2)))%Qc)).

End TwoPlayer.

(** ** The initial states and the totals *)

(** [BlackJack.reset]; [shuffle] is what [np.random.shuffle] does to the
    deck. *)
Definition reset (cfg : Config) (shuffle : list Z → list Z) : outcome BlackJack :=
  let deck := shuffle (deck_copy cfg) in
  '(dealer_card, deck) ← py_pop deck;
  '(player_card1, deck) ← py_pop deck;
  '(player_card2, deck) ← py_pop deck;
  Done {| deck := deck; dealer_hand := [dealer_card];
          player_hand := [player_card1; player_card2]; turn := 0 |}.

(** Every element of a list with the others, in the order of the list. *)
Fixpoint picks {A} (l : list A) : list (A * list A) :=
  match l with
  | [] => []
  | x :: l' => (x, l') :: map (λ '(y, rest), (y, x :: rest)) (picks l')
  end.

(** [permutations(l, r=3)]: by position, in the order of [itertools]. *)
Definition permutations3 (l : list Z) : list (Z * Z * Z) :=
  '(a, l1) ← picks l; '(b, l2) ← picks l1; '(c, _) ← picks l2; [(a, b, c)].

(** [if k not in d: d[k] = 0] then [d[k] += 1], on a dictionary kept in
    insertion order. *)
Fixpoint count_up (k : Z * Z * Z) (d : list (Z * Z * Z * Z)) : list (Z * Z * Z * Z) :=
  match d with
  | [] => [(k, 0 + 1)]
  | (k', n) :: d' => if decide (k' = k) then (k', n + 1) :: d' else (k', n) :: count_up k d'
  end.

(** [tuple([dealer_card] + sorted((player_card1, player_card2)))] *)
Definition initial_state_of (p : Z * Z * Z) : Z * Z * Z :=
  let '(dealer_card, player_card1, player_card2) := p in
  if player_card2 <? player_card1 then (dealer_card, player_card2, player_card1)
  else (dealer_card, player_card1, player_card2).

(** The dictionary [initial_state_probabilities] after the counting loop. *)
Definition initial_state_counts (perms : list (Z * Z * Z)) : list (Z * Z * Z * Z) :=
  fold_left (λ d p, count_up (initial_state_of p) d) perms [].

Definition get_all_initial_states (cfg : Config) (shuffle1 shuffle2 : list Z → list Z)
    : outcome (list (BlackJack * Qc)) :=
  game ← reset cfg shuffle1;
  let initial_state_permutations := permutations3 (deck_copy cfg) in
  let counts := initial_state_counts initial_state_permutations in
  let num_initial_states := Z.of_nat (length initial_state_permutations) in
  initial_state_probabilities ←
    mapM (λ '(initial_state, n),
            p ← py_div in_get_all_initial_states n num_initial_states;
            Done (initial_state, p)) counts;
  (* a game instance with all cards in the deck *)
  game_hard_copy ← reset cfg shuffle2;
  let full_deck :=
    deck game_hard_copy ++ dealer_hand game_hard_copy
      ++ reverse (player_hand game_hard_copy) in
  mapM (λ '((dealer_card, player_card1, player_card2), probability),
          deck ← py_remove dealer_card full_deck;
          deck ← py_remove player_card1 deck;
          deck ← py_remove player_card2 deck;
          Done ({| deck := deck; dealer_hand := [dealer_card];
                   player_hand := [player_card1; player_card2];
                   turn := turn game_hard_copy |}, probability))
       initial_state_probabilities.

(** The sum of the probabilities of a list of initial states. *)
Definition total_probability (initial_states : list (BlackJack * Qc)) : Qc :=
  fold_left (λ acc e, (acc + e.2)%Qc) initial_states 0%Qc.

Module OnePlayerTotal.

(** The loop of [get_total_theoretical_win_probability]: one record for all
    the initial states. *)
Fixpoint total_loop (cfg : Config) (initial_states : list (BlackJack * Qc))
    (totals : Qc * Qc) (record : gmap key (Qc * Qc)) : outcome (Qc * Qc) :=
  match initial_states with
  | [] => Done totals
  | (game_state, probability) :: rest =>
      '(win, record) ←
        OnePlayer.get_theoretical_win_probability cfg
          (OnePlayer.fuel_for game_state) game_state record;
      total_loop cfg rest
        (totals.1 + probability * win.1, totals.2 + probability * win.2)%Qc record
  end.

Definition get_total_theoretical_win_probability (cfg : Config)
    (shuffle1 shuffle2 : list Z → list Z) : outcome (Qc * Qc) :=
  initial_states ← get_all_initial_states cfg shuffle1 shuffle2;
  total_loop cfg initial_states (0, 0)%Qc ∅.

End OnePlayerTotal.

(** ** The claims about the values *)

(** The plan of the two-player policy solver once the agent has answered. *)
Definition tp_agent_combine (who : party) (action_index : Z)
    : plan (Qc * Qc * Qc) :=
  match who with
  | Dealer => StayAndHit Dealer (λ stay hit,
      (if action_index =? 0
       then (0 + stay.1.1, 0 + (half * stay.1.2 + half * hit.1.2), 0 + stay.2)
       else (0 + hit.1.1, 0 + (half * stay.1.2 + half * hit.1.2), 0 + hit.2))%Qc)
  | Player => StayAndHit Player (λ stay hit,
      (if action_index =? 0
       then (0 + stay.1.1, 0 + stay.1.2, 0 + (half * stay.2 + half * hit.2))
       else (0 + hit.1.1, 0 + hit.1.2, 0 + (half * stay.2 + half * hit.2)))%Qc)
  end.

(** The optimal player wins at least as often as the random player,
    against the same dealer. *)
Definition op_ordered (v : Qc * Qc) : Prop := (v.2 ≤ v.1)%Qc.
Definition tp_ordered (v : Qc * Qc * Qc * Qc) : Prop :=
  (v.1.2 ≤ v.1.1.1 ∧ v.2 ≤ v.1.1.2)%Qc.

(** One step of the recursion of the one-player solvers: the stay of the
    player, or a draw by the party whose turn it is. *)
Inductive op_step (cfg : Config) : BlackJack → BlackJack → Prop :=
  | op_step_stay g :
      (OnePlayer.is_game_over cfg g).1 = false → turn g ≠ 1 →
      op_step cfg g (advance_turn g)
  | op_step_hit g c :
      (OnePlayer.is_game_over cfg g).1 = false → c ∈ deck g →
      op_step cfg g (drawn (if turn g =? 1 then Dealer else Player) g c).

(** The two values that [max] compares at a player's turn of the one-player
    game. *)
Definition op_stay_value (cfg : Config) (g : BlackJack) : Qc :=
  (the_value (0, 0)%Qc (OnePlayer.theoretical_win_probability cfg (advance_turn g))).1.

Definition op_hit_value (cfg : Config) (g : BlackJack) : Qc :=
  expected g (λ c, (the_value (0, 0)%Qc
                      (OnePlayer.theoretical_win_probability cfg (drawn Player g c))).1).

(** The agent answers, and stays exactly when [max] keeps the stay value. *)
Definition selects_as_max (cfg : Config) (a : agent) (g : BlackJack) : Prop :=
  ∃ action_index,
    ask cfg a g = Done action_index ∧
    (action_index = 0 ↔ ¬ (op_stay_value cfg g < op_hit_value cfg g)%Qc).

(** The one-player solvers without a record. *)
Abbreviation op_value_th cfg :=
  (value (OnePlayer.is_game_over cfg) (λ result, (result, result))
         OnePlayer.theoretical_plan).
Abbreviation op_value_ai cfg a :=
  (value (OnePlayer.is_game_over cfg) (λ result, result) (OnePlayer.ai_plan cfg a)).

(** The sum of the counts of the dictionary of initial states. *)
Definition counted (d : list (Z * Z * Z * Z)) : Z := foldr (λ e s, e.2 + s) 0 d.

(** ** Small games *)

Definition small_cfg : Config :=
  {| deck_copy := [1; 2; 3; 4]; blackjack_num := 5; dealer_limit := 4 |}.
Definition small_game : BlackJack :=
  {| deck := [4]; dealer_hand := [3]; player_hand := [1; 2]; turn := 0 |}.
Definition small_dealer_game : BlackJack :=
  {| deck := [4]; dealer_hand := [3]; player_hand := [1; 2]; turn := 1 |}.
Definition same_key_game1 : BlackJack :=
  {| deck := [1; 2]; dealer_hand := [3]; player_hand := [1; 2]; turn := 0 |}.
Definition same_key_game2 : BlackJack :=
  {| deck := [2; 1]; dealer_hand := [1; 2]; player_hand := [3]; turn := 0 |}.
Definition tie_cfg : Config :=
  {| deck_copy := [1; 2; 3; 4; 1; 2; 3; 4]; blackjack_num := 8; dealer_limit := 6 |}.
Definition tie_game : BlackJack :=
  {| deck := [1; 1]; dealer_hand := [3; 3]; player_hand := [2; 4]; turn := 1 |}.

(** * Further definitions *)

(** ** Probabilities *)

(** A number between 0 and 1, and the tuples of such numbers. *)
Definition probability (p : Qc) : Prop := (0 ≤ p ∧ p ≤ 1)%Qc.
Definition probabilities2 (v : Qc * Qc) : Prop := probability v.1 ∧ probability v.2.
Definition probabilities3 (v : Qc * Qc * Qc) : Prop :=
  probability v.1.1 ∧ probability v.1.2 ∧ probability v.2.
Definition probabilities4 (v : Qc * Qc * Qc * Qc) : Prop :=
  probability v.1.1.1 ∧ probability v.1.1.2 ∧ probability v.1.2 ∧ probability v.2.

(** [sum(ps)] on fractions. *)
Definition py_sum_Qc (ps : list Qc) : Qc := fold_left Qcplus ps 0%Qc.

(** The two-player solvers without a record. *)
Abbreviation tp_value_th cfg :=
  (value (TwoPlayer.is_game_over cfg) (λ result, (result, result, result, result))
         TwoPlayer.theoretical_plan).
Abbreviation tp_value_ai cfg player_agent dealer_agent :=
  (value (TwoPlayer.is_game_over cfg) (λ result, (result, result, result))
         (TwoPlayer.ai_plan cfg player_agent dealer_agent)).

(** ** The record *)

(** The keys of the states that the recursion can reach from [g]: they have
    no more cards in the deck and no earlier turn. *)
Definition reachable_key (g : BlackJack) (k : key) : Prop :=
  (length k.1.2 ≤ length (deck g))%nat ∧ turn g ≤ k.2.

(** A solver that keeps every entry of the record, and adds entries only
    under keys reachable from its state. *)
Definition grows {T} (rec : solver T) : Prop :=
  ∀ g r v r', rec g r = Done (v, r') →
    r ⊆ r' ∧ ∀ k, is_Some (r' !! k) → is_Some (r !! k) ∨ reachable_key g k.

(** The optimal dealer leaves the player at most what the random dealer
    leaves, against the same player. *)
Definition tp_dealer_ordered (v : Qc * Qc * Qc * Qc) : Prop :=
  (v.1.1.1 ≤ v.1.1.2 ∧ v.1.2 ≤ v.2)%Qc.

(** ** blackjack.py: the moves of a game *)

(** [BlackJack.deal]: the top card of the deck, its last element, goes to
    the hand of the player at turn 0 and to the hand of the dealer at any
    other turn. *)
Definition deal (game : BlackJack) : outcome BlackJack :=
  if turn game =? 0 then
    '(card, deck') ← py_pop (deck game);
    Done {| deck := deck'; dealer_hand := dealer_hand game;
            player_hand := player_hand game ++ [card]; turn := turn game |}
  else
    '(card, deck') ← py_pop (deck game);
    Done {| deck := deck'; dealer_hand := dealer_hand game ++ [card];
            player_hand := player_hand game; turn := turn game |}.

(** All the cards of a game: the deck and the two hands. *)
Definition cards (game : BlackJack) : list Z :=
  deck game ++ dealer_hand game ++ player_hand game.

(** The party that [deal] deals to. *)
Definition dealt_to (game : BlackJack) : party :=
  if turn game =? 0 then Player else Dealer.

Module OnePlayerGame.

(** [BlackJack.apply_action] of the one-player game. *)
Definition apply_action (game : BlackJack) (action_index : Z) : outcome BlackJack :=
  if action_index =? 1 then deal game
  else if turn game =? 0 then Done (advance_turn game)
  else Done game.

End OnePlayerGame.

Module TwoPlayerGame.

(** [BlackJack.apply_action] of the two-player game. *)
Definition apply_action (game : BlackJack) (action_index : Z) : outcome BlackJack :=
  if action_index =? 1 then deal game
  else Done (advance_turn game).

End TwoPlayerGame.

(** ** train.py: the games that are sampled *)

(** The generator of [np.random], whose state is threaded through the
    draws: [np_random_shuffle] is [np.random.shuffle], and
    [np_random_choice] is [np.random.choice(range(2))], which is 0 or 1
    ([true] for 1). *)
Record Generator (R : Type) := {
  np_random_shuffle : R → list Z → list Z * R;
  np_random_choice : R → bool * R
}.
Arguments np_random_shuffle {R} _ _ _.
Arguments np_random_choice {R} _ _.

(** [int(x)] of a float: the fraction is dropped. *)
Definition py_int (x : Qc) : Z := Z.quot (Qnum x) (Zpos (Qden x)).

(** [a / b] of floats; [None] is its [ZeroDivisionError]. *)
Definition py_truediv (a b : Qc) : option Qc :=
  if decide (b = 0%Qc) then None else Some (a / b)%Qc.

Section Sampling.
Context {R : Type} (gen : Generator R) (cfg : Config).

(** [game.reset()] with the generator in state [s]. *)
Definition reset_with (s : R) : outcome (BlackJack * R) :=
  game ← reset cfg (λ deck, (np_random_shuffle gen s deck).1);
  Done (game, (np_random_shuffle gen s (deck_copy cfg)).2).

(** The action of a party: sampled when its agent is [None], and the
    greedy action of the agent otherwise. *)
Definition choose (a : option agent) (game : BlackJack) (s : R) : outcome (Z * R) :=
  match a with
  | None => let '(one, s) := np_random_choice gen s in Done (Z.b2z one, s)
  | Some a => action_index ← ask cfg a game; Done (action_index, s)
  end.
End Sampling.

Module OnePlayerTrain.
Section Sampling.
Context {R : Type} (gen : Generator R) (cfg : Config) (a : option agent).

(** The loop [while not game_over] of [evaluate_agent], and the result of
    the game. *)
Fixpoint play (fuel : nat) (game : BlackJack) (s : R) : outcome (Qc * R) :=
  match fuel with
  | O => OutOfFuel
  | S fuel =>
    match OnePlayer.is_game_over cfg game with
    | (true, Some result) => Done (result, s)
    | (true, None) => Raise TypeError (* is_game_over has no such result *)
    | (false, _) =>
      if turn game =? 0 then (* player turn *)
        '(action_index, s) ← choose gen cfg a game s;
        game ← OnePlayerGame.apply_action game action_index;
        play fuel game s
      else (* dealer turn *)
        game ← OnePlayerGame.apply_action game 1;
        play fuel game s
    end
  end.

(** The loop [for _ in range(...)] of [evaluate_agent]: [num_wins] after
    [n] more games. *)
Fixpoint episodes (fuel : nat) (n : nat) (num_wins : Qc) (s : R) : outcome (Qc * R) :=
  match n with
  | O => Done (num_wins, s)
  | S n =>
    '(game, s) ← reset_with gen cfg s;
    '(result, s) ← play fuel game s;
    episodes fuel n (num_wins + result)%Qc s
  end.

(** [evaluate_agent(agent, config)], with [print_game] left at [False] as in
    every call of the repository; [num_episodes] is
    [config['evaluate']['num_episodes']]. *)
Definition evaluate_agent (fuel : nat) (num_episodes : Qc) (s : R)
    : outcome (option Qc * R) :=
  '(num_wins, s) ← episodes fuel (Z.to_nat (py_int num_episodes)) 0%Qc s;
  Done (py_truediv num_wins num_episodes, s).
End Sampling.
End OnePlayerTrain.

Module TwoPlayerTrain.
Section Sampling.
Context {R : Type} (gen : Generator R) (cfg : Config)
        (player_agent dealer_agent : option agent).

(** The loop [while not game_over] of [evaluate_agents], and the result of
    the game. *)
Fixpoint play (fuel : nat) (game : BlackJack) (s : R) : outcome (Qc * R) :=
  match fuel with
  | O => OutOfFuel
  | S fuel =>
    match TwoPlayer.is_game_over cfg game with
    | (true, Some result) => Done (result, s)
    | (true, None) => Raise TypeError (* is_game_over has no such result *)
    | (false, _) =>
      '(action_index, s) ←
        (if turn game =? 0 then choose gen cfg player_agent game s (* player turn *)
         else choose gen cfg dealer_agent game s); (* dealer turn *)
      game ← TwoPlayerGame.apply_action game action_index;
      play fuel game s
    end
  end.

Fixpoint episodes (fuel : nat) (n : nat) (num_wins : Qc) (s : R) : outcome (Qc * R) :=
  match n with
  | O => Done (num_wins, s)
  | S n =>
    '(game, s) ← reset_with gen cfg s;
    '(result, s) ← play fuel game s;
    episodes fuel n (num_wins + result)%Qc s
  end.

(** [evaluate_agents(player_agent, dealer_agent, config)] *)
Definition evaluate_agents (fuel : nat) (num_episodes : Qc) (s : R)
    : outcome (option Qc * R) :=
  '(num_wins, s) ← episodes fuel (Z.to_nat (py_int num_episodes)) 0%Qc s;
  Done (py_truediv num_wins num_episodes, s).
End Sampling.
End TwoPlayerTrain.

(** The cards of a state are those of the configuration, the turn is 0
    or 1, the dealer has been dealt one card as long as the player is to
    move, and the player has not bust once the turn has passed. *)
Definition op_in_play (cfg : Config) (g : BlackJack) : Prop :=
  cards g ≡ₚ deck_copy cfg ∧
  (turn g = 0 ∧ (∃ c, dealer_hand g = [c]) ∨
   turn g = 1 ∧ py_sum (player_hand g) ≤ blackjack_num cfg).

(** The same for the two-player game, where the dealer stays at turn 2 and
    has not bust by then. *)
Definition tp_in_play (cfg : Config) (g : BlackJack) : Prop :=
  cards g ≡ₚ deck_copy cfg ∧
  (turn g = 0 ∧ (∃ c, dealer_hand g = [c]) ∨
   turn g = 1 ∧ py_sum (player_hand g) ≤ blackjack_num cfg ∨
   turn g = 2).

(** A deck that cannot run out in the one-player game: the player busts
    before holding all the cards but the dealer's, and the dealer reaches the
    limit before holding all the cards that a player who has not bust has
    left. *)
Definition op_deck_lasts (cfg : Config) : Prop :=
  (∀ c, c ∈ deck_copy cfg → blackjack_num cfg < py_sum (deck_copy cfg) - c) ∧
  dealer_limit cfg ≤ py_sum (deck_copy cfg) - blackjack_num cfg.

(** A deck that cannot run out in the two-player game. *)
Definition tp_deck_lasts (cfg : Config) : Prop :=
  (∀ c, c ∈ deck_copy cfg → blackjack_num cfg < py_sum (deck_copy cfg) - c) ∧
  2 * blackjack_num cfg < py_sum (deck_copy cfg).

(** The result of a game is 0 or 1. *)
Definition zero_or_one (result : Qc) : Prop := result = 0%Qc ∨ result = 1%Qc.

(** The moves left in a game of the one-player game: the cards of the deck,
    and the stay of the player. *)
Definition op_moves (g : BlackJack) : nat :=
  (length (deck g) + (if (turn g =? 0)%Z then 1 else 0))%nat.

(** The moves left in a game of the two-player game: the cards of the deck
    and the two stays. *)
Definition tp_moves (g : BlackJack) : nat :=
  (length (deck g) + Z.to_nat (2 - turn g))%nat.

(** A generator that leaves the deck as it is and always draws 1. *)
Definition fixed_generator : Generator unit :=
  {| np_random_shuffle := λ s deck, (deck, s); np_random_choice := λ s, (true, s) |}.

(** A state of the dealer's turn with no card left in the deck. *)
Definition empty_deck_game : BlackJack :=
  {| deck := []; dealer_hand := [1; 2]; player_hand := [3; 4]; turn := 1 |}.

(** ** The other totals *)

Module OnePlayerAiTotal.

(** The loop of [get_total_ai_win_probability]: one record for all the
    initial states. *)
Fixpoint total_loop (cfg : Config) (a : agent) (initial_states : list (BlackJack * Qc))
    (total : Qc) (record : gmap key Qc) : outcome Qc :=
  match initial_states with
  | [] => Done total
  | (game_state, probability) :: rest =>
      '(win, record) ←
        OnePlayer.get_ai_win_probability cfg a
          (OnePlayer.fuel_for game_state) game_state record;
      total_loop cfg a rest (total + probability * win)%Qc record
  end.

Definition get_total_ai_win_probability (cfg : Config) (a : agent)
    (shuffle1 shuffle2 : list Z → list Z) : outcome Qc :=
  initial_states ← get_all_initial_states cfg shuffle1 shuffle2;
  total_loop cfg a initial_states 0%Qc ∅.

End OnePlayerAiTotal.

Module TwoPlayerTotal.

(** The loop of [get_total_theoretical_win_probability]. *)
Fixpoint total_loop (cfg : Config) (initial_states : list (BlackJack * Qc))
    (totals : Qc * Qc * Qc * Qc) (record : gmap key (Qc * Qc * Qc * Qc))
    : outcome (Qc * Qc * Qc * Qc) :=
  match initial_states with
  | [] => Done totals
  | (game_state, probability) :: rest =>
      '(win, record) ←
        TwoPlayer.get_theoretical_win_probability cfg
          (TwoPlayer.fuel_for game_state) game_state record;
      total_loop cfg rest
        (totals.1.1.1 + probability * win.1.1.1, totals.1.1.2 + probability * win.1.1.2,
         totals.1.2 + probability * win.1.2, totals.2 + probability * win.2)%Qc record
  end.

Definition get_total_theoretical_win_probability (cfg : Config)
    (shuffle1 shuffle2 : list Z → list Z) : outcome (Qc * Qc * Qc * Qc) :=
  initial_states ← get_all_initial_states cfg shuffle1 shuffle2;
  total_loop cfg initial_states (0, 0, 0, 0)%Qc ∅.

(** The loop of [get_total_ai_win_probability]. *)
Fixpoint ai_total_loop (cfg : Config) (player_agent dealer_agent : agent)
    (initial_states : list (BlackJack * Qc))
    (totals : Qc * Qc * Qc) (record : gmap key (Qc * Qc * Qc))
    : outcome (Qc * Qc * Qc) :=
  match initial_states with
  | [] => Done totals
  | (game_state, probability) :: rest =>
      '(win, record) ←
        TwoPlayer.get_ai_win_probability cfg player_agent dealer_agent
          (TwoPlayer.fuel_for game_state) game_state record;
      ai_total_loop cfg player_agent dealer_agent rest
        (totals.1.1 + probability * win.1.1, totals.1.2 + probability * win.1.2,
         totals.2 + probability * win.2)%Qc record
  end.

Definition get_total_ai_win_probability (cfg : Config) (player_agent dealer_agent : agent)
    (shuffle1 shuffle2 : list Z → list Z) : outcome (Qc * Qc * Qc) :=
  initial_states ← get_all_initial_states cfg shuffle1 shuffle2;
  ai_total_loop cfg player_agent dealer_agent initial_states (0, 0, 0)%Qc ∅.

End TwoPlayerTotal.

(** The two steps of [get_all_initial_states] on an entry of its
    dictionary: the count becomes a probability, and the state is made from
    the full deck. *)
Definition probability_of (num_initial_states : Z)
    : Z * Z * Z * Z → outcome (Z * Z * Z * Qc) :=
  λ '(initial_state, n),
    p ← py_div in_get_all_initial_states n num_initial_states;
    Done (initial_state, p).

Definition initial_state_from (full_deck : list Z) (turn0 : Z)
    : Z * Z * Z * Qc → outcome (BlackJack * Qc) :=
  λ '((dealer_card, player_card1, player_card2), probability),
    deck ← py_remove dealer_card full_deck;
    deck ← py_remove player_card1 deck;
    deck ← py_remove player_card2 deck;
    Done ({| deck := deck; dealer_hand := [dealer_card];
             player_hand := [player_card1; player_card2];
             turn := turn0 |}, probability).

(** Two initial states that differ by the order of the deck only. *)
Definition same_initial (e1 e2 : BlackJack * Qc) : Prop :=
  dealer_hand e1.1 = dealer_hand e2.1 ∧ player_hand e1.1 = player_hand e2.1 ∧
  deck e1.1 ≡ₚ deck e2.1 ∧ turn e1.1 = turn e2.1 ∧ e1.2 = e2.2.

(** [d.get(k, 0)] on the dictionary of the counts. *)
Fixpoint count_of (k : Z * Z * Z) (d : list (Z * Z * Z * Z)) : Z :=
  match d with
  | [] => 0
  | (k', n) :: d' => if decide (k' = k) then n else count_of k d'
  end.

(** The share of the ordered deals of three cards that give the initial
    state [k]. *)
Definition share (cfg : Config) (k : Z * Z * Z) : Qc :=
  (Qc_of_Z (Z.of_nat (length (filter (λ p, initial_state_of p = k)
                                     (permutations3 (deck_copy cfg)))))
   / Qc_of_Z (Z.of_nat (length (permutations3 (deck_copy cfg)))))%Qc.

(** The state that [get_all_initial_states] makes for the key [k]: its
    hands, its turn and its probability; the deck is the rest of the cards that
    [shuffle] has ordered. *)
Definition initial_state_for (cfg : Config) (shuffle : list Z → list Z)
    (k : Z * Z * Z) (e : BlackJack * Qc) : Prop :=
  dealer_hand e.1 = [k.1.1] ∧ player_hand e.1 = [k.1.2; k.2] ∧ k.1.2 ≤ k.2 ∧
  turn e.1 = 0 ∧ cards e.1 ≡ₚ shuffle (deck_copy cfg) ∧ e.2 = share cfg k.

(** The loop of a total when every initial state is solved on a record of
    its own: [val] is the solver with a fresh record. *)
Fixpoint totals_of_values {T} `{Slots T} (val : BlackJack → outcome T)
    (initial_states : list (BlackJack * Qc)) (totals : T) : outcome T :=
  match initial_states with
  | [] => Done totals
  | (game_state, probability) :: rest =>
      win ← val game_state;
      totals_of_values val rest (slots_add_scaled totals probability win)
  end.

(** ** binary64

    The numbers of the program are Python floats, binary64.  A [Qc] of the
    definitions above is the number that exact arithmetic gives; the float
    that the program holds is that number rounded at every operation.
    [binary64] is the rounding of IEEE 754: to the nearest number with a
    significand of 53 bits, ties to the even significand, with the
    subnormal numbers at the bottom of the range.  The top of the range is
    left out: a number of [2^1024] and more has no binary64 next to it, and no
    number here gets beyond 2. *)

Definition pow2 (e : Z) : Q := (2 ^ e)%Q.

(** The exponent of a positive fraction: [pow2 e <= x < pow2 (e + 1)]. *)
Definition Qlog2 (x : Q) : Z :=
  let d := Z.log2 (Qnum x) - Z.log2 (Zpos (Qden x)) in
  if Qle_bool (pow2 d) x then d else d - 1.

(** The nearest integer, the even one of two that are equally near. *)
Definition round_half_even (y : Q) : Z :=
  let n := Qfloor y in
  match (y - inject_Z n ?= 1 # 2)%Q with
  | Lt => n
  | Gt => n + 1
  | Eq => if Z.even n then n else n + 1
  end.

(** The exponent of the last place of the binary64 numbers next to [x]:
    52 places below the exponent of [x], and [-1074] for the subnormal
    numbers. *)
Definition last_place (x : Q) : Z := Z.max (Qlog2 x - 52) (-1074).

Definition binary64_of_pos (x : Q) : Q :=
  (inject_Z (round_half_even (x / pow2 (last_place x))) * pow2 (last_place x))%Q.

Definition binary64 (x : Qc) : Qc :=
  match (0 ?= x)%Qc with
  | Eq => 0%Qc
  | Lt => Q2Qc (binary64_of_pos x)
  | Gt => (- Q2Qc (binary64_of_pos (- x)))%Qc
  end.

(** [a / b] of two ints, as the program has it: Python rounds the quotient
    of the two integers once. *)
Definition py_div64 (a b : Z) : Qc := binary64 (Qc_of_Z a / Qc_of_Z b)%Qc.

(** The probabilities of the initial states as the program holds them:
    [initial_state_probabilities[initial_state] /= num_initial_states] is
    the one operation on floats of [get_all_initial_states], the division of
    two ints. *)
Definition binary64_probabilities (initial_states : list (BlackJack * Qc)) : list Qc :=
  (λ e, binary64 e.2) <$> initial_states.

(** [s = 0.0] and [s += p] for every [p], one after the other: the sum as
    the loops of the program add up floats. *)
Definition py_float_sum (ps : list Qc) : Qc :=
  fold_left (λ s p, binary64 (s + p)%Qc) ps 0%Qc.

(** Half the distance of 1 to the next binary64 number, [2^-53]. *)
Definition unit_roundoff : Qc := Q2Qc (pow2 (-53)).

(** [1e-9], the tolerance of the specification. *)
Definition tolerance : Qc := Q2Qc (1 # 1000000000).

(** The smallest normal number of binary64, [2^-1022], and the double of
    it. *)
Definition smallest_normal : Qc := Q2Qc (pow2 (-1022)).
Definition normal2 : Qc := Q2Qc (pow2 (-1021)).

(** [s += p], [k] times. *)
Definition add_times (p : Qc) (k : nat) (s : Qc) : Qc :=
  Nat.iter k (λ s, binary64 (s + p)%Qc) s.


(** A number that is not negative, and a tuple of such numbers. *)
Definition nonnegative (p : Qc) : Prop := (0 ≤ p)%Qc.
Definition nonnegative2 (v : Qc * Qc) : Prop := nonnegative v.1 ∧ nonnegative v.2.
Definition nonnegative3 (v : Qc * Qc * Qc) : Prop :=
  nonnegative v.1.1 ∧ nonnegative v.1.2 ∧ nonnegative v.2.
Definition nonnegative4 (v : Qc * Qc * Qc * Qc) : Prop :=
  nonnegative v.1.1.1 ∧ nonnegative v.1.1.2 ∧ nonnegative v.1.2 ∧ nonnegative v.2.

(** A number within [eps] of 1. *)
Definition within (eps x : Qc) : Prop := (1 - eps ≤ x ∧ x ≤ 1 + eps)%Qc.


(** The deck of the cards 1 to 6. *)
Definition six_cfg : Config :=
  {| deck_copy := [1; 2; 3; 4; 5; 6]; blackjack_num := 21; dealer_limit := 1 |}.

(** The sum of the probabilities of the initial states of a configuration as
    the floats of the program add up, with shuffles that leave the deck as
    it is. *)
Definition sum_of_floats (cfg : Config) : option Q :=
  match get_all_initial_states cfg id id with
  | Done initial_states => Some (this (py_float_sum (binary64_probabilities initial_states)))
  | _ => None
  end.

(** ** The floats of the machine

    The kernel of Rocq has the binary64 numbers of the machine, with the
    division and the addition of the processor.  They are no part of the
    model: they are here to compare [binary64] with them where both can be
    computed. *)

(** The number that a float is; [None] for an infinity and for a NaN. *)
Definition float_value (f : PrimFloat.float) : option Q :=
  match FloatOps.Prim2SF f with
  | SpecFloat.S754_zero _ => Some 0%Q
  | SpecFloat.S754_finite s m e =>
      Some (Qred ((if s then -1 else 1) * inject_Z (Zpos m) * pow2 e))
  | _ => None
  end.

Definition float_of_Z (a : Z) : PrimFloat.float := PrimFloat.of_uint63 (Uint63.of_Z a).

(** [a / b] of two ints on the machine. *)
Definition float_div (a b : Z) : PrimFloat.float :=
  PrimFloat.div (float_of_Z a) (float_of_Z b).

(** [s = 0.0] and [s += p] for every [p] on the machine. *)
Definition float_sum (ps : list PrimFloat.float) : PrimFloat.float :=
  fold_left PrimFloat.add ps (float_of_Z 0).

(** The sum of [sum_of_floats] on the machine.  A probability is the
    quotient of a count by the number of the ordered draws; the fraction in
    lowest terms is the same quotient. *)
Definition machine_sum_of_floats (cfg : Config) : option Q :=
  match get_all_initial_states cfg id id with
  | Done initial_states =>
      float_value
        (float_sum ((λ e, float_div (Qnum (this e.2)) (Zpos (Qden (this e.2))))
                      <$> initial_states))
  | _ => None
  end.

(** * Proofs *)

(** * Lists *)

Lemma py_sum_from (l : list Z) (a : Z) : fold_left Z.add l a = a + py_sum l.
Proof.
  unfold py_sum. revert a. induction l as [|x l IH]; intros a; simpl; [lia|].
  rewrite (IH (a + x)), (IH (0 + x)). lia.
Qed.

Lemma py_sum_app (l : list Z) (c : Z) : py_sum (l ++ [c]) = py_sum l + c.
Proof. unfold py_sum. rewrite fold_left_app. reflexivity. Qed.

Global Instance Zle_antisymm : AntiSymm (=) Z.le.
Proof. intros x y ??. lia. Qed.
Global Instance Zle_total : Total Z.le.
Proof. intros x y. lia. Qed.
Global Instance Zle_trans : Transitive Z.le.
Proof. intros x y z ??. lia. Qed.

Lemma py_sorted_perm (l1 l2 : list Z) : py_sorted l1 = py_sorted l2 ↔ l1 ≡ₚ l2.
Proof.
  unfold py_sorted. split; intros E.
  - rewrite <- (merge_sort_Permutation Z.le l1), E. apply merge_sort_Permutation.
  - apply (Sorted_unique Z.le); try apply Sorted_merge_sort; try apply _.
    by rewrite !merge_sort_Permutation.
Qed.

Lemma py_count_perm (c : Z) (l1 l2 : list Z) : l1 ≡ₚ l2 → py_count c l1 = py_count c l2.
Proof. intros E. unfold py_count. by rewrite E. Qed.

Lemma py_len_perm (l1 l2 : list Z) : l1 ≡ₚ l2 → py_len l1 = py_len l2.
Proof. intros E. unfold py_len. by rewrite E. Qed.

Lemma np_unique_perm (l1 l2 : list Z) : l1 ≡ₚ l2 → np_unique l1 = np_unique l2.
Proof. intros E. unfold np_unique. by rewrite (proj2 (py_sorted_perm l1 l2) E). Qed.

Lemma elem_of_np_unique (c : Z) (l : list Z) : c ∈ np_unique l ↔ c ∈ l.
Proof.
  unfold np_unique, py_sorted. rewrite elem_of_remove_dups.
  by rewrite merge_sort_Permutation.
Qed.

Lemma py_remove_Done (c : Z) (l l' : list Z) : py_remove c l = Done l' → l ≡ₚ c :: l'.
Proof.
  revert l'. induction l as [|y l IH]; intros l'; simpl; [done|].
  destruct (decide (y = c)) as [->|Hne].
  - by intros [= ->].
  - destruct (py_remove c l) as [l1| |]; simpl; [|done..].
    intros [= <-]. rewrite (IH l1 eq_refl). apply Permutation_swap.
Qed.

Lemma py_remove_elem_of (c : Z) (l : list Z) : c ∈ l → ∃ l', py_remove c l = Done l'.
Proof.
  induction l as [|y l IH]; [by intros ?%elem_of_nil|].
  intros Hin. simpl. destruct (decide (y = c)) as [->|Hne]; [eauto|].
  destruct IH as [l' ->]; [|simpl; eauto].
  apply elem_of_cons in Hin as [->|]; done.
Qed.

Lemma py_remove_not_elem_of (c : Z) (l : list Z) : c ∉ l → py_remove c l = Raise ValueError.
Proof.
  induction l as [|y l IH]; [done|].
  intros Hin. simpl. apply not_elem_of_cons in Hin as [? ?].
  destruct (decide (y = c)); [congruence|]. by rewrite IH.
Qed.

Lemma py_remove_settled (c : Z) (l : list Z) : settled (py_remove c l).
Proof.
  destruct (decide (c ∈ l)) as [Hin|Hin].
  - by destruct (py_remove_elem_of c l Hin) as [l' ->].
  - by rewrite py_remove_not_elem_of.
Qed.

Lemma py_remove_perm (c : Z) (l1 l2 l1' : list Z) :
  l1 ≡ₚ l2 → py_remove c l1 = Done l1' →
  ∃ l2', py_remove c l2 = Done l2' ∧ l1' ≡ₚ l2'.
Proof.
  intros E H1. pose proof (py_remove_Done _ _ _ H1) as P1.
  destruct (py_remove_elem_of c l2) as [l2' H2].
  { rewrite <- E, P1. left. }
  exists l2'. split; [done|].
  apply (Permutation_cons_inv (a := c)).
  by rewrite <- P1, <- (py_remove_Done _ _ _ H2).
Qed.

Lemma py_remove_length (c : Z) (l l' : list Z) :
  py_remove c l = Done l' → length l = S (length l').
Proof. intros E%py_remove_Done. by rewrite E. Qed.

Lemma py_div_settled s a b : settled (py_div s a b).
Proof. unfold py_div. by destruct (b =? 0). Qed.

(** * States with one key *)

Lemma same_key_inv g1 g2 :
  same_key g1 g2 →
  py_sum (dealer_hand g1) = py_sum (dealer_hand g2) ∧
  py_sum (player_hand g1) = py_sum (player_hand g2) ∧
  deck g1 ≡ₚ deck g2 ∧ turn g1 = turn g2.
Proof.
  unfold same_key, get_game_state_representation. intros [= Hd Hp Hk Ht].
  by apply py_sorted_perm in Hk.
Qed.

Lemma same_key_intro g1 g2 :
  py_sum (dealer_hand g1) = py_sum (dealer_hand g2) →
  py_sum (player_hand g1) = py_sum (player_hand g2) →
  deck g1 ≡ₚ deck g2 → turn g1 = turn g2 → same_key g1 g2.
Proof.
  unfold same_key, get_game_state_representation. intros -> -> Hk ->.
  by rewrite (proj2 (py_sorted_perm _ _) Hk).
Qed.

Lemma same_key_advance_turn g1 g2 :
  same_key g1 g2 → same_key (advance_turn g1) (advance_turn g2).
Proof.
  intros (Hd & Hp & Hk & Ht)%same_key_inv. apply same_key_intro; simpl; congruence.
Qed.

Lemma same_key_draw_prob g1 g2 c : same_key g1 g2 → draw_prob g1 c = draw_prob g2 c.
Proof.
  intros (_ & _ & Hk & _)%same_key_inv. unfold draw_prob.
  by rewrite (py_count_perm c _ _ Hk), (py_len_perm _ _ Hk).
Qed.

Lemma same_key_np_unique g1 g2 :
  same_key g1 g2 → np_unique (deck g1) = np_unique (deck g2).
Proof. intros (_ & _ & Hk & _)%same_key_inv. by apply np_unique_perm. Qed.

Lemma same_key_hit who g1 g2 c :
  same_key g1 g2 →
  match hit who g1 c with
  | Done g1' => ∃ g2', hit who g2 c = Done g2' ∧ same_key g1' g2'
  | Raise e => hit who g2 c = Raise e
  | OutOfFuel => False
  end.
Proof.
  intros (Hd & Hp & Hk & Ht)%same_key_inv. unfold hit.
  destruct (py_remove c (deck g1)) as [d1| |] eqn:E1; simpl.
  - destruct (py_remove_perm c _ _ _ Hk E1) as (d2 & -> & Hk'). simpl.
    eexists; split; [done|]. apply same_key_intro; simpl; [| |done|done].
    + destruct who; rewrite ?py_sum_app; congruence.
    + destruct who; rewrite ?py_sum_app; congruence.
  - destruct (decide (c ∈ deck g1)) as [Hin|Hin].
    + destruct (py_remove_elem_of c _ Hin) as [? ?]; congruence.
    + rewrite py_remove_not_elem_of in E1 by done. injection E1 as <-.
      rewrite py_remove_not_elem_of; [done|]. by rewrite <- Hk.
  - by apply (py_remove_settled c (deck g1)).
Qed.

Lemma hit_settled who g c : settled (hit who g c).
Proof.
  unfold hit. pose proof (py_remove_settled c (deck g)).
  by destruct (py_remove c (deck g)).
Qed.

Lemma hit_Done who g c g' :
  hit who g c = Done g' →
  length (deck g) = S (length (deck g')) ∧ turn g' = turn g.
Proof.
  unfold hit. destruct (py_remove c (deck g)) as [d| |] eqn:E; simpl; [|done..].
  intros [= <-]. simpl. split; [|done]. by apply (py_remove_length c).
Qed.

Lemma draw_prob_settled g c : settled (draw_prob g c).
Proof. apply py_div_settled. Qed.

(** * The generic solver *)

Section EngineFacts.
Context {T : Type} `{Slots T}.
Variable over : BlackJack → bool * option Qc.
Variable terminal : Qc → T.
Variable plan_of : BlackJack → outcome (plan T).

(** ** States with one key are solved alike *)

Lemma hit_loop_key (rec : solver T) who g1 g2 cards acc r :
  respects_key rec → same_key g1 g2 →
  hit_loop rec who g1 cards acc r = hit_loop rec who g2 cards acc r.
Proof.
  intros Hrec Hk. revert acc r.
  induction cards as [|c cards IH]; intros acc r; [done|].
  simpl. unfold copy. rewrite (same_key_draw_prob g1 g2 c Hk).
  destruct (draw_prob g2 c) as [p| |]; simpl; [|done..].
  pose proof (same_key_hit who g1 g2 c Hk) as Hh.
  destruct (hit who g1 c) as [g1'|e|]; [|by rewrite Hh|done].
  destruct Hh as (g2' & -> & Hk'). simpl.
  rewrite (Hrec g1' g2' r Hk').
  destruct (rec g2' r) as [[v r1]| |]; simpl; [|done..]. apply IH.
Qed.

Lemma expand_key (rec : solver T) p g1 g2 r :
  respects_key rec → same_key g1 g2 → expand rec p g1 r = expand rec p g2 r.
Proof.
  intros Hrec Hk. unfold expand, copy.
  rewrite (same_key_np_unique g1 g2 Hk).
  pose proof (Hrec _ _ r (same_key_advance_turn g1 g2 Hk)) as Hs.
  destruct p as [who|fin|who comb].
  - by apply hit_loop_key.
  - by rewrite Hs.
  - rewrite Hs. destruct (rec (advance_turn g2) r) as [[s r1]| |]; simpl; [|done..].
    by rewrite (hit_loop_key rec who g1 g2).
Qed.

Hypothesis over_key : ∀ g1 g2, same_key g1 g2 → over g1 = over g2.
Hypothesis plan_key : ∀ g1 g2, same_key g1 g2 → plan_of g1 = plan_of g2.

Lemma solve_key fuel : respects_key (solve over terminal plan_of fuel).
Proof.
  induction fuel as [|fuel IH]; intros g1 g2 r Hk; [done|].
  simpl. rewrite (over_key g1 g2 Hk), (plan_key g1 g2 Hk).
  unfold same_key in Hk. rewrite Hk. fold (same_key g1 g2) in Hk.
  destruct (r !! _); [done|].
  destruct (over g2) as [[] [res|]]; try done;
    destruct (plan_of g2) as [p| |]; simpl; try done;
    by rewrite (expand_key _ p g1 g2 r IH Hk).
Qed.

Lemma unrecorded_key (f : BlackJack → outcome T) :
  (∀ g1 g2, same_key g1 g2 → f g1 = f g2) → respects_key (unrecorded f).
Proof. intros Hf g1 g2 r Hk. unfold unrecorded. by rewrite (Hf g1 g2 Hk). Qed.

Lemma value_key fuel g1 g2 :
  same_key g1 g2 → value over terminal plan_of fuel g1 = value over terminal plan_of fuel g2.
Proof.
  revert g1 g2. induction fuel as [|fuel IH]; intros g1 g2 Hk; [done|].
  simpl. rewrite (over_key g1 g2 Hk), (plan_key g1 g2 Hk).
  destruct (over g2) as [[] [res|]]; try done;
    destruct (plan_of g2) as [p| |]; simpl; try done;
    by rewrite (expand_key _ p g1 g2 ∅ (unrecorded_key _ IH) Hk).
Qed.
End EngineFacts.

Lemma settled_bind {A B} (m : outcome A) (f : A → outcome B) :
  settled m → (∀ a, m = Done a → settled (f a)) → settled (m ≫= f).
Proof. destruct m; simpl; intros Hm Hf; [by apply Hf|done|done]. Qed.

Lemma settled_bind_inv {A B} (m : outcome A) (f : A → outcome B) :
  settled (m ≫= f) → settled m.
Proof. by destruct m. Qed.

Lemma settled_fmap {A B} (m : outcome A) (f : A → B) : settled (f <$> m) ↔ settled m.
Proof. by destruct m. Qed.

Section EngineRuns.
Context {T : Type} `{Slots T}.
Variable over : BlackJack → bool * option Qc.
Variable terminal : Qc → T.
Variable plan_of : BlackJack → outcome (plan T).

(** ** The calls come back *)

Lemma hit_loop_settled (rec : solver T) who g cards acc r :
  (∀ c g' r', hit who g c = Done g' → settled (rec g' r')) →
  settled (hit_loop rec who g cards acc r).
Proof.
  intros Hrec. revert acc r.
  induction cards as [|c cards IH]; intros acc r; [done|].
  simpl. unfold copy.
  apply settled_bind; [apply draw_prob_settled|intros p _].
  apply settled_bind; [apply hit_settled|intros g' Hg'].
  apply settled_bind; [by eapply Hrec|intros [v r1] _]. apply IH.
Qed.

Lemma expand_settled (rec : solver T) p g r :
  (has_stay p = true → ∀ r', settled (rec (advance_turn g) r')) →
  (∀ who c g' r', hit who g c = Done g' → settled (rec g' r')) →
  settled (expand rec p g r).
Proof.
  intros Hstay Hhit. unfold expand, copy. destruct p as [who|fin|who comb].
  - apply hit_loop_settled, Hhit.
  - apply settled_bind; [by apply Hstay|by intros [s r1] _].
  - apply settled_bind; [by apply Hstay|intros [s r1] _].
    apply settled_bind; [apply hit_loop_settled, Hhit|by intros [h r2] _].
Qed.

Variable tmax : Z.
Hypothesis plan_settled : ∀ g, settled (plan_of g).
Hypothesis stay_turn : ∀ g p,
  turn g ≤ tmax → (over g).1 = false → plan_of g = Done p →
  has_stay p = true → turn g < tmax.

Lemma rank_advance_turn g : turn g < tmax → rank tmax g = S (rank tmax (advance_turn g)).
Proof. unfold rank. simpl. lia. Qed.

Lemma rank_hit who g c g' : hit who g c = Done g' → rank tmax g = S (rank tmax g').
Proof. intros [Hl Ht]%hit_Done. unfold rank. rewrite Hl, Ht. lia. Qed.

Lemma solve_settled fuel g r :
  turn g ≤ tmax → (rank tmax g < fuel)%nat → settled (solve over terminal plan_of fuel g r).
Proof.
  revert g r. induction fuel as [|fuel IH]; intros g r Ht Hr; [lia|].
  simpl. destruct (r !! _); [done|].
  destruct (over g) as [[] [res|]] eqn:Ho; try done;
    (apply settled_bind; [apply plan_settled|intros p Hp];
     apply settled_bind; [|by intros [v r1] _];
     apply expand_settled;
     [ intros Hs r'; pose proof (stay_turn g p Ht (f_equal fst Ho) Hp Hs);
       apply IH; [simpl; lia|rewrite (rank_advance_turn g) in Hr by done; lia]
     | intros who c g' r' Hg'; apply IH;
       [ by rewrite (proj2 (hit_Done _ _ _ _ Hg'))
       | rewrite (rank_hit _ _ _ _ Hg') in Hr; lia ] ]).
Qed.

Lemma value_settled fuel g :
  turn g ≤ tmax → (rank tmax g < fuel)%nat → settled (value over terminal plan_of fuel g).
Proof.
  revert g. induction fuel as [|fuel IH]; intros g Ht Hr; [lia|].
  simpl.
  destruct (over g) as [[] [res|]] eqn:Ho; try done;
    (apply settled_bind; [apply plan_settled|intros p Hp];
     apply settled_fmap, expand_settled;
     [ intros Hs r'; pose proof (stay_turn g p Ht (f_equal fst Ho) Hp Hs);
       apply settled_fmap, IH;
       [simpl; lia|rewrite (rank_advance_turn g) in Hr by done; lia]
     | intros who c g' r' Hg'; apply settled_fmap, IH;
       [ by rewrite (proj2 (hit_Done _ _ _ _ Hg'))
       | rewrite (rank_hit _ _ _ _ Hg') in Hr; lia ] ]).
Qed.
End EngineRuns.

Section EngineMono.
Context {T : Type} `{Slots T}.
Variable over : BlackJack → bool * option Qc.
Variable terminal : Qc → T.
Variable plan_of : BlackJack → outcome (plan T).

(** ** More fuel changes no result *)

Lemma hit_loop_extends (rec1 rec2 : solver T) who g cards acc r :
  extends rec1 rec2 → settled (hit_loop rec1 who g cards acc r) →
  hit_loop rec2 who g cards acc r = hit_loop rec1 who g cards acc r.
Proof.
  intros Hrec. revert acc r.
  induction cards as [|c cards IH]; intros acc r; [done|].
  simpl. unfold copy.
  destruct (draw_prob g c) as [p| |]; simpl; [|done..].
  destruct (hit who g c) as [g'| |]; simpl; [|done..].
  intros Hs. rewrite (Hrec g' r) by (by apply settled_bind_inv in Hs).
  destruct (rec1 g' r) as [[v r1]| |]; simpl in *; [|done..]. by apply IH.
Qed.

Lemma expand_extends (rec1 rec2 : solver T) p g r :
  extends rec1 rec2 → settled (expand rec1 p g r) →
  expand rec2 p g r = expand rec1 p g r.
Proof.
  intros Hrec. unfold expand, copy. destruct p as [who|fin|who comb].
  - by apply hit_loop_extends.
  - intros Hs. by rewrite (Hrec _ r) by (by apply settled_bind_inv in Hs).
  - intros Hs. rewrite (Hrec _ r) by (by apply settled_bind_inv in Hs).
    destruct (rec1 (advance_turn g) r) as [[s r1]| |]; simpl in *; [|done..].
    by rewrite (hit_loop_extends rec1 rec2) by (by apply settled_bind_inv in Hs).
Qed.

Lemma solve_S fuel : extends (solve over terminal plan_of fuel)
                             (solve over terminal plan_of (S fuel)).
Proof.
  induction fuel as [|fuel IH]; intros g r Hs; [done|].
  change (solve over terminal plan_of (S (S fuel)) g r) with
    (match r !! get_game_state_representation g with
     | Some probabilities => Done (probabilities, r)
     | None =>
       match over g with
       | (true, Some result) => Done (terminal result, r)
       | (true, None) => Raise TypeError
       | (false, _) =>
         p ← plan_of g;
         '(totals, record) ← expand (solve over terminal plan_of (S fuel)) p g r;
         Done (totals, <[get_game_state_representation g := totals]> record)
       end
     end).
  simpl in *. destruct (r !! _); [done|].
  destruct (over g) as [[] [res|]]; try done;
    destruct (plan_of g) as [p| |]; simpl in *; try done;
    by rewrite (expand_extends _ _ p g r IH) by (by apply settled_bind_inv in Hs).
Qed.

Lemma unrecorded_extends (f1 f2 : BlackJack → outcome T) :
  (∀ g, settled (f1 g) → f2 g = f1 g) → extends (unrecorded f1) (unrecorded f2).
Proof.
  intros Hf g r Hs. unfold unrecorded in *. by rewrite Hf by (by apply settled_fmap in Hs).
Qed.

Lemma value_S fuel g :
  settled (value over terminal plan_of fuel g) →
  value over terminal plan_of (S fuel) g = value over terminal plan_of fuel g.
Proof.
  revert g. induction fuel as [|fuel IH]; intros g Hs; [done|].
  change (value over terminal plan_of (S (S fuel)) g) with
    (match over g with
     | (true, Some result) => Done (terminal result)
     | (true, None) => Raise TypeError
     | (false, _) =>
       p ← plan_of g;
       fst <$> expand (unrecorded (value over terminal plan_of (S fuel))) p g ∅
     end).
  simpl in *.
  destruct (over g) as [[] [res|]]; try done;
    destruct (plan_of g) as [p| |]; simpl in *; try done;
    by rewrite (expand_extends _ _ p g ∅ (unrecorded_extends _ _ IH))
      by (by apply settled_fmap in Hs).
Qed.

Lemma value_le fuel fuel' g :
  (fuel ≤ fuel')%nat → settled (value over terminal plan_of fuel g) →
  value over terminal plan_of fuel' g = value over terminal plan_of fuel g.
Proof.
  intros Hle Hs. induction Hle as [|m Hle IH]; [done|].
  rewrite <- IH. apply value_S. by rewrite IH.
Qed.

Lemma solve_le fuel fuel' g r :
  (fuel ≤ fuel')%nat → settled (solve over terminal plan_of fuel g r) →
  solve over terminal plan_of fuel' g r = solve over terminal plan_of fuel g r.
Proof.
  intros Hle Hs. induction Hle as [|m Hle IH]; [done|].
  rewrite <- IH. apply solve_S. by rewrite IH.
Qed.

Lemma value_det fuel fuel' g :
  settled (value over terminal plan_of fuel g) →
  settled (value over terminal plan_of fuel' g) →
  value over terminal plan_of fuel g = value over terminal plan_of fuel' g.
Proof.
  intros H1 H2. destruct (Nat.le_ge_cases fuel fuel').
  - symmetry. by apply value_le.
  - by apply value_le.
Qed.
End EngineMono.

Section EngineRecord.
Context {T : Type} `{Slots T}.
Variable over : BlackJack → bool * option Qc.
Variable terminal : Qc → T.
Variable plan_of : BlackJack → outcome (plan T).
Hypothesis over_key : ∀ g1 g2, same_key g1 g2 → over g1 = over g2.
Hypothesis plan_key : ∀ g1 g2, same_key g1 g2 → plan_of g1 = plan_of g2.

(** ** The record changes no result *)

Lemma sound_empty : sound_record over terminal plan_of ∅.
Proof. intros g v. by rewrite lookup_empty. Qed.

Lemma sound_insert fuel g v r :
  sound_record over terminal plan_of r → value over terminal plan_of fuel g = Done v →
  sound_record over terminal plan_of (<[get_game_state_representation g := v]> r).
Proof.
  intros Hr Hv g2 v2.
  destruct (decide (get_game_state_representation g = get_game_state_representation g2))
    as [Hk|Hk].
  - rewrite <- Hk, lookup_insert_eq. intros [= <-]. exists fuel.
    by rewrite <- (value_key over terminal plan_of over_key plan_key fuel g g2 Hk).
  - rewrite lookup_insert_ne by done. apply Hr.
Qed.

Lemma hit_loop_agrees (f : BlackJack → outcome T) (rec : solver T) who g cards acc r r0 :
  (∀ g' r', sound_record over terminal plan_of r' → agrees over terminal plan_of (f g') (rec g' r')) → sound_record over terminal plan_of r →
  agrees over terminal plan_of (fst <$> hit_loop (unrecorded f) who g cards acc r0)
         (hit_loop rec who g cards acc r).
Proof.
  intros Hrec. revert acc r.
  induction cards as [|c cards IH]; intros acc r Hr; [simpl; eauto|].
  simpl. unfold copy.
  destruct (draw_prob g c) as [p| |]; simpl; [|done..].
  destruct (hit who g c) as [g'| |]; simpl; [|done..].
  pose proof (Hrec g' r Hr) as Ha.
  change (unrecorded f g' r0) with ((λ v, (v, r0)) <$> f g').
  destruct (f g') as [v| |]; simpl in *; [| by rewrite Ha | done].
  destruct Ha as (r1 & -> & Hr1). simpl. by apply IH.
Qed.

Lemma expand_agrees (f : BlackJack → outcome T) (rec : solver T) p g r r0 :
  (∀ g' r', sound_record over terminal plan_of r' → agrees over terminal plan_of (f g') (rec g' r')) → sound_record over terminal plan_of r →
  agrees over terminal plan_of (fst <$> expand (unrecorded f) p g r0) (expand rec p g r).
Proof.
  intros Hrec Hr. unfold expand, copy. destruct p as [who|fin|who comb].
  - by apply hit_loop_agrees.
  - pose proof (Hrec (advance_turn g) r Hr) as Ha.
    change (unrecorded f (advance_turn g) r0) with ((λ v, (v, r0)) <$> f (advance_turn g)).
    destruct (f (advance_turn g)) as [s| |]; simpl in *; [| by rewrite Ha | done].
    destruct Ha as (r1 & -> & Hr1). simpl. eauto.
  - pose proof (Hrec (advance_turn g) r Hr) as Ha.
    change (unrecorded f (advance_turn g) r0) with ((λ v, (v, r0)) <$> f (advance_turn g)).
    destruct (f (advance_turn g)) as [s| |]; simpl in *; [| by rewrite Ha | done].
    destruct Ha as (r1 & -> & Hr1). simpl.
    pose proof (hit_loop_agrees f rec who g (np_unique (deck g)) slots_zero r1 r0
                  Hrec Hr1) as Hb.
    destruct (hit_loop (unrecorded f) who g _ _ r0) as [[h r0']| |]; simpl in *;
      [| by rewrite Hb | done].
    destruct Hb as (r2 & -> & Hr2). simpl. eauto.
Qed.

Lemma solve_agrees fuel g r :
  sound_record over terminal plan_of r →
  agrees over terminal plan_of (value over terminal plan_of fuel g) (solve over terminal plan_of fuel g r).
Proof.
  revert g r. induction fuel as [|fuel IH]; intros g r Hr; [done|].
  destruct (r !! get_game_state_representation g) as [v|] eqn:Hl.
  - destruct (Hr g v Hl) as [m Hm].
    assert (settled (value over terminal plan_of m g)) as Hs by (by rewrite Hm).
    simpl solve. rewrite Hl.
    destruct (value over terminal plan_of (S fuel) g) as [v'|e|] eqn:Hv; [| |done].
    + rewrite (value_det over terminal plan_of m (S fuel) g) in Hm;
        [|done|by rewrite Hv]. rewrite Hv in Hm. injection Hm as ->.
      simpl. eauto.
    + rewrite (value_det over terminal plan_of m (S fuel) g) in Hm;
        [|done|by rewrite Hv]. by rewrite Hv in Hm.
  - pose proof (sound_insert (S fuel) g) as Hins.
    simpl in *. rewrite Hl.
    destruct (over g) as [[] [res|]]; simpl; eauto;
      (destruct (plan_of g) as [p| |]; simpl in *; [|done..];
       pose proof (expand_agrees _ _ p g r ∅ IH Hr) as Ha;
       destruct (expand (unrecorded _) p g ∅) as [[v r0]| |]; simpl in *;
       [| by rewrite Ha | done];
       destruct Ha as (r1 & -> & Hr1); simpl; eauto).
Qed.

(** With enough fuel the two calls give the same result. *)
Lemma solve_value fuel g r :
  sound_record over terminal plan_of r → settled (value over terminal plan_of fuel g) →
  fst <$> solve over terminal plan_of fuel g r = value over terminal plan_of fuel g.
Proof.
  intros Hr Hs. pose proof (solve_agrees fuel g r Hr) as Ha.
  destruct (value over terminal plan_of fuel g) as [v|e|]; simpl in *; [| by rewrite Ha | done].
  by destruct Ha as (r1 & -> & _).
Qed.

Lemma solve_sound fuel g r v r' :
  sound_record over terminal plan_of r → solve over terminal plan_of fuel g r = Done (v, r') →
  settled (value over terminal plan_of fuel g) → sound_record over terminal plan_of r'.
Proof.
  intros Hr Hs Hv. pose proof (solve_agrees fuel g r Hr) as Ha.
  destruct (value over terminal plan_of fuel g) as [v1|e|]; simpl in *;
    [| by rewrite Ha in Hs | done].
  destruct Ha as (r1 & E & Hr1). rewrite E in Hs. by injection Hs as _ <-.
Qed.
End EngineRecord.

Lemma hit_loop_ext {T} `{Slots T} (rec1 rec2 : BlackJack → gmap key T → outcome (T * gmap key T))
    who g cards acc r :
  (∀ g' r', rec1 g' r' = rec2 g' r') →
  hit_loop rec1 who g cards acc r = hit_loop rec2 who g cards acc r.
Proof.
  intros Hrec. revert acc r. induction cards as [|c cards IH]; intros acc r; [done|].
  simpl. destruct (draw_prob (copy g) c) as [p| |]; simpl; [|done..].
  destruct (hit who (copy g) c) as [g'| |]; simpl; [|done..].
  rewrite Hrec. destruct (rec2 g' r) as [[v r1]| |]; simpl; [|done..].
  apply IH.
Qed.

Lemma get_features_key cfg g1 g2 :
  same_key g1 g2 → get_features cfg g1 = get_features cfg g2.
Proof.
  intros (Hd & Hp & Hk & _)%same_key_inv. unfold get_features.
  rewrite Hd, Hp, (py_len_perm _ _ Hk).
  destruct (py_div _ (py_sum (dealer_hand g2)) _); simpl; [|done..].
  destruct (py_div _ (py_sum (player_hand g2)) _); simpl; [|done..].
  f_equal.
  induction (np_unique (deck_copy cfg)) as [|c l IH]; [done|].
  simpl. by rewrite (py_count_perm c _ _ Hk), IH.
Qed.

Lemma mapM_settled {A B} (f : A → outcome B) (l : list A) :
  (∀ x, settled (f x)) → settled (mapM f l).
Proof.
  intros Hf. induction l as [|x l IH]; [done|].
  simpl. apply settled_bind; [apply Hf|intros y _].
  apply settled_bind; [apply IH|done].
Qed.

Lemma get_features_settled cfg g : settled (get_features cfg g).
Proof.
  unfold get_features.
  apply settled_bind; [apply py_div_settled|intros d _].
  apply settled_bind; [apply py_div_settled|intros p _].
  apply settled_bind; [|done].
  apply mapM_settled. intros c. apply py_div_settled.
Qed.

Lemma get_argmax_action_index_settled a features :
  settled (get_argmax_action_index a features).
Proof. unfold get_argmax_action_index. by destruct (a features). Qed.

Lemma ask_settled cfg a g : settled (ask cfg a g).
Proof.
  apply settled_bind; [apply get_features_settled|intros f _].
  apply get_argmax_action_index_settled.
Qed.

Lemma ask_key cfg a g1 g2 : same_key g1 g2 → ask cfg a g1 = ask cfg a g2.
Proof. intros Hk. unfold ask. by rewrite (get_features_key cfg g1 g2 Hk). Qed.

(** * The one-player game *)

Lemma op_over_key cfg g1 g2 :
  same_key g1 g2 → OnePlayer.is_game_over cfg g1 = OnePlayer.is_game_over cfg g2.
Proof.
  intros (Hd & Hp & _ & Ht)%same_key_inv. unfold OnePlayer.is_game_over.
  by rewrite Hd, Hp, Ht.
Qed.

Lemma op_over_result cfg g : OnePlayer.is_game_over cfg g ≠ (true, None).
Proof.
  unfold OnePlayer.is_game_over.
  repeat match goal with |- context [if ?b then _ else _] => destruct b end; done.
Qed.

Lemma op_theoretical_solve cfg fuel g r :
  OnePlayer.get_theoretical_win_probability cfg fuel g r =
  solve (OnePlayer.is_game_over cfg) (λ result, (result, result))
        OnePlayer.theoretical_plan fuel g r.
Proof.
  revert g r. induction fuel as [|fuel IH]; intros g r; [done|].
  simpl. destruct (r !! _); [done|].
  destruct (OnePlayer.is_game_over cfg g) as [[] [res|]]; try done;
    (unfold OnePlayer.theoretical_plan; destruct (turn g =? 1); simpl;
     [ by rewrite (hit_loop_ext _ _ _ _ _ _ _ IH)
     | rewrite IH; destruct (solve _ _ _ fuel _ r) as [[s r1]| |]; simpl; [|done..];
       by rewrite (hit_loop_ext _ _ _ _ _ _ _ IH) ]).
Qed.

Lemma op_ai_plan_ask cfg a g :
  OnePlayer.ai_plan cfg a g =
  if turn g =? 1 then Done (HitOnly Dealer)
  else action_index ← ask cfg a g;
       Done (if action_index =? 0 then StayOnly (λ stay, (0 + stay)%Qc)
             else HitOnly Player).
Proof.
  unfold OnePlayer.ai_plan, ask. destruct (turn g =? 1); [done|].
  by destruct (get_features cfg g).
Qed.

Lemma op_ai_solve cfg a fuel g r :
  OnePlayer.get_ai_win_probability cfg a fuel g r =
  solve (OnePlayer.is_game_over cfg) (λ result, result)
        (OnePlayer.ai_plan cfg a) fuel g r.
Proof.
  revert g r. induction fuel as [|fuel IH]; intros g r; [done|].
  simpl. destruct (r !! _); [done|].
  destruct (OnePlayer.is_game_over cfg g) as [[] [res|]]; try done;
    (unfold OnePlayer.ai_plan; destruct (turn g =? 1); simpl;
     [ by rewrite (hit_loop_ext _ _ _ _ _ _ _ IH)
     | destruct (get_features cfg g) as [features| |]; simpl; [|done..];
       destruct (get_argmax_action_index a features) as [action_index| |]; simpl; [|done..];
       destruct (action_index =? 0); simpl;
       [ rewrite IH; by destruct (solve _ _ _ fuel _ r) as [[s r1]| |]
       | by rewrite (hit_loop_ext _ _ _ _ _ _ _ IH) ] ]).
Qed.

Lemma op_theoretical_plan_key g1 g2 :
  same_key g1 g2 → OnePlayer.theoretical_plan g1 = OnePlayer.theoretical_plan g2.
Proof.
  intros (_ & _ & _ & Ht)%same_key_inv. unfold OnePlayer.theoretical_plan. by rewrite Ht.
Qed.

Lemma op_ai_plan_key cfg a g1 g2 :
  same_key g1 g2 → OnePlayer.ai_plan cfg a g1 = OnePlayer.ai_plan cfg a g2.
Proof.
  intros Hk. rewrite !op_ai_plan_ask, (ask_key cfg a g1 g2 Hk).
  apply same_key_inv in Hk as (_ & _ & _ & ->). done.
Qed.

Lemma op_theoretical_plan_settled g : settled (OnePlayer.theoretical_plan g).
Proof. done. Qed.

Lemma op_ai_plan_settled cfg a g : settled (OnePlayer.ai_plan cfg a g).
Proof.
  rewrite op_ai_plan_ask. destruct (turn g =? 1); [done|].
  apply settled_bind; [apply ask_settled|done].
Qed.

Lemma op_theoretical_stay_turn cfg g p :
  turn g ≤ 1 → (OnePlayer.is_game_over cfg g).1 = false →
  OnePlayer.theoretical_plan g = Done p → has_stay p = true → turn g < 1.
Proof.
  intros Ht _. unfold OnePlayer.theoretical_plan.
  destruct (turn g =? 1) eqn:E; intros [= <-]; [done|]. lia.
Qed.

Lemma op_ai_stay_turn cfg a g p :
  turn g ≤ 1 → (OnePlayer.is_game_over cfg g).1 = false →
  OnePlayer.ai_plan cfg a g = Done p → has_stay p = true → turn g < 1.
Proof.
  intros Ht _. rewrite op_ai_plan_ask.
  destruct (turn g =? 1) eqn:E; [by intros [= <-]|]. lia.
Qed.

(** * The two-player game *)

Lemma tp_over_key cfg g1 g2 :
  same_key g1 g2 → TwoPlayer.is_game_over cfg g1 = TwoPlayer.is_game_over cfg g2.
Proof.
  intros (Hd & Hp & _ & Ht)%same_key_inv. unfold TwoPlayer.is_game_over.
  by rewrite Hd, Hp, Ht.
Qed.

Lemma tp_over_result cfg g : TwoPlayer.is_game_over cfg g ≠ (true, None).
Proof.
  unfold TwoPlayer.is_game_over.
  repeat match goal with |- context [if ?b then _ else _] => destruct b end; done.
Qed.

Lemma tp_over_turn cfg g :
  turn g ≤ 2 → (TwoPlayer.is_game_over cfg g).1 = false → turn g < 2.
Proof.
  intros Ht. unfold TwoPlayer.is_game_over.
  destruct (turn g =? 2) eqn:E; [|lia].
  repeat match goal with |- context [if ?b then _ else _] => destruct b end; done.
Qed.

Lemma tp_theoretical_solve cfg fuel g r :
  TwoPlayer.get_theoretical_win_probability cfg fuel g r =
  solve (TwoPlayer.is_game_over cfg) (λ result, (result, result, result, result))
        TwoPlayer.theoretical_plan fuel g r.
Proof.
  revert g r. induction fuel as [|fuel IH]; intros g r; [done|].
  simpl. destruct (r !! _); [done|].
  destruct (TwoPlayer.is_game_over cfg g) as [[] [res|]]; try done;
    (unfold TwoPlayer.theoretical_plan; destruct (turn g =? 1); simpl;
     (rewrite IH; destruct (solve _ _ _ fuel _ r) as [[s r1]| |]; simpl; [|done..];
      by rewrite (hit_loop_ext _ _ _ _ _ _ _ IH))).
Qed.

Lemma tp_ai_plan_ask cfg pa da g :
  TwoPlayer.ai_plan cfg pa da g =
  if turn g =? 1 then tp_agent_combine Dealer <$> ask cfg da g
  else tp_agent_combine Player <$> ask cfg pa g.
Proof.
  unfold TwoPlayer.ai_plan, ask. destruct (turn g =? 1);
    destruct (get_features cfg g) as [features| |]; simpl; try done.
Qed.

Lemma tp_ai_solve cfg pa da fuel g r :
  TwoPlayer.get_ai_win_probability cfg pa da fuel g r =
  solve (TwoPlayer.is_game_over cfg) (λ result, (result, result, result))
        (TwoPlayer.ai_plan cfg pa da) fuel g r.
Proof.
  revert g r. induction fuel as [|fuel IH]; intros g r; [done|].
  simpl. destruct (r !! _); [done|].
  destruct (TwoPlayer.is_game_over cfg g) as [[] [res|]]; try done;
    (unfold TwoPlayer.ai_plan; destruct (turn g =? 1); simpl;
     (destruct (get_features cfg g) as [features| |]; simpl; [|done..];
      match goal with |- context [get_argmax_action_index ?a features] =>
        destruct (get_argmax_action_index a features) as [action_index| |] end;
      simpl; [|done..];
      rewrite IH; destruct (solve _ _ _ fuel _ r) as [[s r1]| |]; simpl; [|done..];
      by rewrite (hit_loop_ext _ _ _ _ _ _ _ IH))).
Qed.

Lemma tp_theoretical_plan_key g1 g2 :
  same_key g1 g2 → TwoPlayer.theoretical_plan g1 = TwoPlayer.theoretical_plan g2.
Proof.
  intros (_ & _ & _ & Ht)%same_key_inv. unfold TwoPlayer.theoretical_plan. by rewrite Ht.
Qed.

Lemma tp_ai_plan_key cfg pa da g1 g2 :
  same_key g1 g2 → TwoPlayer.ai_plan cfg pa da g1 = TwoPlayer.ai_plan cfg pa da g2.
Proof.
  intros Hk. rewrite !tp_ai_plan_ask, (ask_key cfg pa g1 g2 Hk), (ask_key cfg da g1 g2 Hk).
  apply same_key_inv in Hk as (_ & _ & _ & ->). done.
Qed.

Lemma tp_theoretical_plan_settled g : settled (TwoPlayer.theoretical_plan g).
Proof. done. Qed.

Lemma tp_ai_plan_settled cfg pa da g : settled (TwoPlayer.ai_plan cfg pa da g).
Proof.
  rewrite tp_ai_plan_ask. destruct (turn g =? 1); apply settled_fmap, ask_settled.
Qed.

Lemma tp_theoretical_stay_turn cfg g p :
  turn g ≤ 2 → (TwoPlayer.is_game_over cfg g).1 = false →
  TwoPlayer.theoretical_plan g = Done p → has_stay p = true → turn g < 2.
Proof. intros Ht Ho _ _. by eapply tp_over_turn. Qed.

Lemma tp_ai_stay_turn cfg pa da g p :
  turn g ≤ 2 → (TwoPlayer.is_game_over cfg g).1 = false →
  TwoPlayer.ai_plan cfg pa da g = Done p → has_stay p = true → turn g < 2.
Proof. intros Ht Ho _ _. by eapply tp_over_turn. Qed.

(** * What a solver raises *)

Lemma draw_prob_elem_of g c :
  c ∈ deck g →
  py_len (deck g) ≠ 0 ∧
  draw_prob g c = Done (Qc_of_Z (py_count c (deck g)) / Qc_of_Z (py_len (deck g)))%Qc.
Proof.
  intros Hin. assert (py_len (deck g) ≠ 0) as Hl.
  { unfold py_len. destruct (deck g); [by apply elem_of_nil in Hin|simpl; lia]. }
  split; [done|]. unfold draw_prob, py_div.
  by destruct (Z.eqb_spec (py_len (deck g)) 0).
Qed.

Lemma hit_elem_of who g c : c ∈ deck g → ∃ g', hit who g c = Done g'.
Proof.
  intros Hin. unfold hit. destruct (py_remove_elem_of c _ Hin) as [d ->]. simpl. eauto.
Qed.

Section EngineRaise.
Context {T : Type} `{Slots T}.
Variable over : BlackJack → bool * option Qc.
Variable terminal : Qc → T.
Variable plan_of : BlackJack → outcome (plan T).
Variable allowed : exn → Prop.
Hypothesis over_result : ∀ g, over g ≠ (true, None).
Hypothesis plan_raise : ∀ g e, plan_of g = Raise e → allowed e.

Lemma hit_loop_raise (rec : solver T) who g cards acc r e :
  (∀ g' r' e', rec g' r' = Raise e' → allowed e') →
  cards ⊆ deck g →
  hit_loop rec who g cards acc r = Raise e → allowed e.
Proof.
  intros Hrec. revert acc r.
  induction cards as [|c cards IH]; intros acc r Hsub; [done|].
  assert (c ∈ deck g) as Hin by (apply Hsub; left).
  simpl. unfold copy. rewrite (proj2 (draw_prob_elem_of g c Hin)).
  destruct (hit_elem_of who g c Hin) as [g' ->]. simpl.
  destruct (rec g' r) as [[v r1]|e'|] eqn:E; simpl; [| |done].
  - apply IH. intros x Hx. apply Hsub. by right.
  - intros [= <-]. by eapply Hrec.
Qed.

Lemma np_unique_subseteq (l : list Z) : np_unique l ⊆ l.
Proof. intros c. by rewrite elem_of_np_unique. Qed.

Lemma expand_raise (rec : solver T) p g r e :
  (∀ g' r' e', rec g' r' = Raise e' → allowed e') →
  expand rec p g r = Raise e → allowed e.
Proof.
  intros Hrec. unfold expand, copy. destruct p as [who|fin|who comb].
  - apply hit_loop_raise; [done|apply np_unique_subseteq].
  - destruct (rec (advance_turn g) r) as [[s r1]|e'|] eqn:E; simpl; [done| |done].
    intros [= <-]. by eapply Hrec.
  - destruct (rec (advance_turn g) r) as [[s r1]|e'|] eqn:E; simpl; [| |done].
    + destruct (hit_loop rec who g _ _ r1) as [[h r2]|e'|] eqn:E'; simpl; [done| |done].
      intros [= <-]. eapply hit_loop_raise; [done|apply np_unique_subseteq|done].
    + intros [= <-]. by eapply Hrec.
Qed.

Lemma solve_raise fuel g r e :
  solve over terminal plan_of fuel g r = Raise e → allowed e.
Proof.
  revert g r e. induction fuel as [|fuel IH]; intros g r e; [done|].
  simpl. destruct (r !! _); [done|].
  pose proof (over_result g) as Ho.
  destruct (over g) as [[] [res|]]; try done;
    (destruct (plan_of g) as [p|e'|] eqn:Hp; simpl; [| |done];
     [ destruct (expand _ p g r) as [[v r1]|e'|] eqn:E; simpl; [done| |done];
       intros [= <-]; by eapply expand_raise
     | intros [= <-]; by eapply plan_raise ]).
Qed.
End EngineRaise.

Lemma op_theoretical_no_raise cfg fuel g r e :
  OnePlayer.get_theoretical_win_probability cfg fuel g r ≠ Raise e.
Proof.
  rewrite op_theoretical_solve. intros E.
  by apply (solve_raise _ _ _ (λ _, False) (op_over_result cfg)) in E.
Qed.

Lemma tp_theoretical_no_raise cfg fuel g r e :
  TwoPlayer.get_theoretical_win_probability cfg fuel g r ≠ Raise e.
Proof.
  rewrite tp_theoretical_solve. intros E.
  by apply (solve_raise _ _ _ (λ _, False) (tp_over_result cfg)) in E.
Qed.

Lemma mapM_raise {A B} (f : A → outcome B) (l : list A) e (P : exn → Prop) :
  (∀ x e', f x = Raise e' → P e') → mapM f l = Raise e → P e.
Proof.
  intros Hf. induction l as [|x l IH]; [done|].
  simpl. destruct (f x) as [y|e'|] eqn:E; simpl; [| |done].
  - destruct (mapM f l); simpl; [done| |done]. intros [= <-]. by apply IH.
  - intros [= <-]. by eapply Hf.
Qed.

Lemma py_div_raise s a b e : py_div s a b = Raise e → e = ZeroDivisionError s.
Proof. unfold py_div. destruct (b =? 0); [|done]. by intros [= <-]. Qed.

Lemma get_features_raise cfg g e :
  get_features cfg g = Raise e → e = ZeroDivisionError in_get_features.
Proof.
  unfold get_features.
  destruct (py_div _ (py_sum (dealer_hand g)) _) as [d|e1|] eqn:E1; simpl; [| |done].
  2: { intros [= <-]. by eapply py_div_raise. }
  destruct (py_div _ (py_sum (player_hand g)) _) as [p|e2|] eqn:E2; simpl; [| |done].
  2: { intros [= <-]. by eapply py_div_raise. }
  destruct (mapM _ _) as [ps|e3|] eqn:E3; simpl; [done| |done].
  intros [= <-]. revert E3.
  apply (mapM_raise _ _ _ (λ e, e = ZeroDivisionError in_get_features)).
  intros c e'. apply py_div_raise.
Qed.

Lemma ask_raise cfg a g e : ask cfg a g = Raise e → raised_by_ask e.
Proof.
  unfold ask. destruct (get_features cfg g) as [features|e1|] eqn:E1; simpl; [| |done].
  - unfold get_argmax_action_index. destruct (a features); [done|].
    intros [= <-]. right. eauto.
  - intros [= <-]. left. by eapply get_features_raise.
Qed.

Lemma op_ai_raise cfg a fuel g r e :
  OnePlayer.get_ai_win_probability cfg a fuel g r = Raise e → raised_by_ask e.
Proof.
  rewrite op_ai_solve. apply solve_raise; [apply op_over_result|].
  intros g' e'. rewrite op_ai_plan_ask. destruct (turn g' =? 1); [done|].
  destruct (ask cfg a g') as [i|e1|] eqn:E; simpl; [done| |done].
  intros [= <-]. by eapply ask_raise.
Qed.

Lemma tp_ai_raise cfg pa da fuel g r e :
  TwoPlayer.get_ai_win_probability cfg pa da fuel g r = Raise e → raised_by_ask e.
Proof.
  rewrite tp_ai_solve. apply solve_raise; [apply tp_over_result|].
  intros g' e'. rewrite tp_ai_plan_ask.
  destruct (turn g' =? 1);
    match goal with |- context [ask cfg ?x g'] =>
      destruct (ask cfg x g') as [i|e1|] eqn:E end; simpl; try done;
    intros [= <-]; by eapply ask_raise.
Qed.

(** * Order on the probabilities *)

Ltac qc_order :=
  unfold Qcle, Qclt in *; simpl in *; rewrite ?Qred_correct in *;
  try unfold half in *; simpl in *; rewrite ?Qred_correct in *; lra.

Lemma Qc_of_Z_nonneg (n : Z) : 0 ≤ n → (0 ≤ Qc_of_Z n)%Qc.
Proof. intros Hn. unfold Qcle. simpl. unfold Qle. simpl. lia. Qed.

Lemma Qcdiv_nonneg (a b : Qc) : (0 ≤ a → 0 ≤ b → 0 ≤ a / b)%Qc.
Proof.
  intros Ha Hb. unfold Qcdiv, Qcle in *. simpl in *. rewrite !Qred_correct.
  apply Qmult_le_0_compat; [done|]. by apply Qinv_le_0_compat.
Qed.

Lemma draw_prob_nonneg g c p : draw_prob g c = Done p → (0 ≤ p)%Qc.
Proof.
  unfold draw_prob, py_div. destruct (_ =? 0); [done|]. intros [= <-].
  apply Qcdiv_nonneg; apply Qc_of_Z_nonneg; unfold py_count, py_len; lia.
Qed.

Lemma py_max_ge_avg (a b : Qc) : (half * a + half * b ≤ py_max a b)%Qc.
Proof.
  unfold py_max. destruct (decide (a < b)%Qc) as [Hlt|Hge].
  - qc_order.
  - apply Qcnot_lt_le in Hge. qc_order.
Qed.

Lemma py_min_mono (a b a' b' : Qc) : (a ≤ a' → b ≤ b' → py_min a b ≤ py_min a' b')%Qc.
Proof.
  intros Ha Hb. unfold py_min.
  destruct (decide (b < a)%Qc) as [H1|H1], (decide (b' < a')%Qc) as [H2|H2];
    try apply Qcnot_lt_le in H1; try apply Qcnot_lt_le in H2; qc_order.
Qed.

Lemma avg_mono (a b a' b' : Qc) :
  (a ≤ a' → b ≤ b' → half * a + half * b ≤ half * a' + half * b')%Qc.
Proof. intros Ha Hb. qc_order. Qed.

Lemma add_scaled_mono (x y p v w : Qc) :
  (0 ≤ p → x ≤ y → v ≤ w → x + p * v ≤ y + p * w)%Qc.
Proof.
  intros Hp Hxy Hvw. apply Qcplus_le_compat; [done|].
  rewrite !(Qcmult_comm p). by apply Qcmult_le_compat_r.
Qed.

Section EngineInvariant.
Context {T : Type} `{Slots T}.
Variable over : BlackJack → bool * option Qc.
Variable terminal : Qc → T.
Variable plan_of : BlackJack → outcome (plan T).
Variable P : T → Prop.
Hypothesis P_zero : P slots_zero.
Hypothesis P_add : ∀ acc p v, (0 ≤ p)%Qc → P acc → P v → P (slots_add_scaled acc p v).
Hypothesis P_terminal : ∀ result, P (terminal result).
Hypothesis P_plan : ∀ g p, plan_of g = Done p → plan_keeps P p.

Lemma hit_loop_keeps (rec : solver T) who g cards acc r v r' :
  keeps P rec → P acc → map_Forall (λ _ : key, P) r →
  hit_loop rec who g cards acc r = Done (v, r') → P v ∧ map_Forall (λ _ : key, P) r'.
Proof.
  intros Hrec. revert acc r.
  induction cards as [|c cards IH]; intros acc r Hacc Hr; [by intros [= <- <-]|].
  simpl. unfold copy.
  destruct (draw_prob g c) as [p| |] eqn:Ep; simpl; [|done..].
  destruct (hit who g c) as [g'| |]; simpl; [|done..].
  destruct (rec g' r) as [[w r1]| |] eqn:E; simpl; [|done..].
  destruct (Hrec _ _ _ _ Hr E) as [Hw Hr1].
  apply IH; [|done]. apply P_add; [by eapply draw_prob_nonneg|done..].
Qed.

Lemma expand_keeps (rec : solver T) p g r v r' :
  keeps P rec → plan_keeps P p → map_Forall (λ _ : key, P) r →
  expand rec p g r = Done (v, r') → P v ∧ map_Forall (λ _ : key, P) r'.
Proof.
  intros Hrec Hp Hr. unfold expand, copy. destruct p as [who|fin|who comb]; simpl in Hp.
  - by apply hit_loop_keeps.
  - destruct (rec (advance_turn g) r) as [[s r1]| |] eqn:E; simpl; [|done..].
    destruct (Hrec _ _ _ _ Hr E) as [Hs Hr1]. intros [= <- <-]. auto.
  - destruct (rec (advance_turn g) r) as [[s r1]| |] eqn:E; simpl; [|done..].
    destruct (Hrec _ _ _ _ Hr E) as [Hs Hr1].
    destruct (hit_loop rec who g _ _ r1) as [[h r2]| |] eqn:E'; simpl; [|done..].
    destruct (hit_loop_keeps _ _ _ _ _ _ _ _ Hrec P_zero Hr1 E') as [Hh Hr2].
    intros [= <- <-]. auto.
Qed.

Lemma solve_keeps fuel : keeps P (solve over terminal plan_of fuel).
Proof.
  induction fuel as [|fuel IH]; intros g r v r' Hr; [done|].
  simpl. destruct (r !! _) as [w|] eqn:El.
  { intros [= <- <-]. split; [|done]. by apply (Hr _ _ El). }
  destruct (over g) as [[] [res|]]; try done;
    try (intros [= <- <-]; by auto);
    (destruct (plan_of g) as [p| |] eqn:Ep; simpl; [|done..];
     destruct (expand _ p g r) as [[w r1]| |] eqn:E; simpl; [|done..];
     destruct (expand_keeps _ _ _ _ _ _ IH (P_plan g p Ep) Hr E) as [Hw Hr1];
     intros [= <- <-]; split; [done|]; by apply map_Forall_insert_2).
Qed.
End EngineInvariant.

Lemma op_theoretical_ordered cfg fuel g r v r' :
  map_Forall (λ _, op_ordered) r →
  OnePlayer.get_theoretical_win_probability cfg fuel g r = Done (v, r') →
  op_ordered v ∧ map_Forall (λ _, op_ordered) r'.
Proof.
  rewrite op_theoretical_solve. apply solve_keeps.
  - unfold op_ordered. simpl. done.
  - unfold op_ordered. simpl. intros acc p w Hp Ha Hw. by apply add_scaled_mono.
  - unfold op_ordered. simpl. done.
  - intros g' p. unfold OnePlayer.theoretical_plan. intros [= <-].
    destruct (turn g' =? 1); simpl; [done|].
    unfold op_ordered. simpl. intros s h Hs Hh. rewrite !Qcplus_0_l.
    etrans; [|apply py_max_ge_avg]. by apply avg_mono.
Qed.

Lemma tp_theoretical_ordered cfg fuel g r v r' :
  map_Forall (λ _, tp_ordered) r →
  TwoPlayer.get_theoretical_win_probability cfg fuel g r = Done (v, r') →
  tp_ordered v ∧ map_Forall (λ _, tp_ordered) r'.
Proof.
  rewrite tp_theoretical_solve. apply solve_keeps.
  - unfold tp_ordered. simpl. done.
  - unfold tp_ordered. simpl. intros acc p w Hp [Ha1 Ha2] [Hw1 Hw2].
    split; by apply add_scaled_mono.
  - unfold tp_ordered. simpl. done.
  - intros g' p. unfold TwoPlayer.theoretical_plan. intros [= <-].
    destruct (turn g' =? 1); simpl; unfold tp_ordered; simpl;
      intros s h [Hs1 Hs2] [Hh1 Hh2]; rewrite !Qcplus_0_l.
    + split; [by apply py_min_mono|by apply avg_mono].
    + split; (etrans; [|apply py_max_ge_avg]); by apply avg_mono.
Qed.

Lemma py_remove_remove_one c l : c ∈ l → py_remove c l = Done (remove_one c l).
Proof.
  induction l as [|y l IH]; [by intros ?%elem_of_nil|].
  intros Hin. simpl. destruct (decide (y = c)); [done|].
  rewrite IH; [done|]. apply elem_of_cons in Hin as [->|]; done.
Qed.

Lemma hit_drawn who g c : c ∈ deck g → hit who g c = Done (drawn who g c).
Proof. intros Hin. unfold hit. by rewrite (py_remove_remove_one c _ Hin). Qed.

Lemma draw_prob_weight g c : c ∈ deck g → draw_prob g c = Done (draw_weight g c).
Proof. intros Hin. apply draw_prob_elem_of, Hin. Qed.

Section EngineUnfold.
Context {T : Type} `{Slots T}.
Variable over : BlackJack → bool * option Qc.
Variable terminal : Qc → T.
Variable plan_of : BlackJack → outcome (plan T).

Lemma unrecorded_Done (f : BlackJack → outcome T) g r v :
  f g = Done v → unrecorded f g r = Done (v, r).
Proof. intros E. unfold unrecorded. by rewrite E. Qed.

Lemma hit_loop_unrecorded (f : BlackJack → outcome T) who g cards acc r (V : Z → T) :
  (∀ c, c ∈ cards → c ∈ deck g ∧ f (drawn who g c) = Done (V c)) →
  hit_loop (unrecorded f) who g cards acc r = Done (added_up g V cards acc, r).
Proof.
  revert acc. induction cards as [|c cards IH]; intros acc HV; [done|].
  destruct (HV c) as [Hin Hc]; [left|].
  simpl. unfold copy. rewrite (draw_prob_weight g c Hin), (hit_drawn who g c Hin).
  simpl. rewrite (unrecorded_Done f _ r _ Hc). simpl.
  apply IH. intros c' Hc'. apply HV. by right.
Qed.

Lemma value_stay_and_hit fuel g who combine stay (V : Z → T) :
  (over g).1 = false → plan_of g = Done (StayAndHit who combine) →
  value over terminal plan_of fuel (advance_turn g) = Done stay →
  (∀ c, c ∈ deck g → value over terminal plan_of fuel (drawn who g c) = Done (V c)) →
  value over terminal plan_of (S fuel) g =
  Done (combine stay (added_up g V (np_unique (deck g)) slots_zero)).
Proof.
  intros Ho Hp Hs HV.
  assert (expand (unrecorded (value over terminal plan_of fuel))
            (StayAndHit who combine) g ∅ =
          Done (combine stay (added_up g V (np_unique (deck g)) slots_zero), ∅)) as E.
  { unfold expand, copy. rewrite (unrecorded_Done _ _ ∅ _ Hs). simpl.
    rewrite (hit_loop_unrecorded _ who g _ _ _ V); [done|].
    intros c Hc. apply (proj1 (elem_of_np_unique _ _)) in Hc. auto. }
  cbn [value]. destruct (over g) as [[] res]; [done|].
  destruct res; rewrite Hp; unfold mbind, outcome_bind; by rewrite E.
Qed.
End EngineUnfold.

(** The loop adds the expected value to every slot. *)
Lemma added_up2 g (V : Z → Qc * Qc) cards acc :
  added_up g V cards acc =
  (acc.1 + foldr (λ c s, draw_weight g c * (V c).1 + s) 0 cards,
   acc.2 + foldr (λ c s, draw_weight g c * (V c).2 + s) 0 cards)%Qc.
Proof.
  unfold added_up. revert acc. induction cards as [|c cards IH]; intros [a1 a2]; simpl.
  - by rewrite !Qcplus_0_r.
  - rewrite IH. simpl. by rewrite !Qcplus_assoc.
Qed.

Lemma added_up4 g (V : Z → Qc * Qc * Qc * Qc) cards acc :
  added_up g V cards acc =
  (acc.1.1.1 + foldr (λ c s, draw_weight g c * (V c).1.1.1 + s) 0 cards,
   acc.1.1.2 + foldr (λ c s, draw_weight g c * (V c).1.1.2 + s) 0 cards,
   acc.1.2 + foldr (λ c s, draw_weight g c * (V c).1.2 + s) 0 cards,
   acc.2 + foldr (λ c s, draw_weight g c * (V c).2 + s) 0 cards)%Qc.
Proof.
  unfold added_up. revert acc.
  induction cards as [|c cards IH]; intros [[[a1 a2] a3] a4]; simpl.
  - by rewrite !Qcplus_0_r.
  - rewrite IH. simpl. by rewrite !Qcplus_assoc.
Qed.

(** * The calls with a fresh record *)

Lemma op_theoretical_value cfg fuel g :
  turn g ≤ 1 → (OnePlayer.fuel_for g ≤ fuel)%nat →
  value (OnePlayer.is_game_over cfg) (λ result, (result, result))
        OnePlayer.theoretical_plan fuel g =
  OnePlayer.theoretical_win_probability cfg g.
Proof.
  intros Ht Hf.
  assert (settled (value (OnePlayer.is_game_over cfg) (λ result, (result, result))
                     OnePlayer.theoretical_plan (OnePlayer.fuel_for g) g)) as Hs.
  { apply (value_settled _ _ _ 1); [apply op_theoretical_plan_settled
      |apply op_theoretical_stay_turn|done|unfold rank, OnePlayer.fuel_for; lia]. }
  unfold OnePlayer.theoretical_win_probability. rewrite op_theoretical_solve.
  rewrite solve_value;
    [|apply op_over_key|apply op_theoretical_plan_key|apply sound_empty|done].
  by apply value_le.
Qed.

Lemma op_theoretical_Done cfg g :
  turn g ≤ 1 → ∃ v, OnePlayer.theoretical_win_probability cfg g = Done v.
Proof.
  intros Ht. unfold OnePlayer.theoretical_win_probability.
  pose proof (solve_settled (OnePlayer.is_game_over cfg) (λ result, (result, result))
                OnePlayer.theoretical_plan 1 op_theoretical_plan_settled
                (op_theoretical_stay_turn cfg) (OnePlayer.fuel_for g) g ∅ Ht) as Hs.
  rewrite <- op_theoretical_solve in Hs.
  destruct (OnePlayer.get_theoretical_win_probability cfg _ g ∅) as [[v r]|e|] eqn:E.
  - by exists v.
  - by apply op_theoretical_no_raise in E.
  - exfalso. apply Hs; [unfold rank, OnePlayer.fuel_for; lia|done].
Qed.

Lemma tp_theoretical_value cfg fuel g :
  turn g ≤ 2 → (TwoPlayer.fuel_for g ≤ fuel)%nat →
  value (TwoPlayer.is_game_over cfg) (λ result, (result, result, result, result))
        TwoPlayer.theoretical_plan fuel g =
  TwoPlayer.theoretical_win_probability cfg g.
Proof.
  intros Ht Hf.
  assert (settled (value (TwoPlayer.is_game_over cfg)
                     (λ result, (result, result, result, result))
                     TwoPlayer.theoretical_plan (TwoPlayer.fuel_for g) g)) as Hs.
  { apply (value_settled _ _ _ 2); [apply tp_theoretical_plan_settled
      |apply tp_theoretical_stay_turn|done|unfold rank, TwoPlayer.fuel_for; lia]. }
  unfold TwoPlayer.theoretical_win_probability. rewrite tp_theoretical_solve.
  rewrite solve_value;
    [|apply tp_over_key|apply tp_theoretical_plan_key|apply sound_empty|done].
  by apply value_le.
Qed.

Lemma tp_theoretical_Done cfg g :
  turn g ≤ 2 → ∃ v, TwoPlayer.theoretical_win_probability cfg g = Done v.
Proof.
  intros Ht. unfold TwoPlayer.theoretical_win_probability.
  pose proof (solve_settled (TwoPlayer.is_game_over cfg)
                (λ result, (result, result, result, result))
                TwoPlayer.theoretical_plan 2 tp_theoretical_plan_settled
                (tp_theoretical_stay_turn cfg) (TwoPlayer.fuel_for g) g ∅ Ht) as Hs.
  rewrite <- tp_theoretical_solve in Hs.
  destruct (TwoPlayer.get_theoretical_win_probability cfg _ g ∅) as [[v r]|e|] eqn:E.
  - by exists v.
  - by apply tp_theoretical_no_raise in E.
  - exfalso. apply Hs; [unfold rank, TwoPlayer.fuel_for; lia|done].
Qed.

Lemma length_remove_one c l : c ∈ l → length l = S (length (remove_one c l)).
Proof.
  intros Hin. apply (py_remove_length c). by apply py_remove_remove_one.
Qed.

Lemma the_value_Done {T} (d : T) (o : outcome T) :
  (∃ v, o = Done v) → o = Done (the_value d o).
Proof. by intros [v ->]. Qed.

Lemma op_fuel_advance_turn g :
  turn g < 1 → OnePlayer.fuel_for g = S (OnePlayer.fuel_for (advance_turn g)).
Proof. unfold OnePlayer.fuel_for. simpl. lia. Qed.

Lemma op_fuel_drawn who g c :
  c ∈ deck g → OnePlayer.fuel_for g = S (OnePlayer.fuel_for (drawn who g c)).
Proof.
  intros Hin. unfold OnePlayer.fuel_for. simpl. rewrite (length_remove_one c _ Hin). lia.
Qed.

Lemma tp_fuel_advance_turn g :
  turn g < 2 → TwoPlayer.fuel_for g = S (TwoPlayer.fuel_for (advance_turn g)).
Proof. unfold TwoPlayer.fuel_for. simpl. lia. Qed.

Lemma tp_fuel_drawn who g c :
  c ∈ deck g → TwoPlayer.fuel_for g = S (TwoPlayer.fuel_for (drawn who g c)).
Proof.
  intros Hin. unfold TwoPlayer.fuel_for. simpl. rewrite (length_remove_one c _ Hin). lia.
Qed.

(** C1. At a state of the player's turn where the game is not over, in both
    games, the analytical solver returns [max] of the stay value and the hit
    value in every slot of the optimal player, and half the stay value plus
    half the hit value in every slot of the random player.  The stay value is
    what the solver returns for the state with the turn advanced; the hit
    value is the sum, over the distinct cards [c] of the deck, of the count of
    [c] over the size of the deck times what the solver returns for the state
    with [c] appended to the player's hand and one [c] removed from the
    deck. *)
Theorem player_turn_takes_max_or_average (cfg : Config) (g : BlackJack) :
  turn g = 0 →
  ((OnePlayer.is_game_over cfg g).1 = false →
   ∃ (stay : Qc * Qc) (hit : Z → Qc * Qc),
     OnePlayer.theoretical_win_probability cfg (advance_turn g) = Done stay ∧
     (∀ c, c ∈ deck g →
        OnePlayer.theoretical_win_probability cfg (drawn Player g c) = Done (hit c)) ∧
     OnePlayer.theoretical_win_probability cfg g =
       Done (py_max stay.1 (expected g (λ c, (hit c).1)),
             half * stay.2 + half * expected g (λ c, (hit c).2))%Qc) ∧
  ((TwoPlayer.is_game_over cfg g).1 = false →
   ∃ (stay : Qc * Qc * Qc * Qc) (hit : Z → Qc * Qc * Qc * Qc),
     TwoPlayer.theoretical_win_probability cfg (advance_turn g) = Done stay ∧
     (∀ c, c ∈ deck g →
        TwoPlayer.theoretical_win_probability cfg (drawn Player g c) = Done (hit c)) ∧
     TwoPlayer.theoretical_win_probability cfg g =
       Done (py_max stay.1.1.1 (expected g (λ c, (hit c).1.1.1)),
             py_max stay.1.1.2 (expected g (λ c, (hit c).1.1.2)),
             half * stay.1.2 + half * expected g (λ c, (hit c).1.2),
             half * stay.2 + half * expected g (λ c, (hit c).2))%Qc).
Proof.
  intros Ht. split; intros Ho.
  - destruct (op_theoretical_Done cfg (advance_turn g)) as [stay Hs]; [simpl; lia|].
    set (hit := λ c, the_value (0, 0)%Qc
                  (OnePlayer.theoretical_win_probability cfg (drawn Player g c))).
    assert (∀ c, c ∈ deck g →
              OnePlayer.theoretical_win_probability cfg (drawn Player g c) = Done (hit c))
      as Hh.
    { intros c Hc. apply the_value_Done, op_theoretical_Done. simpl. lia. }
    exists stay, hit. split; [done|]. split; [done|].
    rewrite <- (op_theoretical_value cfg (OnePlayer.fuel_for g) g) by lia.
    rewrite (op_fuel_advance_turn g) by lia.
    etrans; [eapply (value_stay_and_hit _ _ _ _ g Player _ stay hit Ho)|].
    + unfold OnePlayer.theoretical_plan.
      destruct (Z.eqb_spec (turn g) 1) as [E|E]; [lia|done].
    + rewrite op_theoretical_value; [done|simpl; lia|done].
    + intros c Hc. rewrite op_theoretical_value; [by apply Hh|simpl; lia|].
      pose proof (op_fuel_advance_turn g) as E1. pose proof (op_fuel_drawn Player g c Hc) as E2.
      lia.
    + rewrite added_up2. simpl. by rewrite !Qcplus_0_l.
  - destruct (tp_theoretical_Done cfg (advance_turn g)) as [stay Hs]; [simpl; lia|].
    set (hit := λ c, the_value (0, 0, 0, 0)%Qc
                  (TwoPlayer.theoretical_win_probability cfg (drawn Player g c))).
    assert (∀ c, c ∈ deck g →
              TwoPlayer.theoretical_win_probability cfg (drawn Player g c) = Done (hit c))
      as Hh.
    { intros c Hc. apply the_value_Done, tp_theoretical_Done. simpl. lia. }
    exists stay, hit. split; [done|]. split; [done|].
    rewrite <- (tp_theoretical_value cfg (TwoPlayer.fuel_for g) g) by lia.
    rewrite (tp_fuel_advance_turn g) by lia.
    etrans; [eapply (value_stay_and_hit _ _ _ _ g Player _ stay hit Ho)|].
    + unfold TwoPlayer.theoretical_plan.
      destruct (Z.eqb_spec (turn g) 1) as [E|E]; [lia|done].
    + rewrite tp_theoretical_value; [done|simpl; lia|done].
    + intros c Hc. rewrite tp_theoretical_value; [by apply Hh|simpl; lia|].
      pose proof (tp_fuel_advance_turn g) as E1. pose proof (tp_fuel_drawn Player g c Hc) as E2.
      lia.
    + rewrite added_up4. simpl. by rewrite !Qcplus_0_l.
Qed.

(** C2. At a state of the dealer's turn of the two-player game where the
    game is not over, the analytical solver returns [min] of the stay value
    and the hit value in the two slots of the optimal dealer, and half the
    stay value plus half the hit value in the two slots of the random dealer;
    the stay value comes from the state with the turn advanced and the hit
    value is the sum weighted by the draws of the dealer. *)
Theorem dealer_turn_takes_min_or_average (cfg : Config) (g : BlackJack) :
  turn g = 1 → (TwoPlayer.is_game_over cfg g).1 = false →
  ∃ (stay : Qc * Qc * Qc * Qc) (hit : Z → Qc * Qc * Qc * Qc),
    TwoPlayer.theoretical_win_probability cfg (advance_turn g) = Done stay ∧
    (∀ c, c ∈ deck g →
       TwoPlayer.theoretical_win_probability cfg (drawn Dealer g c) = Done (hit c)) ∧
    TwoPlayer.theoretical_win_probability cfg g =
      Done (py_min stay.1.1.1 (expected g (λ c, (hit c).1.1.1)),
            half * stay.1.1.2 + half * expected g (λ c, (hit c).1.1.2),
            py_min stay.1.2 (expected g (λ c, (hit c).1.2)),
            half * stay.2 + half * expected g (λ c, (hit c).2))%Qc.
Proof.
  intros Ht Ho.
  destruct (tp_theoretical_Done cfg (advance_turn g)) as [stay Hs]; [simpl; lia|].
  set (hit := λ c, the_value (0, 0, 0, 0)%Qc
                (TwoPlayer.theoretical_win_probability cfg (drawn Dealer g c))).
  assert (∀ c, c ∈ deck g →
            TwoPlayer.theoretical_win_probability cfg (drawn Dealer g c) = Done (hit c))
    as Hh.
  { intros c Hc. apply the_value_Done, tp_theoretical_Done. simpl. lia. }
  exists stay, hit. split; [done|]. split; [done|].
  rewrite <- (tp_theoretical_value cfg (TwoPlayer.fuel_for g) g) by lia.
  rewrite (tp_fuel_advance_turn g) by lia.
  etrans; [eapply (value_stay_and_hit _ _ _ _ g Dealer _ stay hit Ho)|].
  - unfold TwoPlayer.theoretical_plan.
    destruct (Z.eqb_spec (turn g) 1) as [E|E]; [done|lia].
  - rewrite tp_theoretical_value; [done|simpl; lia|done].
  - intros c Hc. rewrite tp_theoretical_value; [by apply Hh|simpl; lia|].
    pose proof (tp_fuel_advance_turn g) as E1. pose proof (tp_fuel_drawn Dealer g c Hc) as E2.
    lia.
  - rewrite added_up4. simpl. by rewrite !Qcplus_0_l.
Qed.

Section EngineUnfold2.
Context {T : Type} `{Slots T}.
Variable over : BlackJack → bool * option Qc.
Variable terminal : Qc → T.
Variable plan_of : BlackJack → outcome (plan T).

Lemma value_hit_only fuel g who (V : Z → T) :
  (over g).1 = false → plan_of g = Done (HitOnly who) →
  (∀ c, c ∈ deck g → value over terminal plan_of fuel (drawn who g c) = Done (V c)) →
  value over terminal plan_of (S fuel) g =
  Done (added_up g V (np_unique (deck g)) slots_zero).
Proof.
  intros Ho Hp HV.
  assert (expand (unrecorded (value over terminal plan_of fuel)) (HitOnly who) g ∅ =
          Done (added_up g V (np_unique (deck g)) slots_zero, ∅)) as E.
  { unfold expand. rewrite (hit_loop_unrecorded _ who g _ _ _ V); [done|].
    intros c Hc. apply (proj1 (elem_of_np_unique _ _)) in Hc. auto. }
  cbn [value]. destruct (over g) as [[] res]; [done|].
  destruct res; rewrite Hp; unfold mbind, outcome_bind; by rewrite E.
Qed.

Lemma value_stay_only fuel g finish stay :
  (over g).1 = false → plan_of g = Done (StayOnly finish) →
  value over terminal plan_of fuel (advance_turn g) = Done stay →
  value over terminal plan_of (S fuel) g = Done (finish stay).
Proof.
  intros Ho Hp Hs.
  assert (expand (unrecorded (value over terminal plan_of fuel)) (StayOnly finish) g ∅ =
          Done (finish stay, ∅)) as E.
  { unfold expand, copy. by rewrite (unrecorded_Done _ _ ∅ _ Hs). }
  cbn [value]. destruct (over g) as [[] res]; [done|].
  destruct res; rewrite Hp; unfold mbind, outcome_bind; by rewrite E.
Qed.

Lemma value_terminal fuel g result :
  over g = (true, Some result) →
  value over terminal plan_of (S fuel) g = Done (terminal result).
Proof. intros Ho. cbn [value]. by rewrite Ho. Qed.
End EngineUnfold2.

Lemma added_up1 g (V : Z → Qc) cards acc :
  added_up g V cards acc = (acc + foldr (λ c s, draw_weight g c * V c + s) 0 cards)%Qc.
Proof.
  unfold added_up. revert acc. induction cards as [|c cards IH]; intros acc; simpl.
  - by rewrite Qcplus_0_r.
  - rewrite IH. by rewrite !Qcplus_assoc.
Qed.

Lemma foldr_ext_elem_of {A B} (f f' : A → B → B) (b : B) (l : list A) :
  (∀ x y, x ∈ l → f x y = f' x y) → foldr f b l = foldr f' b l.
Proof.
  induction l as [|x l IH]; intros Hf; [done|].
  simpl. rewrite IH; [apply Hf; left|]. intros x' y Hx'. apply Hf. by right.
Qed.

Lemma expected_ext g (f f' : Z → Qc) :
  (∀ c, c ∈ deck g → f c = f' c) → expected g f = expected g f'.
Proof.
  intros Hf. unfold expected. apply foldr_ext_elem_of.
  intros c s Hc. apply (proj1 (elem_of_np_unique _ _)) in Hc. by rewrite (Hf c Hc).
Qed.

(** * The agent that plays the max rule (one-player game) *)

Lemma op_values_agree cfg a fuel g :
  0 ≤ turn g ≤ 1 → (rank 1 g < fuel)%nat →
  (∀ g', rtc (op_step cfg) g g' → turn g' = 0 →
         (OnePlayer.is_game_over cfg g').1 = false → selects_as_max cfg a g') →
  ∃ v, op_value_th cfg fuel g = Done v ∧ op_value_ai cfg a fuel g = Done v.1.
Proof.
  revert g. induction fuel as [|fuel IH]; intros g Ht Hr Ha; [lia|].
  destruct (OnePlayer.is_game_over cfg g) as [over result] eqn:Ho.
  destruct over.
  { destruct result as [result|]; [|by apply op_over_result in Ho].
    exists (result, result). by rewrite !(value_terminal _ _ _ _ _ result Ho). }
  apply (f_equal fst) in Ho. simpl in Ho.
  set (V := λ who c, the_value (0, 0)%Qc (op_value_th cfg fuel (drawn who g c))).
  assert (∀ who c, c ∈ deck g → who = (if turn g =? 1 then Dealer else Player) →
            op_value_th cfg fuel (drawn who g c) = Done (V who c) ∧
            op_value_ai cfg a fuel (drawn who g c) = Done (V who c).1) as HV.
  { intros who c Hc ->. destruct (IH (drawn (if turn g =? 1 then Dealer else Player) g c))
      as (v & E1 & E2).
    - done.
    - unfold rank in *. simpl. rewrite (length_remove_one c _ Hc) in Hr. lia.
    - intros g' Hg'. apply Ha. eapply rtc_l; [by apply op_step_hit|done].
    - unfold V. by rewrite E1. }
  destruct (Z.eqb_spec (turn g) 1) as [Ht1|Ht1].
  - (* dealer turn *)
    exists (added_up g (V Dealer) (np_unique (deck g)) slots_zero). split.
    + apply value_hit_only with (who := Dealer); [done| |].
      * unfold OnePlayer.theoretical_plan. by rewrite (proj2 (Z.eqb_eq _ _) Ht1).
      * intros c Hc. by apply HV.
    + rewrite (value_hit_only _ _ _ fuel g Dealer (λ c, (V Dealer c).1)).
      * by rewrite added_up1, added_up2.
      * done.
      * rewrite op_ai_plan_ask. by rewrite (proj2 (Z.eqb_eq _ _) Ht1).
      * intros c Hc. by apply HV.
  - (* player turn *)
    assert (turn g = 0) as Ht0 by lia.
    assert ((if turn g =? 1 then Dealer else Player) = Player) as Hw
      by (by rewrite (proj2 (Z.eqb_neq _ _) Ht1)).
    destruct (IH (advance_turn g)) as (stay & Es1 & Es2).
    { simpl; lia. }
    { unfold rank in *; simpl; lia. }
    { intros g' Hg'. apply Ha. eapply rtc_l; [by apply op_step_stay|done]. }
    destruct (Ha g (rtc_refl _ _) Ht0 Ho) as (action_index & Eask & Hmax).
    assert (op_stay_value cfg g = stay.1) as Estay.
    { unfold op_stay_value.
      rewrite <- (op_theoretical_value cfg fuel (advance_turn g)).
      - by rewrite Es1.
      - simpl; lia.
      - unfold rank, OnePlayer.fuel_for in *; simpl; lia. }
    assert (op_hit_value cfg g = expected g (λ c, (V Player c).1)) as Ehit.
    { unfold op_hit_value. apply expected_ext. intros c Hc.
      rewrite <- (op_theoretical_value cfg fuel (drawn Player g c)).
      - done.
      - simpl; lia.
      - unfold rank, OnePlayer.fuel_for in *. simpl.
        rewrite (length_remove_one c _ Hc) in Hr. lia. }
    assert (op_value_th cfg (S fuel) g =
            Done (py_max stay.1 (expected g (λ c, (V Player c).1)),
                  half * stay.2 + half * expected g (λ c, (V Player c).2))%Qc) as Eth.
    { etrans; [eapply (value_stay_and_hit _ _ _ _ g Player _ stay (V Player) Ho)|].
      - unfold OnePlayer.theoretical_plan. by rewrite (proj2 (Z.eqb_neq _ _) Ht1).
      - done.
      - intros c Hc. by apply HV.
      - rewrite added_up2. simpl. by rewrite !Qcplus_0_l. }
    rewrite Eth. eexists. split; [done|]. cbn [fst snd].
    rewrite Estay, Ehit in Hmax.
    destruct (Z.eqb_spec action_index 0) as [Ea|Ea].
    + (* the agent stays *)
      rewrite (value_stay_only _ _ _ fuel g (λ s, (0 + s)%Qc) stay.1 Ho).
      * rewrite Qcplus_0_l. unfold py_max.
        destruct (decide (stay.1 < expected g (λ c, (V Player c).1))%Qc) as [Hlt|Hge];
          [by apply (proj1 Hmax Ea) in Hlt|done].
      * rewrite op_ai_plan_ask, (proj2 (Z.eqb_neq _ _) Ht1), Eask. simpl.
        by rewrite (proj2 (Z.eqb_eq _ _) Ea).
      * done.
    + (* the agent hits *)
      rewrite (value_hit_only _ _ _ fuel g Player (λ c, (V Player c).1) Ho).
      * rewrite added_up1. simpl. rewrite Qcplus_0_l. unfold py_max.
        destruct (decide (stay.1 < expected g (λ c, (V Player c).1))%Qc) as [Hlt|Hge];
          [done|by apply (proj2 Hmax) in Hge].
      * rewrite op_ai_plan_ask, (proj2 (Z.eqb_neq _ _) Ht1), Eask. simpl.
        by rewrite (proj2 (Z.eqb_neq _ _) Ea).
      * intros c Hc. by apply HV.
Qed.

(** * What the solvers do with the answer of the oracle *)

Section EnginePlan.
Context {T : Type} `{Slots T}.
Variable over : BlackJack → bool * option Qc.
Variable terminal : Qc → T.
Variables plan_of plan_of' : BlackJack → outcome (plan T).
Hypothesis same_plan : ∀ g, plan_of g = plan_of' g.

Lemma solve_same_plan fuel g r :
  solve over terminal plan_of fuel g r = solve over terminal plan_of' fuel g r.
Proof.
  revert g r. induction fuel as [|fuel IH]; intros g r; [done|].
  simpl. rewrite same_plan. destruct (r !! _); [done|].
  destruct (over g) as [[] [res|]]; try done;
    (destruct (plan_of' g) as [p| |]; simpl; [|done..];
     assert (expand (solve over terminal plan_of fuel) p g r =
             expand (solve over terminal plan_of' fuel) p g r) as ->; [|done];
     unfold expand; destruct p as [who|fin|who comb];
     [ by apply hit_loop_ext
     | by rewrite IH
     | rewrite IH; destruct (solve over terminal plan_of' fuel _ r) as [[s r1]| |];
       simpl; [|done..]; by rewrite (hit_loop_ext _ _ _ _ _ _ _ IH) ]).
Qed.
End EnginePlan.

Lemma ask_as_stay_or_hit cfg a g :
  ask cfg (as_stay_or_hit a) g =
  (λ action_index, if action_index =? 0 then 0 else 1) <$> ask cfg a g.
Proof.
  unfold ask. destruct (get_features cfg g) as [features| |]; simpl; [|done..].
  unfold get_argmax_action_index, as_stay_or_hit. by destruct (a features).
Qed.

Lemma eqb_stay_or_hit i : ((if i =? 0 then 0 else 1) =? 0) = (i =? 0).
Proof. by destruct (i =? 0). Qed.

Lemma op_ai_plan_as_stay_or_hit cfg a g :
  OnePlayer.ai_plan cfg a g = OnePlayer.ai_plan cfg (as_stay_or_hit a) g.
Proof.
  rewrite !op_ai_plan_ask, ask_as_stay_or_hit. destruct (turn g =? 1); [done|].
  destruct (ask cfg a g) as [i| |]; simpl; [|done..]. by rewrite eqb_stay_or_hit.
Qed.

Lemma tp_ai_plan_as_stay_or_hit cfg pa da g :
  TwoPlayer.ai_plan cfg pa da g =
  TwoPlayer.ai_plan cfg (as_stay_or_hit pa) (as_stay_or_hit da) g.
Proof.
  rewrite !tp_ai_plan_ask, !ask_as_stay_or_hit. destruct (turn g =? 1).
  - destruct (ask cfg da g) as [i| |]; simpl; [|done..].
    unfold tp_agent_combine. by rewrite eqb_stay_or_hit.
  - destruct (ask cfg pa g) as [i| |]; simpl; [|done..].
    unfold tp_agent_combine. by rewrite eqb_stay_or_hit.
Qed.

(** C4, as the code has it.  An exception raised when the oracle is asked
    (by the oracle or by [get_features]) at a turn driven by the policy comes
    out of the solver unchanged, in both games.  The action index is not
    validated: every index other than 0 is taken as a hit, so the solvers
    give the same result for an agent and for the agent whose answers other
    than 0 are replaced by 1. *)
Theorem oracle_failure_propagates_and_nonzero_is_hit (cfg : Config)
    (a player_agent dealer_agent : agent) :
  (∀ fuel g r e,
     r !! get_game_state_representation g = None →
     (OnePlayer.is_game_over cfg g).1 = false → turn g ≠ 1 →
     ask cfg a g = Raise e →
     OnePlayer.get_ai_win_probability cfg a (S fuel) g r = Raise e) ∧
  (∀ fuel g r e,
     r !! get_game_state_representation g = None →
     (TwoPlayer.is_game_over cfg g).1 = false →
     ask cfg (if turn g =? 1 then dealer_agent else player_agent) g = Raise e →
     TwoPlayer.get_ai_win_probability cfg player_agent dealer_agent (S fuel) g r = Raise e) ∧
  (∀ fuel g r,
     OnePlayer.get_ai_win_probability cfg a fuel g r =
     OnePlayer.get_ai_win_probability cfg (as_stay_or_hit a) fuel g r) ∧
  (∀ fuel g r,
     TwoPlayer.get_ai_win_probability cfg player_agent dealer_agent fuel g r =
     TwoPlayer.get_ai_win_probability cfg (as_stay_or_hit player_agent)
       (as_stay_or_hit dealer_agent) fuel g r).
Proof.
  repeat split.
  - intros fuel g r e Hl Ho Ht Ha. rewrite op_ai_solve. cbn [solve]. rewrite Hl.
    destruct (OnePlayer.is_game_over cfg g) as [[] res]; [done|].
    rewrite op_ai_plan_ask, (proj2 (Z.eqb_neq _ _) Ht), Ha. by destruct res.
  - intros fuel g r e Hl Ho Ha. rewrite tp_ai_solve. cbn [solve]. rewrite Hl.
    destruct (TwoPlayer.is_game_over cfg g) as [[] res]; [done|].
    rewrite tp_ai_plan_ask. destruct (turn g =? 1); rewrite Ha; by destruct res.
  - intros fuel g r. rewrite !op_ai_solve.
    apply solve_same_plan, op_ai_plan_as_stay_or_hit.
  - intros fuel g r. rewrite !tp_ai_solve.
    apply solve_same_plan, tp_ai_plan_as_stay_or_hit.
Qed.

(** C4 as stated fails: the oracle answers 2, which is neither stay nor
    hit, and the solver raises nothing: it gives 0, the value of the hit
    branch, where the stay branch is worth 1. *)
Lemma invalid_action_is_taken_as_hit :
  ask small_cfg (λ _, Action 2) small_game = Done 2 ∧
  fraction (OnePlayer.ai_win_probability small_cfg (λ _, Action 2) small_game)
    = Done (0 # 1)%Q ∧
  fraction (OnePlayer.ai_win_probability small_cfg (λ _, Action 0) small_game)
    = Done (1 # 1)%Q.
Proof. by vm_compute. Qed.

(** * The initial states *)

Lemma py_pop_length l x l' : py_pop l = Done (x, l') → length l = S (length l').
Proof.
  unfold py_pop. destruct (reverse l) as [|y k] eqn:E; [done|].
  intros [= <- <-]. rewrite <- (length_reverse l), E. simpl. by rewrite length_reverse.
Qed.

Lemma reset_length cfg shuffle game :
  reset cfg shuffle = Done game → (3 ≤ length (shuffle (deck_copy cfg)))%nat.
Proof.
  unfold reset.
  destruct (py_pop (shuffle (deck_copy cfg))) as [[c1 d1]| |] eqn:E1; simpl; [|done..].
  destruct (py_pop d1) as [[c2 d2]| |] eqn:E2; simpl; [|done..].
  destruct (py_pop d2) as [[c3 d3]| |] eqn:E3; simpl; [|done..].
  intros _. apply py_pop_length in E1, E2, E3. lia.
Qed.

Lemma permutations3_nonempty (l : list Z) :
  (3 ≤ length l)%nat → permutations3 l ≠ [].
Proof.
  destruct l as [|x [|y [|z l]]]; simpl; try lia. done.
Qed.

Lemma counted_count_up k d : counted (count_up k d) = counted d + 1.
Proof.
  induction d as [|[k' n] d IH]; simpl; [done|].
  destruct (decide (k' = k)); simpl; unfold counted in *; simpl; lia.
Qed.

Lemma counted_initial_state_counts perms :
  counted (initial_state_counts perms) = Z.of_nat (length perms).
Proof.
  unfold initial_state_counts.
  assert (∀ d, counted (fold_left (λ d p, count_up (initial_state_of p) d) perms d)
               = counted d + Z.of_nat (length perms)) as Hgen.
  { induction perms as [|p perms IH]; intros d; simpl; [lia|].
    rewrite IH, counted_count_up. lia. }
  by rewrite Hgen.
Qed.

Lemma mapM_Done_Forall2 {A B} (f : A → outcome B) (l : list A) (k : list B) :
  mapM f l = Done k → Forall2 (λ x y, f x = Done y) l k.
Proof.
  revert k. induction l as [|x l IH]; intros k; simpl.
  - intros [= <-]. constructor.
  - destruct (f x) as [y| |] eqn:E; simpl; [|done..].
    destruct (mapM f l) as [k'| |]; simpl; [|done..].
    intros [= <-]. constructor; [done|]. by apply IH.
Qed.

Lemma total_probability_from (l : list (BlackJack * Qc)) (acc : Qc) :
  fold_left (λ acc e, (acc + e.2)%Qc) l acc = (acc + total_probability l)%Qc.
Proof.
  unfold total_probability. revert acc.
  induction l as [|e l IH]; intros acc; simpl.
  - by rewrite Qcplus_0_r.
  - rewrite (IH (acc + e.2)%Qc), (IH (0 + e.2)%Qc). ring.
Qed.

Lemma total_probability_cons e l :
  total_probability (e :: l) = (e.2 + total_probability l)%Qc.
Proof.
  unfold total_probability at 1. simpl. rewrite total_probability_from. ring.
Qed.

(** C6. In the one-player game, when at every state of the player's turn
    that the recursion reaches from [g] the agent stays exactly when [max]
    keeps the stay value (and hits exactly when the hit value is larger),
    [get_ai_win_probability] from [g] gives the optimal component of
    [get_theoretical_win_probability] from [g]. *)
Theorem agent_playing_max_rule_wins_as_optimal (cfg : Config) (a : agent) (g : BlackJack) :
  0 ≤ turn g ≤ 1 →
  (∀ g', rtc (op_step cfg) g g' → turn g' = 0 →
         (OnePlayer.is_game_over cfg g').1 = false → selects_as_max cfg a g') →
  ∃ v, OnePlayer.theoretical_win_probability cfg g = Done v ∧
       OnePlayer.ai_win_probability cfg a g = Done v.1.
Proof.
  intros Ht Ha.
  destruct (op_values_agree cfg a (OnePlayer.fuel_for g) g Ht) as (v & E1 & E2);
    [unfold rank, OnePlayer.fuel_for; lia|done|].
  exists v. split.
  - rewrite <- (op_theoretical_value cfg (OnePlayer.fuel_for g) g); [done|lia|lia].
  - unfold OnePlayer.ai_win_probability. rewrite op_ai_solve.
    rewrite solve_value; [done|apply op_over_key|apply op_ai_plan_key|apply sound_empty|].
    by rewrite E2.
Qed.

(** C3. Two states with the same canonical key (dealer sum, player sum,
    sorted deck, turn) are treated alike: [is_game_over] gives the same pair
    on both, and each of the four solvers, from any record and with any fuel,
    gives the same result and the same record on both. *)
Theorem same_key_same_outcome (cfg : Config) (a player_agent dealer_agent : agent)
    (g1 g2 : BlackJack) :
  get_game_state_representation g1 = get_game_state_representation g2 →
  OnePlayer.is_game_over cfg g1 = OnePlayer.is_game_over cfg g2 ∧
  TwoPlayer.is_game_over cfg g1 = TwoPlayer.is_game_over cfg g2 ∧
  (∀ fuel r, OnePlayer.get_theoretical_win_probability cfg fuel g1 r =
             OnePlayer.get_theoretical_win_probability cfg fuel g2 r) ∧
  (∀ fuel r, OnePlayer.get_ai_win_probability cfg a fuel g1 r =
             OnePlayer.get_ai_win_probability cfg a fuel g2 r) ∧
  (∀ fuel r, TwoPlayer.get_theoretical_win_probability cfg fuel g1 r =
             TwoPlayer.get_theoretical_win_probability cfg fuel g2 r) ∧
  (∀ fuel r, TwoPlayer.get_ai_win_probability cfg player_agent dealer_agent fuel g1 r =
             TwoPlayer.get_ai_win_probability cfg player_agent dealer_agent fuel g2 r).
Proof.
  intros Hk. split; [|split; [|split; [|split; [|split]]]].
  - by apply op_over_key.
  - by apply tp_over_key.
  - intros fuel r. rewrite !op_theoretical_solve.
    by apply solve_key; [apply op_over_key|apply op_theoretical_plan_key|].
  - intros fuel r. rewrite !op_ai_solve.
    by apply solve_key; [apply op_over_key|apply op_ai_plan_key|].
  - intros fuel r. rewrite !tp_theoretical_solve.
    by apply solve_key; [apply tp_over_key|apply tp_theoretical_plan_key|].
  - intros fuel r. rewrite !tp_ai_solve.
    by apply solve_key; [apply tp_over_key|apply tp_ai_plan_key|].
Qed.

(** C5. The analytical solver gives the optimal player at least the value
    of the random player, against the same dealer: in the one-player game
    [random <= optimal], in the two-player game [rpod <= opod] and
    [rprd <= oprd].  This holds for the call with a fresh record at every
    state whose turn is in range, and for every call on a record whose
    entries are so ordered, which leaves such a record. *)
Theorem optimal_player_at_least_random (cfg : Config) (g : BlackJack) :
  (turn g ≤ 1 →
   ∃ optimal random,
     OnePlayer.theoretical_win_probability cfg g = Done (optimal, random) ∧
     (random ≤ optimal)%Qc) ∧
  (turn g ≤ 2 →
   ∃ opod oprd rpod rprd,
     TwoPlayer.theoretical_win_probability cfg g = Done (opod, oprd, rpod, rprd) ∧
     (rpod ≤ opod)%Qc ∧ (rprd ≤ oprd)%Qc) ∧
  (∀ fuel r v r',
     map_Forall (λ _, op_ordered) r →
     OnePlayer.get_theoretical_win_probability cfg fuel g r = Done (v, r') →
     (v.2 ≤ v.1)%Qc ∧ map_Forall (λ _, op_ordered) r') ∧
  (∀ fuel r v r',
     map_Forall (λ _, tp_ordered) r →
     TwoPlayer.get_theoretical_win_probability cfg fuel g r = Done (v, r') →
     ((v.1.2 ≤ v.1.1.1)%Qc ∧ (v.2 ≤ v.1.1.2)%Qc) ∧ map_Forall (λ _, tp_ordered) r').
Proof.
  split; [|split; [|split]].
  - intros Ht. destruct (op_theoretical_Done cfg g Ht) as [[o r] E].
    exists o, r. split; [done|]. unfold OnePlayer.theoretical_win_probability in E.
    destruct (OnePlayer.get_theoretical_win_probability cfg _ g ∅) as [[v r']| |] eqn:E';
      [|done..].
    injection E as ->.
    by destruct (op_theoretical_ordered cfg _ g ∅ _ _ (map_Forall_empty _) E').
  - intros Ht. destruct (tp_theoretical_Done cfg g Ht) as [[[[a b] c] d] E].
    exists a, b, c, d. split; [done|]. unfold TwoPlayer.theoretical_win_probability in E.
    destruct (TwoPlayer.get_theoretical_win_probability cfg _ g ∅) as [[v r']| |] eqn:E';
      [|done..].
    injection E as ->.
    by destruct (tp_theoretical_ordered cfg _ g ∅ _ _ (map_Forall_empty _) E').
  - intros fuel r v r' Hr E. by apply (op_theoretical_ordered cfg fuel g r).
  - intros fuel r v r' Hr E. by apply (tp_theoretical_ordered cfg fuel g r).
Qed.

(** C8. A tie is lost: when the sums of the two hands are equal,
    [is_game_over] returns [(True, 0.0)] in the one-player game once the
    dealer has reached the limit without busting, and in the two-player game
    once the dealer has stayed (turn 2). *)
Theorem tie_is_won_by_dealer (cfg : Config) (g : BlackJack) :
  py_sum (player_hand g) = py_sum (dealer_hand g) →
  (turn g = 1 → py_sum (dealer_hand g) ≤ blackjack_num cfg →
   dealer_limit cfg ≤ py_sum (dealer_hand g) →
   OnePlayer.is_game_over cfg g = (true, Some 0%Qc)) ∧
  (turn g = 2 → TwoPlayer.is_game_over cfg g = (true, Some 0%Qc)).
Proof.
  intros Hs. split.
  - intros Ht Hb Hl. unfold OnePlayer.is_game_over. rewrite Ht, Hs. simpl.
    destruct (Z.gtb_spec (py_sum (dealer_hand g)) (blackjack_num cfg)); [lia|].
    destruct (Z.geb_spec (py_sum (dealer_hand g)) (dealer_limit cfg)); [|lia].
    rewrite Z.gtb_ltb, Z.ltb_irrefl. done.
  - intros Ht. unfold TwoPlayer.is_game_over. rewrite Ht, Hs. simpl.
    rewrite Z.gtb_ltb, Z.ltb_irrefl. done.
Qed.

(** C9. [draw_prob] is only called on a card of [np.unique] of the deck of
    the state, so the deck is not empty and the division succeeds; an empty
    deck gives no card to draw; none of the four solvers raises the
    [ZeroDivisionError] of [draw_prob]. *)
Theorem draw_prob_is_called_on_nonempty_deck (cfg : Config)
    (a player_agent dealer_agent : agent) (g : BlackJack) :
  (∀ c, c ∈ np_unique (deck g) →
     py_len (deck g) ≠ 0 ∧ draw_prob g c = Done (draw_weight g c)) ∧
  (deck g = [] → np_unique (deck g) = []) ∧
  (∀ fuel r, OnePlayer.get_theoretical_win_probability cfg fuel g r
             ≠ Raise (ZeroDivisionError in_draw_prob)) ∧
  (∀ fuel r, OnePlayer.get_ai_win_probability cfg a fuel g r
             ≠ Raise (ZeroDivisionError in_draw_prob)) ∧
  (∀ fuel r, TwoPlayer.get_theoretical_win_probability cfg fuel g r
             ≠ Raise (ZeroDivisionError in_draw_prob)) ∧
  (∀ fuel r, TwoPlayer.get_ai_win_probability cfg player_agent dealer_agent fuel g r
             ≠ Raise (ZeroDivisionError in_draw_prob)).
Proof.
  split; [|split; [|split; [|split; [|split]]]].
  - intros c Hc. apply (proj1 (elem_of_np_unique _ _)) in Hc.
    split; [exact (proj1 (draw_prob_elem_of g c Hc))|by apply draw_prob_weight].
  - by intros ->.
  - intros fuel r. apply op_theoretical_no_raise.
  - intros fuel r E. apply op_ai_raise in E as [E|[code E]]; done.
  - intros fuel r. apply tp_theoretical_no_raise.
  - intros fuel r E. apply tp_ai_raise in E as [E|[code E]]; done.
Qed.

(** C10. Every call of the four solvers on a state whose turn is in range
    comes back when the fuel covers the size of the deck plus the turns left:
    the analytical solvers with a value, the policy solvers with a value or
    an exception.  A stay leaves the deck and advances the turn by one, a hit
    removes exactly one card and leaves the turn. *)
Theorem solvers_terminate (cfg : Config) (a player_agent dealer_agent : agent)
    (g : BlackJack) :
  (turn g ≤ 1 → ∀ fuel, (OnePlayer.fuel_for g ≤ fuel)%nat →
     (∀ r, ∃ v r', OnePlayer.get_theoretical_win_probability cfg fuel g r = Done (v, r')) ∧
     (∀ r, settled (OnePlayer.get_ai_win_probability cfg a fuel g r))) ∧
  (turn g ≤ 2 → ∀ fuel, (TwoPlayer.fuel_for g ≤ fuel)%nat →
     (∀ r, ∃ v r', TwoPlayer.get_theoretical_win_probability cfg fuel g r = Done (v, r')) ∧
     (∀ r, settled (TwoPlayer.get_ai_win_probability cfg player_agent dealer_agent
                      fuel g r))) ∧
  (deck (advance_turn g) = deck g ∧ turn (advance_turn g) = turn g + 1) ∧
  (∀ who c g', hit who g c = Done g' →
     length (deck g) = S (length (deck g')) ∧ turn g' = turn g).
Proof.
  split; [|split; [|split]].
  - intros Ht fuel Hf. split.
    + intros r.
      pose proof (solve_settled (OnePlayer.is_game_over cfg) (λ result, (result, result))
                    OnePlayer.theoretical_plan 1 op_theoretical_plan_settled
                    (op_theoretical_stay_turn cfg) fuel g r Ht) as Hs.
      rewrite <- op_theoretical_solve in Hs.
      destruct (OnePlayer.get_theoretical_win_probability cfg fuel g r)
        as [[v r']|e|] eqn:E.
      * eauto.
      * by apply op_theoretical_no_raise in E.
      * exfalso. apply Hs; [unfold rank, OnePlayer.fuel_for in *; lia|done].
    + intros r. rewrite op_ai_solve.
      apply (solve_settled _ _ _ 1); [apply op_ai_plan_settled|apply op_ai_stay_turn|done|].
      unfold rank, OnePlayer.fuel_for in *. lia.
  - intros Ht fuel Hf. split.
    + intros r.
      pose proof (solve_settled (TwoPlayer.is_game_over cfg)
                    (λ result, (result, result, result, result))
                    TwoPlayer.theoretical_plan 2 tp_theoretical_plan_settled
                    (tp_theoretical_stay_turn cfg) fuel g r Ht) as Hs.
      rewrite <- tp_theoretical_solve in Hs.
      destruct (TwoPlayer.get_theoretical_win_probability cfg fuel g r)
        as [[v r']|e|] eqn:E.
      * eauto.
      * by apply tp_theoretical_no_raise in E.
      * exfalso. apply Hs; [unfold rank, TwoPlayer.fuel_for in *; lia|done].
    + intros r. rewrite tp_ai_solve.
      apply (solve_settled _ _ _ 2); [apply tp_ai_plan_settled|apply tp_ai_stay_turn|done|].
      unfold rank, TwoPlayer.fuel_for in *. lia.
  - done.
  - intros who c g' Hg'. by eapply hit_Done.
Qed.

Lemma player_turn_takes_max_or_average_witness :
  turn small_game = 0 ∧
  (OnePlayer.is_game_over small_cfg small_game).1 = false ∧
  ∃ (stay : Qc * Qc) (hit : Z → Qc * Qc),
    OnePlayer.theoretical_win_probability small_cfg small_game =
      Done (py_max stay.1 (expected small_game (λ c, (hit c).1)),
            half * stay.2 + half * expected small_game (λ c, (hit c).2))%Qc.
Proof.
  split; [reflexivity|]. split; [reflexivity|].
  destruct (player_turn_takes_max_or_average small_cfg small_game eq_refl) as [H _].
  destruct (H eq_refl) as (stay & hit & _ & _ & E). by exists stay, hit.
Defined.

Lemma dealer_turn_takes_min_or_average_witness :
  turn small_dealer_game = 1 ∧
  (TwoPlayer.is_game_over small_cfg small_dealer_game).1 = false ∧
  ∃ (stay : Qc * Qc * Qc * Qc) (hit : Z → Qc * Qc * Qc * Qc),
    TwoPlayer.theoretical_win_probability small_cfg small_dealer_game =
      Done (py_min stay.1.1.1 (expected small_dealer_game (λ c, (hit c).1.1.1)),
            half * stay.1.1.2 + half * expected small_dealer_game (λ c, (hit c).1.1.2),
            py_min stay.1.2 (expected small_dealer_game (λ c, (hit c).1.2)),
            half * stay.2 + half * expected small_dealer_game (λ c, (hit c).2))%Qc.
Proof.
  split; [reflexivity|]. split; [reflexivity|].
  destruct (dealer_turn_takes_min_or_average small_cfg small_dealer_game eq_refl eq_refl)
    as (stay & hit & _ & _ & E).
  by exists stay, hit.
Defined.

Lemma same_key_same_outcome_witness :
  get_game_state_representation same_key_game1 =
    get_game_state_representation same_key_game2 ∧
  OnePlayer.is_game_over small_cfg same_key_game1 =
    OnePlayer.is_game_over small_cfg same_key_game2 ∧
  OnePlayer.get_theoretical_win_probability small_cfg 5 same_key_game1 ∅ =
    OnePlayer.get_theoretical_win_probability small_cfg 5 same_key_game2 ∅.
Proof.
  split; [reflexivity|].
  destruct (same_key_same_outcome small_cfg (λ _, Action 0) (λ _, Action 0)
              (λ _, Action 0) same_key_game1 same_key_game2 eq_refl)
    as (H1 & _ & H3 & _).
  split; [exact H1|apply H3].
Defined.

Lemma oracle_failure_propagates_witness :
  OnePlayer.get_ai_win_probability small_cfg (λ _, Fails 7) 1 small_game ∅ =
    Raise (OracleError 7).
Proof.
  destruct (oracle_failure_propagates_and_nonzero_is_hit small_cfg (λ _, Fails 7)
              (λ _, Fails 7) (λ _, Fails 7)) as (H & _).
  apply H; [apply lookup_empty|reflexivity|discriminate|reflexivity].
Defined.

Lemma optimal_player_at_least_random_witness :
  turn small_game ≤ 1 ∧
  ∃ optimal random,
    OnePlayer.theoretical_win_probability small_cfg small_game = Done (optimal, random) ∧
    (random ≤ optimal)%Qc.
Proof.
  split; [simpl; lia|].
  apply (proj1 (optimal_player_at_least_random small_cfg small_game)). simpl. lia.
Defined.

Lemma tie_is_won_by_dealer_witness :
  py_sum (player_hand tie_game) = py_sum (dealer_hand tie_game) ∧
  OnePlayer.is_game_over tie_cfg tie_game = (true, Some 0%Qc).
Proof.
  split; [reflexivity|].
  apply (proj1 (tie_is_won_by_dealer tie_cfg tie_game eq_refl));
    [reflexivity|vm_compute; discriminate|vm_compute; discriminate].
Defined.

Lemma draw_prob_is_called_on_nonempty_deck_witness :
  draw_prob small_game 4 = Done (draw_weight small_game 4).
Proof.
  apply (proj1 (draw_prob_is_called_on_nonempty_deck small_cfg (λ _, Action 0)
                  (λ _, Action 0) (λ _, Action 0) small_game)).
  apply (proj2 (elem_of_np_unique _ _)). left.
Defined.

Lemma solvers_terminate_witness :
  turn small_game ≤ 1 ∧
  ∃ v r', OnePlayer.get_theoretical_win_probability small_cfg
            (OnePlayer.fuel_for small_game) small_game ∅ = Done (v, r').
Proof.
  split; [simpl; lia|].
  destruct (solvers_terminate small_cfg (λ _, Action 0) (λ _, Action 0) (λ _, Action 0)
              small_game) as (H & _).
  apply H; [simpl; lia|done].
Defined.

(** The states that the recursion visits from [small_game]. *)
Lemma small_game_steps g' :
  rtc (op_step small_cfg) small_game g' → turn g' = 0 →
  (OnePlayer.is_game_over small_cfg g').1 = false → g' = small_game.
Proof.
  intros Hr Ht Ho.
  apply rtc_inv in Hr as [<-|(y & Hs & Hr)]; [done|]. exfalso.
  inversion Hs as [g Hg Hg'|g c Hg Hc]; subst.
  - (* the player stays *)
    apply rtc_inv in Hr as [<-|(z & Hs' & Hr)]; [done|].
    inversion Hs' as [g Hg1 Hg1'|g c Hg1 Hc]; subst; [done|].
    apply list_elem_of_singleton in Hc as ->.
    apply rtc_inv in Hr as [<-|(w & Hs'' & Hr)]; [done|].
    inversion Hs'' as [g Hg2 Hg2'|g c Hg2 Hc]; subst; done.
  - (* the player hits *)
    apply list_elem_of_singleton in Hc as ->.
    apply rtc_inv in Hr as [<-|(z & Hs' & Hr)]; [done|].
    inversion Hs' as [g Hg1 Hg1'|g c Hg1 Hc]; subst; done.
Qed.

Lemma agent_playing_max_rule_wins_as_optimal_witness :
  0 ≤ turn small_game ≤ 1 ∧
  ∃ v, OnePlayer.theoretical_win_probability small_cfg small_game = Done v ∧
       OnePlayer.ai_win_probability small_cfg (λ _, Action 0) small_game = Done v.1.
Proof.
  split; [simpl; lia|].
  apply (agent_playing_max_rule_wins_as_optimal small_cfg (λ _, Action 0) small_game);
    [simpl; lia|].
  intros g' Hr Ht Ho. rewrite (small_game_steps g' Hr Ht Ho).
  exists 0. split; [reflexivity|]. split; [|done].
  intros _. vm_compute. discriminate.
Defined.

(** * The calls that share a record *)

(** The record that earlier calls have filled changes no value: with enough
    fuel, a call on a sound record gives the value of the call on a fresh
    record. *)
Lemma op_theoretical_any_record cfg fuel g r :
  turn g ≤ 1 → (OnePlayer.fuel_for g ≤ fuel)%nat →
  sound_record (OnePlayer.is_game_over cfg) (λ result, (result, result))
               OnePlayer.theoretical_plan r →
  fst <$> OnePlayer.get_theoretical_win_probability cfg fuel g r =
  OnePlayer.theoretical_win_probability cfg g.
Proof.
  intros Ht Hf Hr. rewrite op_theoretical_solve.
  rewrite solve_value; [by apply op_theoretical_value|apply op_over_key
                        |apply op_theoretical_plan_key|done|].
  rewrite op_theoretical_value by done.
  by destruct (op_theoretical_Done cfg g Ht) as [v ->].
Qed.

Lemma tp_theoretical_any_record cfg fuel g r :
  turn g ≤ 2 → (TwoPlayer.fuel_for g ≤ fuel)%nat →
  sound_record (TwoPlayer.is_game_over cfg) (λ result, (result, result, result, result))
               TwoPlayer.theoretical_plan r →
  fst <$> TwoPlayer.get_theoretical_win_probability cfg fuel g r =
  TwoPlayer.theoretical_win_probability cfg g.
Proof.
  intros Ht Hf Hr. rewrite tp_theoretical_solve.
  rewrite solve_value; [by apply tp_theoretical_value|apply tp_over_key
                        |apply tp_theoretical_plan_key|done|].
  rewrite tp_theoretical_value by done.
  by destruct (tp_theoretical_Done cfg g Ht) as [v ->].
Qed.

(** The total of the optimal player for the deck of [main.py], 89/210, is
    the constant 0.42380952380952375 that the source quotes. *)
Lemma total_of_main_config :
  (λ v : Qc * Qc, (this v.1, this v.2)) <$>
    OnePlayerTotal.get_total_theoretical_win_probability tie_cfg id reverse
  = Done (89 # 210, 127 # 672)%Q.
Proof. by vm_compute. Qed.

(** * The edges of the theorems *)

(** The range of the turn in C10 is needed: the engine never leaves it, but on
    a state whose turn is beyond it the solvers find no terminal state along
    the stay branch. *)
Lemma op_turn_beyond_range cfg fuel g :
  2 ≤ turn g → OnePlayer.get_theoretical_win_probability cfg fuel g ∅ = OutOfFuel.
Proof.
  revert g. induction fuel as [|fuel IH]; intros g Ht; [done|].
  simpl. rewrite lookup_empty. unfold OnePlayer.is_game_over.
  destruct (Z.eqb_spec (turn g) 0) as [E|_]; [lia|].
  destruct (Z.eqb_spec (turn g) 1) as [E|_]; [lia|].
  simpl. rewrite IH; [done|unfold copy; simpl; lia].
Qed.

Lemma tp_turn_beyond_range cfg fuel g :
  3 ≤ turn g → TwoPlayer.get_theoretical_win_probability cfg fuel g ∅ = OutOfFuel.
Proof.
  revert g. induction fuel as [|fuel IH]; intros g Ht; [done|].
  simpl. rewrite lookup_empty. unfold TwoPlayer.is_game_over.
  destruct (Z.eqb_spec (turn g) 0) as [E|_]; [lia|].
  destruct (Z.eqb_spec (turn g) 1) as [E|_]; [lia|].
  destruct (Z.eqb_spec (turn g) 2) as [E|_]; [lia|].
  simpl. rewrite IH; [done|unfold copy; simpl; lia].
Qed.

(** [get_features] divides by the size of the deck: on an empty deck the
    oracle cannot be asked, and a policy solver that reaches a turn of its
    agent there raises [ZeroDivisionError] from [get_features], not from
    [draw_prob]. *)
Lemma get_features_empty_deck cfg g :
  deck g = [] → blackjack_num cfg ≠ 0 → deck_copy cfg ≠ [] →
  get_features cfg g = Raise (ZeroDivisionError in_get_features).
Proof.
  intros Hd Hb Hc. unfold get_features.
  assert (∀ a, py_div in_get_features a (blackjack_num cfg) =
               Done (Qc_of_Z a / Qc_of_Z (blackjack_num cfg))%Qc) as Hdiv.
  { intros a. unfold py_div. by destruct (Z.eqb_spec (blackjack_num cfg) 0). }
  rewrite !Hdiv. simpl.
  assert (np_unique (deck_copy cfg) ≠ []) as Hu.
  { destruct (deck_copy cfg) as [|c l]; [done|]. intros E.
    assert (c ∈ np_unique (c :: l)) as Hin by (apply elem_of_np_unique; left).
    rewrite E in Hin. by apply elem_of_nil in Hin. }
  destruct (np_unique (deck_copy cfg)) as [|c l]; [done|].
  simpl. by rewrite Hd.
Qed.

(** * The draws are a distribution *)

Lemma py_count_filter_ne (c c' : Z) (l : list Z) :
  c' ≠ c → py_count c' (filter (λ y, y ≠ c) l) = py_count c' l.
Proof.
  intros Hne. unfold py_count. do 2 f_equal.
  induction l as [|y l IH]; [done|].
  rewrite !filter_cons. destruct (decide (y ≠ c)) as [Hy|Hy].
  - rewrite filter_cons. destruct (decide (y = c')); by rewrite IH.
  - destruct (decide (y = c')) as [->|]; [|done]. by destruct Hy.
Qed.

Lemma py_count_split (c : Z) (l : list Z) :
  py_len l = py_count c l + py_len (filter (λ y, y ≠ c) l).
Proof.
  unfold py_len, py_count. induction l as [|y l IH]; [done|].
  rewrite !filter_cons. simpl.
  destruct (decide (y = c)), (decide (y ≠ c)); simpl; try done; lia.
Qed.

(** The counts of the distinct cards add up to the size of the deck. *)
Lemma py_count_total (u l : list Z) :
  NoDup u → (∀ x, x ∈ l → x ∈ u) →
  foldr (λ c s, py_count c l + s) 0 u = py_len l.
Proof.
  intros Hu. revert l. induction Hu as [|c u Hc Hu IH]; intros l Hl.
  - destruct l as [|x l]; [done|]. exfalso. apply (elem_of_nil x), Hl. left.
  - simpl. rewrite (py_count_split c l). f_equal.
    rewrite <- (IH (filter (λ y, y ≠ c) l)).
    + apply foldr_ext_elem_of. intros c' s Hc'. rewrite py_count_filter_ne; [done|].
      intros ->. done.
    + intros x [Hne Hx]%list_elem_of_filter.
      apply Hl in Hx. apply elem_of_cons in Hx as [->|]; done.
Qed.

Lemma NoDup_np_unique (l : list Z) : NoDup (np_unique l).
Proof. apply NoDup_remove_dups. Qed.

Lemma py_count_np_unique (l : list Z) :
  foldr (λ c s, py_count c l + s) 0 (np_unique l) = py_len l.
Proof.
  apply py_count_total; [apply NoDup_np_unique|].
  intros x Hx. by apply elem_of_np_unique.
Qed.

(** The weights [draw_weight] of the distinct cards add up to 1, unless the
    deck is empty. *)
Lemma draw_weight_total (g : BlackJack) :
  deck g ≠ [] →
  foldr (λ c s, draw_weight g c + s)%Qc 0%Qc (np_unique (deck g)) = 1%Qc.
Proof.
  intros Hd.
  assert (Qc_of_Z (py_len (deck g)) ≠ 0%Qc) as Hn.
  { intros E. rewrite <- Z2Qc_inj_0 in E. apply Z2Qc_inj in E. unfold py_len in E.
    destruct (deck g); [done|simpl in E; lia]. }
  assert (∀ u, foldr (λ c s, draw_weight g c + s)%Qc 0%Qc u =
               (Qc_of_Z (foldr (λ c s, py_count c (deck g) + s)%Z 0%Z u)
                / Qc_of_Z (py_len (deck g)))%Qc) as Hgen.
  { induction u as [|c u IH]; simpl.
    - unfold Qcdiv. by rewrite Z2Qc_inj_0, Qcmult_0_l.
    - rewrite IH, Z2Qc_inj_add. unfold draw_weight, Qcdiv. ring. }
  rewrite Hgen, py_count_np_unique. unfold Qcdiv. by apply Qcmult_inv_r.
Qed.

Lemma draw_prob_Done g c p : draw_prob g c = Done p → p = draw_weight g c.
Proof. unfold draw_prob, py_div. destruct (_ =? 0); [done|]. by intros [= <-]. Qed.

Lemma draw_weight_total_le (g : BlackJack) :
  (foldr (λ c s, draw_weight g c + s) 0 (np_unique (deck g)) ≤ 1)%Qc.
Proof.
  destruct (deck g) as [|c l] eqn:E.
  - done.
  - rewrite <- E, draw_weight_total; [done|]. by rewrite E.
Qed.

(** * The tuples stay within bounds that the weights of the draws give *)

Section EngineWeighted.
Context {T : Type} `{Slots T}.
Variable over : BlackJack → bool * option Qc.
Variable terminal : Qc → T.
Variable plan_of : BlackJack → outcome (plan T).
Variable P : T → Prop.
Variable W : Qc → T → Prop.
Hypothesis W_zero : W 0%Qc slots_zero.
Hypothesis W_add : ∀ w acc p v,
  (0 ≤ p)%Qc → W w acc → P v → W (w + p)%Qc (slots_add_scaled acc p v).
Hypothesis W_final : ∀ w h, (w ≤ 1)%Qc → W w h → P h.
Hypothesis P_terminal : ∀ g result, over g = (true, Some result) → P (terminal result).
Hypothesis P_plan : ∀ g p, plan_of g = Done p → plan_keeps P p.

Lemma hit_loop_weighted (rec : solver T) who g cards acc r v r' w :
  keeps P rec → W w acc → map_Forall (λ _ : key, P) r →
  hit_loop rec who g cards acc r = Done (v, r') →
  W (w + foldr (λ c s, draw_weight g c + s) 0 cards)%Qc v ∧ map_Forall (λ _ : key, P) r'.
Proof.
  intros Hrec. revert w acc r.
  induction cards as [|c cards IH]; intros w acc r Hacc Hr.
  { intros [= <- <-]. simpl. by rewrite Qcplus_0_r. }
  simpl. unfold copy.
  destruct (draw_prob g c) as [p| |] eqn:Ep; simpl; [|done..].
  destruct (hit who g c) as [g'| |]; simpl; [|done..].
  destruct (rec g' r) as [[x r1]| |] eqn:E; simpl; [|done..].
  destruct (Hrec _ _ _ _ Hr E) as [Hx Hr1]. intros Hl.
  rewrite Qcplus_assoc, <- (draw_prob_Done g c p Ep).
  apply (IH (w + p)%Qc (slots_add_scaled acc p x) r1); [|done..].
  apply W_add; [by eapply draw_prob_nonneg|done..].
Qed.

Lemma hit_loop_bounded (rec : solver T) who g r v r' :
  keeps P rec → map_Forall (λ _ : key, P) r →
  hit_loop rec who g (np_unique (deck g)) slots_zero r = Done (v, r') →
  P v ∧ map_Forall (λ _ : key, P) r'.
Proof.
  intros Hrec Hr E.
  destruct (hit_loop_weighted _ _ _ _ _ _ _ _ 0%Qc Hrec W_zero Hr E) as [Hv Hr'].
  split; [|done]. eapply W_final; [|exact Hv].
  rewrite Qcplus_0_l. apply draw_weight_total_le.
Qed.

Lemma expand_bounded (rec : solver T) p g r v r' :
  keeps P rec → plan_keeps P p → map_Forall (λ _ : key, P) r →
  expand rec p g r = Done (v, r') → P v ∧ map_Forall (λ _ : key, P) r'.
Proof.
  intros Hrec Hp Hr. unfold expand, copy. destruct p as [who|fin|who comb]; simpl in Hp.
  - by apply hit_loop_bounded.
  - destruct (rec (advance_turn g) r) as [[s r1]| |] eqn:E; simpl; [|done..].
    destruct (Hrec _ _ _ _ Hr E) as [Hs Hr1]. intros [= <- <-]. auto.
  - destruct (rec (advance_turn g) r) as [[s r1]| |] eqn:E; simpl; [|done..].
    destruct (Hrec _ _ _ _ Hr E) as [Hs Hr1].
    destruct (hit_loop rec who g _ _ r1) as [[h r2]| |] eqn:E'; simpl; [|done..].
    destruct (hit_loop_bounded _ _ _ _ _ _ Hrec Hr1 E') as [Hh Hr2].
    intros [= <- <-]. auto.
Qed.

Lemma solve_bounded fuel : keeps P (solve over terminal plan_of fuel).
Proof.
  induction fuel as [|fuel IH]; intros g r v r' Hr; [done|].
  simpl. destruct (r !! _) as [x|] eqn:El.
  { intros [= <- <-]. split; [|done]. by apply (Hr _ _ El). }
  destruct (over g) as [[] [res|]] eqn:Ho; try done;
    try (intros [= <- <-]; split; [by eapply P_terminal|done]);
    (destruct (plan_of g) as [p| |] eqn:Ep; simpl; [|done..];
     destruct (expand _ p g r) as [[x r1]| |] eqn:E; simpl; [|done..];
     destruct (expand_bounded _ _ _ _ _ _ IH (P_plan g p Ep) Hr E) as [Hx Hr1];
     intros [= <- <-]; split; [done|]; by apply map_Forall_insert_2).
Qed.
End EngineWeighted.

(** * The win probabilities are probabilities *)

Lemma op_over_probability cfg g result :
  OnePlayer.is_game_over cfg g = (true, Some result) → probability result.
Proof.
  unfold OnePlayer.is_game_over, probability.
  repeat match goal with |- context [if ?b then _ else _] => destruct b end;
    intros [= <-]; done.
Qed.

Lemma tp_over_probability cfg g result :
  TwoPlayer.is_game_over cfg g = (true, Some result) → probability result.
Proof.
  unfold TwoPlayer.is_game_over, probability.
  repeat match goal with |- context [if ?b then _ else _] => destruct b end;
    intros [= <-]; done.
Qed.

Lemma Qcmult_nonneg (a b : Qc) : (0 ≤ a → 0 ≤ b → 0 ≤ a * b)%Qc.
Proof.
  intros Ha Hb. unfold Qcle in *. simpl in *. rewrite ?Qred_correct in *.
  by apply Qmult_le_0_compat.
Qed.

Lemma within_add (w acc p v : Qc) :
  (0 ≤ p → 0 ≤ acc ∧ acc ≤ w → probability v → 0 ≤ acc + p * v ∧ acc + p * v ≤ w + p)%Qc.
Proof.
  intros Hp [Ha1 Ha2] [Hv1 Hv2].
  assert (0 ≤ p * v)%Qc as H1 by (by apply Qcmult_nonneg).
  assert (p * v ≤ p * 1)%Qc as H2.
  { rewrite !(Qcmult_comm p). by apply Qcmult_le_compat_r. }
  rewrite Qcmult_1_r in H2. split.
  - rewrite <- (Qcplus_0_l 0). by apply Qcplus_le_compat.
  - by apply Qcplus_le_compat.
Qed.

Lemma within_final (w h : Qc) : (w ≤ 1 → 0 ≤ h ∧ h ≤ w → probability h)%Qc.
Proof. intros Hw [H1 H2]. split; [done|]. by etrans. Qed.

Lemma probability_max a b : probability a → probability b → probability (0 + py_max a b).
Proof. rewrite Qcplus_0_l. unfold py_max. by destruct (decide _). Qed.

Lemma probability_min a b : probability a → probability b → probability (0 + py_min a b).
Proof. rewrite Qcplus_0_l. unfold py_min. by destruct (decide _). Qed.

Lemma probability_avg a b :
  probability a → probability b → probability (0 + (half * a + half * b)).
Proof. unfold probability. intros [] []. split; qc_order. Qed.

Lemma probability_same a : probability a → probability (0 + a).
Proof. by rewrite Qcplus_0_l. Qed.

Lemma op_theoretical_probabilities cfg fuel :
  keeps probabilities2 (OnePlayer.get_theoretical_win_probability cfg fuel).
Proof.
  intros g r v r'. rewrite op_theoretical_solve.
  apply (solve_bounded _ _ _ probabilities2
           (λ w v, (0 ≤ v.1 ∧ v.1 ≤ w) ∧ (0 ≤ v.2 ∧ v.2 ≤ w))%Qc).
  - done.
  - intros w acc p x Hp [Ha1 Ha2] [Hx1 Hx2]. split; by apply within_add.
  - intros w h Hw [H1 H2]. split; by apply (within_final w).
  - intros g' result Ho. split; by eapply op_over_probability.
  - intros g' p. unfold OnePlayer.theoretical_plan. intros [= <-].
    destruct (turn g' =? 1); simpl; [done|].
    intros s h [Hs1 Hs2] [Hh1 Hh2]. split; [by apply probability_max|by apply probability_avg].
Qed.

Lemma op_ai_probabilities cfg a fuel :
  keeps probability (OnePlayer.get_ai_win_probability cfg a fuel).
Proof.
  intros g r v r'. rewrite op_ai_solve.
  apply (solve_bounded _ _ _ probability (λ w v, 0 ≤ v ∧ v ≤ w)%Qc).
  - done.
  - intros w acc p x Hp Ha Hx. by apply within_add.
  - intros w h Hw Hh. by apply (within_final w).
  - intros g' result Ho. by eapply op_over_probability.
  - intros g' p. rewrite op_ai_plan_ask. destruct (turn g' =? 1); [by intros [= <-]|].
    destruct (ask cfg a g') as [i| |]; simpl; [|done..]. intros [= <-].
    destruct (i =? 0); simpl; [|done]. intros s Hs. by apply probability_same.
Qed.

Lemma tp_theoretical_probabilities cfg fuel :
  keeps probabilities4 (TwoPlayer.get_theoretical_win_probability cfg fuel).
Proof.
  intros g r v r'. rewrite tp_theoretical_solve.
  apply (solve_bounded _ _ _ probabilities4
           (λ w v, (0 ≤ v.1.1.1 ∧ v.1.1.1 ≤ w) ∧ (0 ≤ v.1.1.2 ∧ v.1.1.2 ≤ w) ∧
                   (0 ≤ v.1.2 ∧ v.1.2 ≤ w) ∧ (0 ≤ v.2 ∧ v.2 ≤ w))%Qc).
  - done.
  - intros w acc p x Hp (Ha1 & Ha2 & Ha3 & Ha4) (Hx1 & Hx2 & Hx3 & Hx4).
    split; [|split; [|split]]; by apply within_add.
  - intros w h Hw (H1 & H2 & H3 & H4).
    split; [|split; [|split]]; by apply (within_final w).
  - intros g' result Ho. pose proof (tp_over_probability _ _ _ Ho).
    unfold probabilities4. simpl. auto.
  - intros g' p. unfold TwoPlayer.theoretical_plan. intros [= <-].
    destruct (turn g' =? 1); simpl;
      intros s h (Hs1 & Hs2 & Hs3 & Hs4) (Hh1 & Hh2 & Hh3 & Hh4);
      (split; [|split; [|split]]); simpl;
      auto using probability_max, probability_min, probability_avg.
Qed.

Lemma tp_ai_probabilities cfg pa da fuel :
  keeps probabilities3 (TwoPlayer.get_ai_win_probability cfg pa da fuel).
Proof.
  intros g r v r'. rewrite tp_ai_solve.
  apply (solve_bounded _ _ _ probabilities3
           (λ w v, (0 ≤ v.1.1 ∧ v.1.1 ≤ w) ∧ (0 ≤ v.1.2 ∧ v.1.2 ≤ w) ∧
                   (0 ≤ v.2 ∧ v.2 ≤ w))%Qc).
  - done.
  - intros w acc p x Hp (Ha1 & Ha2 & Ha3) (Hx1 & Hx2 & Hx3).
    split; [|split]; by apply within_add.
  - intros w h Hw (H1 & H2 & H3). split; [|split]; by apply (within_final w).
  - intros g' result Ho. pose proof (tp_over_probability _ _ _ Ho).
    unfold probabilities3. simpl. auto.
  - intros g' p. rewrite tp_ai_plan_ask.
    destruct (turn g' =? 1);
      (destruct (ask cfg _ g') as [i| |]; simpl; [|done..]; intros [= <-];
       unfold tp_agent_combine; simpl;
       intros s h (Hs1 & Hs2 & Hs3) (Hh1 & Hh2 & Hh3);
       destruct (i =? 0); (split; [|split]); simpl;
       auto using probability_same, probability_avg).
Qed.

(** * What a value is made of *)

Section EngineInversion.
Context {T : Type} `{Slots T}.
Variable over : BlackJack → bool * option Qc.
Variable terminal : Qc → T.
Variable plan_of : BlackJack → outcome (plan T).

Lemma hit_loop_unrecorded_inv (f : BlackJack → outcome T) who g cards acc r h r' :
  (∀ c, c ∈ cards → c ∈ deck g) →
  hit_loop (unrecorded f) who g cards acc r = Done (h, r') →
  ∃ V, (∀ c, c ∈ cards → f (drawn who g c) = Done (V c)) ∧
       h = added_up g V cards acc.
Proof.
  intros Hin E. exists (λ c, the_value slots_zero (f (drawn who g c))).
  revert acc Hin E. induction cards as [|c cards IH]; intros acc Hin E.
  { simpl in E. injection E as <- _. split; [|reflexivity]. by intros c ?%elem_of_nil. }
  assert (c ∈ deck g) as Hc by (apply Hin; left).
  simpl in E. unfold copy in E.
  rewrite (draw_prob_weight g c Hc), (hit_drawn who g c Hc) in E. simpl in E.
  change (unrecorded f (drawn who g c) r) with ((λ v, (v, r)) <$> f (drawn who g c)) in E.
  destruct (f (drawn who g c)) as [x| |] eqn:Ex; simpl in E; [|done..].
  destruct (IH _ (λ c' Hc', Hin c' (list_elem_of_further _ _ _ Hc')) E) as [HV ->].
  split.
  - intros c' [->|Hc']%elem_of_cons; [by rewrite Ex|by apply HV].
  - unfold added_up. simpl. by rewrite Ex.
Qed.

Lemma value_inv fuel g v :
  value over terminal plan_of (S fuel) g = Done v →
  (∃ result, over g = (true, Some result) ∧ v = terminal result) ∨
  ((over g).1 = false ∧ ∃ p, plan_of g = Done p ∧
     match p with
     | HitOnly who =>
         ∃ V, (∀ c, c ∈ deck g →
                 value over terminal plan_of fuel (drawn who g c) = Done (V c)) ∧
              v = added_up g V (np_unique (deck g)) slots_zero
     | StayOnly finish =>
         ∃ stay, value over terminal plan_of fuel (advance_turn g) = Done stay ∧
                 v = finish stay
     | StayAndHit who combine =>
         ∃ stay V, value over terminal plan_of fuel (advance_turn g) = Done stay ∧
                   (∀ c, c ∈ deck g →
                      value over terminal plan_of fuel (drawn who g c) = Done (V c)) ∧
                   v = combine stay (added_up g V (np_unique (deck g)) slots_zero)
     end).
Proof.
  cbn [value]. destruct (over g) as [[] [result|]] eqn:Ho; try done.
  { intros [= <-]. left. by exists result. }
  all: intros E; right; split; [done|];
    destruct (plan_of g) as [p| |]; simpl in E; [|done..];
    exists p; split; [done|];
    destruct (expand _ p g ∅) as [[x r]| |] eqn:Ex; simpl in E; [|done..];
    injection E as ->; unfold expand, copy in Ex;
    destruct p as [who|finish|who combine].
  all: try (destruct (hit_loop_unrecorded_inv _ _ _ _ _ _ _ _
               (λ c, proj1 (elem_of_np_unique c (deck g))) Ex) as (V & HV & ->);
            exists V; split; [|done]; intros c Hc; apply HV;
            by apply elem_of_np_unique).
  all: change (unrecorded (value over terminal plan_of fuel) (advance_turn g) ∅)
      with ((λ v, (v, (∅ : gmap key T))) <$> value over terminal plan_of fuel (advance_turn g))
      in Ex;
    destruct (value _ _ _ fuel (advance_turn g)) as [stay| |]; simpl in Ex; [|done..].
  all: try (injection Ex as <- _; by exists stay).
  all: destruct (hit_loop _ who g _ _ ∅) as [[h r']| |] eqn:Eh; simpl in Ex; [|done..];
    injection Ex as <- _;
    destruct (hit_loop_unrecorded_inv _ _ _ _ _ _ _ _
               (λ c, proj1 (elem_of_np_unique c (deck g))) Eh) as (V & HV & ->);
    exists stay, V; split; [done|]; split; [|done]; intros c Hc; apply HV;
    by apply elem_of_np_unique.
Qed.
End EngineInversion.

Lemma added_up3 g (V : Z → Qc * Qc * Qc) cards acc :
  added_up g V cards acc =
  (acc.1.1 + foldr (λ c s, draw_weight g c * (V c).1.1 + s) 0 cards,
   acc.1.2 + foldr (λ c s, draw_weight g c * (V c).1.2 + s) 0 cards,
   acc.2 + foldr (λ c s, draw_weight g c * (V c).2 + s) 0 cards)%Qc.
Proof.
  unfold added_up. revert acc.
  induction cards as [|c cards IH]; intros [[a1 a2] a3]; simpl.
  - by rewrite !Qcplus_0_r.
  - rewrite IH. simpl. by rewrite !Qcplus_assoc.
Qed.

Lemma draw_weight_nonneg g c : (0 ≤ draw_weight g c)%Qc.
Proof.
  apply Qcdiv_nonneg; apply Qc_of_Z_nonneg; unfold py_count, py_len; lia.
Qed.

Lemma weighted_mono g (f f' : Z → Qc) cards :
  (∀ c, c ∈ cards → (f c ≤ f' c)%Qc) →
  (foldr (λ c s, draw_weight g c * f c + s) 0 cards ≤
   foldr (λ c s, draw_weight g c * f' c + s) 0 cards)%Qc.
Proof.
  induction cards as [|c cards IH]; intros Hf; simpl; [done|].
  apply Qcplus_le_compat.
  - rewrite !(Qcmult_comm (draw_weight g c)).
    apply Qcmult_le_compat_r; [apply Hf; left|apply draw_weight_nonneg].
  - apply IH. intros c' Hc'. apply Hf. by right.
Qed.

Lemma weighted_ext g (f f' : Z → Qc) cards :
  (∀ c, c ∈ cards → f c = f' c) →
  foldr (λ c s, draw_weight g c * f c + s)%Qc 0%Qc cards =
  foldr (λ c s, draw_weight g c * f' c + s)%Qc 0%Qc cards.
Proof.
  intros Hf. apply foldr_ext_elem_of. intros c s Hc. by rewrite (Hf c Hc).
Qed.

Lemma py_max_ge_l (a b : Qc) : (a ≤ py_max a b)%Qc.
Proof. unfold py_max. destruct (decide (a < b)%Qc); [by apply Qclt_le_weak|done]. Qed.

Lemma py_max_ge_r (a b : Qc) : (b ≤ py_max a b)%Qc.
Proof. unfold py_max. destruct (decide (a < b)%Qc); [done|by apply Qcnot_lt_le]. Qed.

Lemma py_min_le_l (a b : Qc) : (py_min a b ≤ a)%Qc.
Proof. unfold py_min. destruct (decide (b < a)%Qc); [by apply Qclt_le_weak|done]. Qed.

Lemma py_min_le_r (a b : Qc) : (py_min a b ≤ b)%Qc.
Proof. unfold py_min. destruct (decide (b < a)%Qc); [done|by apply Qcnot_lt_le]. Qed.

(** * The calls of the policy solvers with a fresh record *)

Lemma op_ai_value cfg a fuel g :
  turn g ≤ 1 → (OnePlayer.fuel_for g ≤ fuel)%nat →
  op_value_ai cfg a fuel g = OnePlayer.ai_win_probability cfg a g.
Proof.
  intros Ht Hf.
  assert (settled (op_value_ai cfg a (OnePlayer.fuel_for g) g)) as Hs.
  { apply (value_settled _ _ _ 1); [apply op_ai_plan_settled
      |apply op_ai_stay_turn|done|unfold rank, OnePlayer.fuel_for; lia]. }
  unfold OnePlayer.ai_win_probability. rewrite op_ai_solve.
  rewrite solve_value;
    [|apply op_over_key|apply op_ai_plan_key|apply sound_empty|done].
  by apply value_le.
Qed.

Lemma tp_ai_value cfg pa da fuel g :
  turn g ≤ 2 → (TwoPlayer.fuel_for g ≤ fuel)%nat →
  tp_value_ai cfg pa da fuel g = TwoPlayer.ai_win_probability cfg pa da g.
Proof.
  intros Ht Hf.
  assert (settled (tp_value_ai cfg pa da (TwoPlayer.fuel_for g) g)) as Hs.
  { apply (value_settled _ _ _ 2); [apply tp_ai_plan_settled
      |apply tp_ai_stay_turn|done|unfold rank, TwoPlayer.fuel_for; lia]. }
  unfold TwoPlayer.ai_win_probability. rewrite tp_ai_solve.
  rewrite solve_value;
    [|apply tp_over_key|apply tp_ai_plan_key|apply sound_empty|done].
  by apply value_le.
Qed.

(** * No agent does better than the optimal strategy *)

Lemma op_value_ai_le_optimal cfg a fuel g p v :
  op_value_ai cfg a fuel g = Done p → op_value_th cfg fuel g = Done v → (p ≤ v.1)%Qc.
Proof.
  revert g p v. induction fuel as [|fuel IH]; intros g p v Ea Et; [done|].
  apply value_inv in Ea, Et.
  destruct Ea as [(res & Ho & ->)|(Ho & pa & Epa & Ea)].
  { destruct Et as [(res' & Ho' & ->)|(Ho' & _)]; [|by rewrite Ho in Ho'].
    rewrite Ho in Ho'. by injection Ho' as <-. }
  destruct Et as [(res' & Ho' & _)|(_ & pt & Ept & Et)]; [by rewrite Ho' in Ho|].
  rewrite op_ai_plan_ask in Epa. unfold OnePlayer.theoretical_plan in Ept.
  injection Ept as <-.
  destruct (turn g =? 1).
  - injection Epa as <-. destruct Ea as (Va & HVa & ->), Et as (Vt & HVt & ->).
    rewrite added_up1, added_up2. simpl. rewrite !Qcplus_0_l.
    apply weighted_mono. intros c Hc. apply (proj1 (elem_of_np_unique _ _)) in Hc. eapply IH; eauto.
  - destruct (ask cfg a g) as [i| |]; simpl in Epa; [|done..]. injection Epa as <-.
    destruct Et as (stay & Vt & Es & HVt & ->). simpl. rewrite Qcplus_0_l.
    destruct (i =? 0).
    + destruct Ea as (sa & Esa & ->). rewrite Qcplus_0_l.
      etrans; [|apply py_max_ge_l]. eapply IH; eauto.
    + destruct Ea as (Va & HVa & ->). rewrite added_up1, added_up2. simpl.
      rewrite !Qcplus_0_l. etrans; [|apply py_max_ge_r].
      apply weighted_mono. intros c Hc. apply (proj1 (elem_of_np_unique _ _)) in Hc. eapply IH; eauto.
Qed.

Lemma tp_value_ai_between cfg pa da fuel g p v :
  tp_value_ai cfg pa da fuel g = Done p → tp_value_th cfg fuel g = Done v →
  (p.1.2 ≤ v.1.1.2)%Qc ∧ (v.1.2 ≤ p.2)%Qc.
Proof.
  revert g p v. induction fuel as [|fuel IH]; intros g p v Ea Et; [done|].
  apply value_inv in Ea, Et.
  destruct Ea as [(res & Ho & ->)|(Ho & qa & Epa & Ea)].
  { destruct Et as [(res' & Ho' & ->)|(Ho' & _)]; [|by rewrite Ho in Ho'].
    rewrite Ho in Ho'. by injection Ho' as <-. }
  destruct Et as [(res' & Ho' & _)|(_ & pt & Ept & Et)]; [by rewrite Ho' in Ho|].
  rewrite tp_ai_plan_ask in Epa. unfold TwoPlayer.theoretical_plan in Ept.
  injection Ept as <-.
  destruct (turn g =? 1);
    (destruct (ask cfg _ g) as [i| |]; simpl in Epa; [|done..]; injection Epa as <-;
     destruct Et as (st & Vt & Est & HVt & ->), Ea as (sa & Va & Esa & HVa & ->);
     destruct (IH _ _ _ Esa Est) as [Hs1 Hs2];
     assert (∀ c, c ∈ np_unique (deck g) →
               ((Va c).1.2 ≤ (Vt c).1.1.2)%Qc ∧ ((Vt c).1.2 ≤ (Va c).2)%Qc) as HV
       by (intros c Hc; apply (proj1 (elem_of_np_unique _ _)) in Hc; eapply IH; eauto);
     rewrite added_up3, added_up4; destruct (i =? 0); simpl; rewrite !Qcplus_0_l).
  - split; [apply avg_mono; [done|apply weighted_mono, HV]|].
    etrans; [apply py_min_le_l|done].
  - split; [apply avg_mono; [done|apply weighted_mono, HV]|].
    etrans; [apply py_min_le_r|]. apply weighted_mono, HV.
  - split; [etrans; [|apply py_max_ge_l]; done|].
    apply avg_mono; [done|apply weighted_mono, HV].
  - split; [etrans; [|apply py_max_ge_r]; apply weighted_mono, HV|].
    apply avg_mono; [done|apply weighted_mono, HV].
Qed.

(** * The slot of a random party ignores the agent of that party *)

Lemma tp_value_ai_random_dealer cfg pa da da' fuel g p p' :
  tp_value_ai cfg pa da fuel g = Done p → tp_value_ai cfg pa da' fuel g = Done p' →
  p.1.2 = p'.1.2.
Proof.
  revert g p p'. induction fuel as [|fuel IH]; intros g p p' E E'; [done|].
  apply value_inv in E, E'.
  destruct E as [(res & Ho & ->)|(Ho & q & Eq & E)].
  { destruct E' as [(res' & Ho' & ->)|(Ho' & _)]; [|by rewrite Ho in Ho'].
    rewrite Ho in Ho'. by injection Ho' as <-. }
  destruct E' as [(res' & Ho' & _)|(_ & q' & Eq' & E')]; [by rewrite Ho' in Ho|].
  rewrite tp_ai_plan_ask in Eq, Eq'.
  destruct (turn g =? 1).
  - destruct (ask cfg da g) as [i| |]; simpl in Eq; [|done..]; injection Eq as <-.
    destruct (ask cfg da' g) as [i'| |]; simpl in Eq'; [|done..]; injection Eq' as <-.
    destruct E as (s & V & Es & HV & ->), E' as (s' & V' & Es' & HV' & ->).
    rewrite !added_up3.
    assert (foldr (λ c x, draw_weight g c * (V c).1.2 + x)%Qc 0%Qc (np_unique (deck g)) =
            foldr (λ c x, draw_weight g c * (V' c).1.2 + x)%Qc 0%Qc (np_unique (deck g)))
      as ->.
    { apply weighted_ext. intros c Hc. apply (proj1 (elem_of_np_unique _ _)) in Hc.
      eapply IH; eauto. }
    rewrite (IH _ _ _ Es Es'). by destruct (i =? 0), (i' =? 0).
  - destruct (ask cfg pa g) as [i| |]; simpl in Eq, Eq'; [|done..].
    injection Eq as <-. injection Eq' as <-.
    destruct E as (s & V & Es & HV & ->), E' as (s' & V' & Es' & HV' & ->).
    rewrite !added_up3.
    assert (foldr (λ c x, draw_weight g c * (V c).1.2 + x)%Qc 0%Qc (np_unique (deck g)) =
            foldr (λ c x, draw_weight g c * (V' c).1.2 + x)%Qc 0%Qc (np_unique (deck g)))
      as Eh.
    { apply weighted_ext. intros c Hc. apply (proj1 (elem_of_np_unique _ _)) in Hc.
      eapply IH; eauto. }
    destruct (i =? 0); simpl; [by rewrite (IH _ _ _ Es Es')|by rewrite Eh].
Qed.

Lemma tp_value_ai_random_player cfg pa pa' da fuel g p p' :
  tp_value_ai cfg pa da fuel g = Done p → tp_value_ai cfg pa' da fuel g = Done p' →
  p.2 = p'.2.
Proof.
  revert g p p'. induction fuel as [|fuel IH]; intros g p p' E E'; [done|].
  apply value_inv in E, E'.
  destruct E as [(res & Ho & ->)|(Ho & q & Eq & E)].
  { destruct E' as [(res' & Ho' & ->)|(Ho' & _)]; [|by rewrite Ho in Ho'].
    rewrite Ho in Ho'. by injection Ho' as <-. }
  destruct E' as [(res' & Ho' & _)|(_ & q' & Eq' & E')]; [by rewrite Ho' in Ho|].
  rewrite tp_ai_plan_ask in Eq, Eq'.
  destruct (turn g =? 1).
  - destruct (ask cfg da g) as [i| |]; simpl in Eq, Eq'; [|done..].
    injection Eq as <-. injection Eq' as <-.
    destruct E as (s & V & Es & HV & ->), E' as (s' & V' & Es' & HV' & ->).
    rewrite !added_up3.
    assert (foldr (λ c x, draw_weight g c * (V c).2 + x)%Qc 0%Qc (np_unique (deck g)) =
            foldr (λ c x, draw_weight g c * (V' c).2 + x)%Qc 0%Qc (np_unique (deck g)))
      as Eh.
    { apply weighted_ext. intros c Hc. apply (proj1 (elem_of_np_unique _ _)) in Hc.
      eapply IH; eauto. }
    destruct (i =? 0); simpl; [by rewrite (IH _ _ _ Es Es')|by rewrite Eh].
  - destruct (ask cfg pa g) as [i| |]; simpl in Eq; [|done..]; injection Eq as <-.
    destruct (ask cfg pa' g) as [i'| |]; simpl in Eq'; [|done..]; injection Eq' as <-.
    destruct E as (s & V & Es & HV & ->), E' as (s' & V' & Es' & HV' & ->).
    rewrite !added_up3.
    assert (foldr (λ c x, draw_weight g c * (V c).2 + x)%Qc 0%Qc (np_unique (deck g)) =
            foldr (λ c x, draw_weight g c * (V' c).2 + x)%Qc 0%Qc (np_unique (deck g)))
      as ->.
    { apply weighted_ext. intros c Hc. apply (proj1 (elem_of_np_unique _ _)) in Hc.
      eapply IH; eauto. }
    rewrite (IH _ _ _ Es Es'). by destruct (i =? 0), (i' =? 0).
Qed.

(** * Once the player has stayed, the strategy of the player is of no account *)

Lemma op_value_th_dealer_turn cfg fuel g v :
  turn g = 1 → op_value_th cfg fuel g = Done v → v.1 = v.2.
Proof.
  revert g v. induction fuel as [|fuel IH]; intros g v Ht E; [done|].
  apply value_inv in E.
  destruct E as [(res & Ho & ->)|(Ho & p & Ep & E)]; [done|].
  unfold OnePlayer.theoretical_plan in Ep. rewrite Ht in Ep. injection Ep as <-.
  destruct E as (V & HV & ->). rewrite added_up2. simpl.
  rewrite (weighted_ext g (λ c, (V c).1) (λ c, (V c).2)); [done|].
  intros c Hc. apply (proj1 (elem_of_np_unique _ _)) in Hc.
  eapply IH; [|by apply HV]. done.
Qed.

Lemma tp_value_th_dealer_turn cfg fuel g v :
  1 ≤ turn g ≤ 2 → tp_value_th cfg fuel g = Done v →
  v.1.1.1 = v.1.2 ∧ v.1.1.2 = v.2.
Proof.
  revert g v. induction fuel as [|fuel IH]; intros g v Ht E; [done|].
  apply value_inv in E.
  destruct E as [(res & Ho & ->)|(Ho & p & Ep & E)]; [done|].
  assert (turn g = 1) as Ht1 by (apply tp_over_turn in Ho; lia).
  unfold TwoPlayer.theoretical_plan in Ep. rewrite Ht1 in Ep. injection Ep as <-.
  destruct E as (s & V & Es & HV & ->).
  destruct (IH _ _ (ltac:(simpl; lia) : 1 ≤ turn (advance_turn g) ≤ 2) Es) as [Hs1 Hs2].
  assert (∀ c, c ∈ np_unique (deck g) →
            (V c).1.1.1 = (V c).1.2 ∧ (V c).1.1.2 = (V c).2) as HV'.
  { intros c Hc. apply (proj1 (elem_of_np_unique _ _)) in Hc.
    eapply IH; [|by apply HV]. simpl. lia. }
  rewrite added_up4. simpl.
  rewrite Hs1, Hs2, (weighted_ext g (λ c, (V c).1.1.1) (λ c, (V c).1.2)),
    (weighted_ext g (λ c, (V c).1.1.2) (λ c, (V c).2)); [done|..];
    intros c Hc; apply HV', Hc.
Qed.

Lemma tp_value_ai_dealer_turn cfg pa da fuel g p :
  1 ≤ turn g ≤ 2 → tp_value_ai cfg pa da fuel g = Done p → p.1.1 = p.2.
Proof.
  revert g p. induction fuel as [|fuel IH]; intros g p Ht E; [done|].
  apply value_inv in E.
  destruct E as [(res & Ho & ->)|(Ho & q & Eq & E)]; [done|].
  assert (turn g = 1) as Ht1 by (apply tp_over_turn in Ho; lia).
  rewrite tp_ai_plan_ask, Ht1 in Eq. simpl in Eq.
  destruct (ask cfg da g) as [i| |]; simpl in Eq; [|done..]. injection Eq as <-.
  destruct E as (s & V & Es & HV & ->).
  pose proof (IH _ _ (ltac:(simpl; lia) : 1 ≤ turn (advance_turn g) ≤ 2) Es) as Hs.
  rewrite added_up3. destruct (i =? 0); simpl; [by rewrite Hs|].
  rewrite (weighted_ext g (λ c, (V c).1.1) (λ c, (V c).2)); [done|].
  intros c Hc. apply (proj1 (elem_of_np_unique _ _)) in Hc.
  eapply IH; [|by apply HV]. simpl. lia.
Qed.

(** * The record only grows *)

Lemma py_sorted_length (l : list Z) : length (py_sorted l) = length l.
Proof. unfold py_sorted. by rewrite merge_sort_Permutation. Qed.

Lemma reachable_key_self g : reachable_key g (get_game_state_representation g).
Proof. unfold reachable_key. simpl. rewrite py_sorted_length. lia. Qed.

Lemma reachable_key_stay g k :
  reachable_key (advance_turn g) k →
  reachable_key g k ∧ k ≠ get_game_state_representation g.
Proof.
  unfold reachable_key. simpl. intros [Hl Ht]. split; [lia|].
  intros ->. simpl in Ht. lia.
Qed.

Lemma reachable_key_hit who g c g' k :
  hit who g c = Done g' → reachable_key g' k →
  reachable_key g k ∧ k ≠ get_game_state_representation g.
Proof.
  intros [Hl Ht]%hit_Done. unfold reachable_key. rewrite Ht, Hl. intros [Hl' Ht'].
  split; [lia|]. intros ->. simpl in Hl'. rewrite py_sorted_length in Hl'. lia.
Qed.

Section EngineGrowth.
Context {T : Type} `{Slots T}.
Variable over : BlackJack → bool * option Qc.
Variable terminal : Qc → T.
Variable plan_of : BlackJack → outcome (plan T).

Lemma hit_loop_grows (rec : solver T) who g cards acc r v r' :
  grows rec → hit_loop rec who g cards acc r = Done (v, r') →
  r ⊆ r' ∧ ∀ k, is_Some (r' !! k) →
    is_Some (r !! k) ∨ (reachable_key g k ∧ k ≠ get_game_state_representation g).
Proof.
  intros Hrec. revert acc r.
  induction cards as [|c cards IH]; intros acc r.
  { intros [= <- <-]. split; [done|]. auto. }
  simpl. unfold copy.
  destruct (draw_prob g c) as [p| |]; simpl; [|done..].
  destruct (hit who g c) as [g'| |] eqn:Eh; simpl; [|done..].
  destruct (rec g' r) as [[x r1]| |] eqn:E; simpl; [|done..].
  destruct (Hrec _ _ _ _ E) as [Hs Hk]. intros El.
  destruct (IH _ _ El) as [Hs' Hk']. split; [by etrans|].
  intros k Hin. destruct (Hk' k Hin) as [Hin1|]; [|by right].
  destruct (Hk k Hin1) as [|Hr]; [by left|right]. by eapply reachable_key_hit.
Qed.

Lemma expand_grows (rec : solver T) p g r v r' :
  grows rec → expand rec p g r = Done (v, r') →
  r ⊆ r' ∧ ∀ k, is_Some (r' !! k) →
    is_Some (r !! k) ∨ (reachable_key g k ∧ k ≠ get_game_state_representation g).
Proof.
  intros Hrec. unfold expand, copy. destruct p as [who|fin|who comb].
  - by apply hit_loop_grows.
  - destruct (rec (advance_turn g) r) as [[s r1]| |] eqn:E; simpl; [|done..].
    destruct (Hrec _ _ _ _ E) as [Hs Hk]. intros [= <- <-]. split; [done|].
    intros k Hin. destruct (Hk k Hin) as [|Hr]; [by left|right].
    by apply reachable_key_stay.
  - destruct (rec (advance_turn g) r) as [[s r1]| |] eqn:E; simpl; [|done..].
    destruct (Hrec _ _ _ _ E) as [Hs Hk].
    destruct (hit_loop rec who g _ _ r1) as [[h r2]| |] eqn:E'; simpl; [|done..].
    destruct (hit_loop_grows _ _ _ _ _ _ _ _ Hrec E') as [Hs' Hk'].
    intros [= <- <-]. split; [by etrans|].
    intros k Hin. destruct (Hk' k Hin) as [Hin1|]; [|by right].
    destruct (Hk k Hin1) as [|Hr]; [by left|right]. by apply reachable_key_stay.
Qed.

Lemma solve_grows fuel : grows (solve over terminal plan_of fuel).
Proof.
  induction fuel as [|fuel IH]; intros g r v r'; [done|].
  simpl. destruct (r !! _) as [x|] eqn:El.
  { intros [= <- <-]. split; [done|]. auto. }
  destruct (over g) as [[] [res|]]; try done;
    try (intros [= <- <-]; split; [done|]; by auto);
    (destruct (plan_of g) as [p| |]; simpl; [|done..];
     destruct (expand _ p g r) as [[x r1]| |] eqn:E; simpl; [|done..];
     destruct (expand_grows _ _ _ _ _ _ IH E) as [Hs Hk];
     intros [= <- <-];
     assert (r1 !! get_game_state_representation g = None) as Hnone
       by (destruct (r1 !! get_game_state_representation g) as [y|] eqn:Ey; [|done];
           destruct (Hk _ (mk_is_Some _ _ Ey)) as [[z Hz]|[_ Hne]];
           [by rewrite El in Hz|done]);
     split; [etrans; [exact Hs|by apply insert_subseteq]|];
     intros k; destruct (decide (k = get_game_state_representation g)) as [->|Hne];
     [intros _; right; apply reachable_key_self|];
     rewrite lookup_insert_ne by done; intros Hin;
     destruct (Hk k Hin) as [|[? _]]; auto).
Qed.

(** A second call is answered as the first, and leaves the record as it
    is. *)
Lemma solve_again fuel fuel' g r v r' :
  solve over terminal plan_of fuel g r = Done (v, r') →
  solve over terminal plan_of (S fuel') g r' = Done (v, r').
Proof.
  destruct fuel as [|fuel]; [done|]. simpl.
  destruct (r !! _) as [x|] eqn:El.
  { intros [= <- <-]. by rewrite El. }
  destruct (over g) as [[] [res|]]; try done;
    try (intros [= <- <-]; by rewrite El);
    (destruct (plan_of g) as [p| |]; simpl; [|done..];
     destruct (expand _ p g r) as [[x r1]| |] eqn:E; simpl; [|done..];
     intros [= <- <-]; by rewrite lookup_insert_eq).
Qed.
End EngineGrowth.

Lemma py_min_le_avg (a b : Qc) : (py_min a b ≤ half * a + half * b)%Qc.
Proof.
  unfold py_min. destruct (decide (b < a)%Qc) as [Hlt|Hge].
  - qc_order.
  - apply Qcnot_lt_le in Hge. qc_order.
Qed.

Lemma py_max_mono (a b a' b' : Qc) : (a ≤ a' → b ≤ b' → py_max a b ≤ py_max a' b')%Qc.
Proof.
  intros Ha Hb. unfold py_max.
  destruct (decide (a < b)%Qc) as [H1|H1], (decide (a' < b')%Qc) as [H2|H2];
    try apply Qcnot_lt_le in H1; try apply Qcnot_lt_le in H2; qc_order.
Qed.

Lemma tp_theoretical_dealer_ordered cfg fuel :
  keeps tp_dealer_ordered (TwoPlayer.get_theoretical_win_probability cfg fuel).
Proof.
  intros g r v r'. rewrite tp_theoretical_solve. apply solve_keeps.
  - unfold tp_dealer_ordered. simpl. done.
  - unfold tp_dealer_ordered. simpl. intros acc p w Hp [Ha1 Ha2] [Hw1 Hw2].
    split; by apply add_scaled_mono.
  - unfold tp_dealer_ordered. simpl. done.
  - intros g' p. unfold TwoPlayer.theoretical_plan. intros [= <-].
    destruct (turn g' =? 1); simpl; unfold tp_dealer_ordered; simpl;
      intros s h [Hs1 Hs2] [Hh1 Hh2]; rewrite !Qcplus_0_l.
    + split; (etrans; [apply py_min_le_avg|]); by apply avg_mono.
    + split; [by apply py_max_mono|by apply avg_mono].
Qed.

Lemma tp_ai_turn_beyond_range cfg pa da fuel g v r :
  3 ≤ turn g → TwoPlayer.get_ai_win_probability cfg pa da fuel g ∅ ≠ Done (v, r).
Proof.
  revert g v r. induction fuel as [|fuel IH]; intros g v r Ht; [done|].
  simpl. rewrite lookup_empty. unfold TwoPlayer.is_game_over.
  destruct (Z.eqb_spec (turn g) 0) as [E|_]; [lia|].
  destruct (Z.eqb_spec (turn g) 1) as [E|_]; [lia|].
  destruct (Z.eqb_spec (turn g) 2) as [E|_]; [lia|].
  simpl. destruct (get_features cfg g) as [features| |]; simpl; [|done..].
  destruct (get_argmax_action_index pa features) as [i| |]; simpl; [|done..].
  destruct (TwoPlayer.get_ai_win_probability cfg pa da fuel (advance_turn (copy g)) ∅)
    as [[s r1]| |] eqn:E; simpl; [|done..].
  exfalso. apply (IH (advance_turn (copy g)) s r1); [unfold copy; simpl; lia|done].
Qed.

(** * Further properties of the solvers *)

(** X3. In the one-player game no agent does better than the optimal
    strategy: what [get_ai_win_probability] returns for a state, from a
    fresh record, is at most the optimal component of what
    [get_theoretical_win_probability] returns for it. *)
Theorem no_agent_beats_the_optimal_player (cfg : Config) (a : agent) (g : BlackJack)
    (p : Qc) (v : Qc * Qc) :
  OnePlayer.ai_win_probability cfg a g = Done p →
  OnePlayer.theoretical_win_probability cfg g = Done v →
  (p ≤ v.1)%Qc.
Proof.
  intros Ea Et. destruct (decide (turn g ≤ 1)) as [Ht|Ht].
  - rewrite <- (op_ai_value cfg a (OnePlayer.fuel_for g)) in Ea by done.
    rewrite <- (op_theoretical_value cfg (OnePlayer.fuel_for g)) in Et by done.
    by eapply op_value_ai_le_optimal.
  - unfold OnePlayer.theoretical_win_probability in Et.
    rewrite op_turn_beyond_range in Et; [done|lia].
Qed.

Lemma no_agent_beats_the_optimal_player_witness :
  ∃ p v, OnePlayer.ai_win_probability small_cfg (λ _, Action 1) small_game = Done p ∧
         OnePlayer.theoretical_win_probability small_cfg small_game = Done v ∧
         (p ≤ v.1)%Qc.
Proof.
  destruct (OnePlayer.ai_win_probability small_cfg (λ _, Action 1) small_game)
    as [p| |] eqn:Ea; [|exfalso; revert Ea; vm_compute; discriminate..].
  destruct (OnePlayer.theoretical_win_probability small_cfg small_game)
    as [v| |] eqn:Et; [|exfalso; revert Et; vm_compute; discriminate..].
  exists p, v. split; [reflexivity|]. split; [reflexivity|].
  exact (no_agent_beats_the_optimal_player small_cfg (λ _, Action 1) small_game p v Ea Et).
Defined.

(** X4. In the two-player game an agent is bounded by the optimal strategy
    of its party: against the random dealer the agent of the player wins at
    most as often as the optimal player ([aprd <= oprd]), and the random
    player wins against the agent of the dealer at least as often as against
    the optimal dealer ([rpod <= rpad]). *)
Theorem agents_are_bounded_by_the_optimal_strategies (cfg : Config)
    (player_agent dealer_agent : agent) (g : BlackJack)
    (p : Qc * Qc * Qc) (v : Qc * Qc * Qc * Qc) :
  TwoPlayer.ai_win_probability cfg player_agent dealer_agent g = Done p →
  TwoPlayer.theoretical_win_probability cfg g = Done v →
  (p.1.2 ≤ v.1.1.2)%Qc ∧ (v.1.2 ≤ p.2)%Qc.
Proof.
  intros Ea Et. destruct (decide (turn g ≤ 2)) as [Ht|Ht].
  - rewrite <- (tp_ai_value cfg _ _ (TwoPlayer.fuel_for g)) in Ea by done.
    rewrite <- (tp_theoretical_value cfg (TwoPlayer.fuel_for g)) in Et by done.
    by eapply tp_value_ai_between.
  - unfold TwoPlayer.theoretical_win_probability in Et.
    rewrite tp_turn_beyond_range in Et; [done|lia].
Qed.

Lemma agents_are_bounded_by_the_optimal_strategies_witness :
  ∃ p v,
    TwoPlayer.ai_win_probability small_cfg (λ _, Action 1) (λ _, Action 0) small_game
      = Done p ∧
    TwoPlayer.theoretical_win_probability small_cfg small_game = Done v ∧
    (p.1.2 ≤ v.1.1.2)%Qc ∧ (v.1.2 ≤ p.2)%Qc.
Proof.
  destruct (TwoPlayer.ai_win_probability small_cfg (λ _, Action 1) (λ _, Action 0)
              small_game) as [p| |] eqn:Ea;
    [|exfalso; revert Ea; vm_compute; discriminate..].
  destruct (TwoPlayer.theoretical_win_probability small_cfg small_game)
    as [v| |] eqn:Et; [|exfalso; revert Et; vm_compute; discriminate..].
  exists p, v. split; [reflexivity|]. split; [reflexivity|].
  exact (agents_are_bounded_by_the_optimal_strategies small_cfg _ _ small_game p v Ea Et).
Defined.

(** X5. The slot of a random party does not depend on the agent passed
    for that party, as [train] assumes when it passes one agent twice: with
    the same agent of the player, two agents of the dealer give the same
    [aprd]; with the same agent of the dealer, two agents of the player give
    the same [rpad]. *)
Theorem random_slot_ignores_the_agent_of_that_party (cfg : Config)
    (player_agent player_agent' dealer_agent dealer_agent' : agent) (g : BlackJack)
    (p : Qc * Qc * Qc) :
  TwoPlayer.ai_win_probability cfg player_agent dealer_agent g = Done p →
  (∀ p', TwoPlayer.ai_win_probability cfg player_agent dealer_agent' g = Done p' →
         p'.1.2 = p.1.2) ∧
  (∀ p', TwoPlayer.ai_win_probability cfg player_agent' dealer_agent g = Done p' →
         p'.2 = p.2).
Proof.
  intros E. destruct (decide (turn g ≤ 2)) as [Ht|Ht].
  - rewrite <- (tp_ai_value cfg _ _ (TwoPlayer.fuel_for g)) in E by done.
    split; intros p' E';
      rewrite <- (tp_ai_value cfg _ _ (TwoPlayer.fuel_for g)) in E' by done.
    + symmetry. by eapply tp_value_ai_random_dealer.
    + symmetry. by eapply tp_value_ai_random_player.
  - exfalso. unfold TwoPlayer.ai_win_probability in E.
    destruct (TwoPlayer.get_ai_win_probability cfg _ _ _ g ∅) as [[v r]| |] eqn:E';
      [|done..].
    apply tp_ai_turn_beyond_range in E'; [done|lia].
Qed.

Lemma random_slot_ignores_the_agent_of_that_party_witness :
  ∃ p p',
    TwoPlayer.ai_win_probability small_cfg (λ _, Action 1) (λ _, Action 0) small_game
      = Done p ∧
    TwoPlayer.ai_win_probability small_cfg (λ _, Action 1) (λ _, Action 1) small_game
      = Done p' ∧
    p'.1.2 = p.1.2.
Proof.
  destruct (TwoPlayer.ai_win_probability small_cfg (λ _, Action 1) (λ _, Action 0)
              small_game) as [p| |] eqn:E;
    [|exfalso; revert E; vm_compute; discriminate..].
  destruct (TwoPlayer.ai_win_probability small_cfg (λ _, Action 1) (λ _, Action 1)
              small_game) as [p'| |] eqn:E';
    [|exfalso; revert E'; vm_compute; discriminate..].
  exists p, p'. split; [reflexivity|]. split; [reflexivity|].
  exact (proj1 (random_slot_ignores_the_agent_of_that_party small_cfg (λ _, Action 1)
                  (λ _, Action 1) (λ _, Action 0) (λ _, Action 1) small_game p E) p' E').
Defined.

(** X6. What the comments of the solvers say of the dealer's turn: once
    the player has stayed, the strategy of the player is of no account.  At
    a state of the dealer's turn the one-player solver returns the same
    number for the optimal and for the random player; the two-player solver
    returns [opod = rpod] and [oprd = rprd], and the two-player policy
    solver [apad = rpad]. *)
Theorem player_strategy_is_of_no_account_after_the_stay (cfg : Config)
    (player_agent dealer_agent : agent) (g : BlackJack) :
  (turn g = 1 →
   ∀ v, OnePlayer.theoretical_win_probability cfg g = Done v → v.1 = v.2) ∧
  (1 ≤ turn g ≤ 2 →
   ∀ v, TwoPlayer.theoretical_win_probability cfg g = Done v →
        v.1.1.1 = v.1.2 ∧ v.1.1.2 = v.2) ∧
  (1 ≤ turn g ≤ 2 →
   ∀ p, TwoPlayer.ai_win_probability cfg player_agent dealer_agent g = Done p →
        p.1.1 = p.2).
Proof.
  split; [|split].
  - intros Ht v E.
    rewrite <- (op_theoretical_value cfg (OnePlayer.fuel_for g)) in E by lia.
    by eapply op_value_th_dealer_turn.
  - intros Ht v E.
    rewrite <- (tp_theoretical_value cfg (TwoPlayer.fuel_for g)) in E by lia.
    by eapply tp_value_th_dealer_turn.
  - intros Ht p E.
    rewrite <- (tp_ai_value cfg _ _ (TwoPlayer.fuel_for g)) in E by lia.
    by eapply tp_value_ai_dealer_turn.
Qed.

Lemma player_strategy_is_of_no_account_after_the_stay_witness :
  turn small_dealer_game = 1 ∧
  ∃ v, OnePlayer.theoretical_win_probability small_cfg small_dealer_game = Done v ∧
       v.1 = v.2.
Proof.
  split; [reflexivity|].
  destruct (OnePlayer.theoretical_win_probability small_cfg small_dealer_game)
    as [v| |] eqn:E; [|exfalso; revert E; vm_compute; discriminate..].
  exists v. split; [reflexivity|].
  exact (proj1 (player_strategy_is_of_no_account_after_the_stay small_cfg
                  (λ _, Action 0) (λ _, Action 0) small_dealer_game) eq_refl v E).
Defined.

(** X7. In the two-player game the optimal dealer leaves the player at
    most what the random dealer leaves, against the same player:
    [opod <= oprd] and [rpod <= rprd], for every call of
    [get_theoretical_win_probability] on a record whose entries are so
    ordered, which leaves such a record. *)
Theorem optimal_dealer_at_most_random_dealer (cfg : Config) (fuel : nat) (g : BlackJack)
    (r r' : gmap key (Qc * Qc * Qc * Qc)) (v : Qc * Qc * Qc * Qc) :
  map_Forall (λ _, tp_dealer_ordered) r →
  TwoPlayer.get_theoretical_win_probability cfg fuel g r = Done (v, r') →
  ((v.1.1.1 ≤ v.1.1.2)%Qc ∧ (v.1.2 ≤ v.2)%Qc) ∧ map_Forall (λ _, tp_dealer_ordered) r'.
Proof. apply tp_theoretical_dealer_ordered. Qed.

Lemma optimal_dealer_at_most_random_dealer_witness :
  ∃ v r', TwoPlayer.get_theoretical_win_probability small_cfg 5 small_game ∅
            = Done (v, r') ∧
          (v.1.1.1 ≤ v.1.1.2)%Qc ∧ (v.1.2 ≤ v.2)%Qc.
Proof.
  destruct (TwoPlayer.get_theoretical_win_probability small_cfg 5 small_game ∅)
    as [[v r']| |] eqn:E; [|exfalso; revert E; vm_compute; discriminate..].
  exists v, r'. split; [reflexivity|].
  exact (proj1 (optimal_dealer_at_most_random_dealer small_cfg 5 small_game ∅ r' v
                  (map_Forall_empty _) E)).
Defined.

(** X8. The record only grows: a call of a solver that returns keeps every
    entry of the record it was given, with its value; an entry is written
    once and never overwritten or deleted. *)
Theorem record_only_grows (cfg : Config) (a player_agent dealer_agent : agent)
    (fuel : nat) (g : BlackJack) :
  (∀ r v r', OnePlayer.get_theoretical_win_probability cfg fuel g r = Done (v, r') →
             r ⊆ r') ∧
  (∀ r v r', OnePlayer.get_ai_win_probability cfg a fuel g r = Done (v, r') →
             r ⊆ r') ∧
  (∀ r v r', TwoPlayer.get_theoretical_win_probability cfg fuel g r = Done (v, r') →
             r ⊆ r') ∧
  (∀ r v r', TwoPlayer.get_ai_win_probability cfg player_agent dealer_agent fuel g r
               = Done (v, r') →
             r ⊆ r').
Proof.
  split; [|split; [|split]]; intros r v r'.
  - rewrite op_theoretical_solve. intros E. by apply solve_grows in E as [? _].
  - rewrite op_ai_solve. intros E. by apply solve_grows in E as [? _].
  - rewrite tp_theoretical_solve. intros E. by apply solve_grows in E as [? _].
  - rewrite tp_ai_solve. intros E. by apply solve_grows in E as [? _].
Qed.

Lemma record_only_grows_witness :
  ∃ v r', OnePlayer.get_theoretical_win_probability small_cfg 5 small_game
            {[get_game_state_representation small_dealer_game := (1, 1)%Qc]}
            = Done (v, r') ∧
          r' !! get_game_state_representation small_dealer_game = Some (1, 1)%Qc.
Proof.
  destruct (OnePlayer.get_theoretical_win_probability small_cfg 5 small_game
              {[get_game_state_representation small_dealer_game := (1, 1)%Qc]})
    as [[v r']| |] eqn:E; [|exfalso; revert E; vm_compute; discriminate..].
  exists v, r'. split; [reflexivity|].
  eapply lookup_weaken;
    [apply lookup_singleton_eq
    |exact (proj1 (record_only_grows small_cfg (λ _, Action 0) (λ _, Action 0)
                     (λ _, Action 0) 5 small_game) _ v r' E)].
Defined.

(** X9. A second call is answered as the first: when a solver has
    returned a tuple and a record for a state, a call for that state on the
    record returned gives the same tuple again and leaves the record as it
    is, with any fuel. *)
Theorem second_call_is_answered_as_the_first (cfg : Config)
    (a player_agent dealer_agent : agent) (fuel fuel' : nat) (g : BlackJack) :
  (∀ r v r', OnePlayer.get_theoretical_win_probability cfg fuel g r = Done (v, r') →
     OnePlayer.get_theoretical_win_probability cfg (S fuel') g r' = Done (v, r')) ∧
  (∀ r v r', OnePlayer.get_ai_win_probability cfg a fuel g r = Done (v, r') →
     OnePlayer.get_ai_win_probability cfg a (S fuel') g r' = Done (v, r')) ∧
  (∀ r v r', TwoPlayer.get_theoretical_win_probability cfg fuel g r = Done (v, r') →
     TwoPlayer.get_theoretical_win_probability cfg (S fuel') g r' = Done (v, r')) ∧
  (∀ r v r', TwoPlayer.get_ai_win_probability cfg player_agent dealer_agent fuel g r
               = Done (v, r') →
     TwoPlayer.get_ai_win_probability cfg player_agent dealer_agent (S fuel') g r'
       = Done (v, r')).
Proof.
  split; [|split; [|split]]; intros r v r'.
  - rewrite !op_theoretical_solve. apply solve_again.
  - rewrite !op_ai_solve. apply solve_again.
  - rewrite !tp_theoretical_solve. apply solve_again.
  - rewrite !tp_ai_solve. apply solve_again.
Qed.

Lemma second_call_is_answered_as_the_first_witness :
  ∃ v r', OnePlayer.get_theoretical_win_probability small_cfg 5 small_game ∅
            = Done (v, r') ∧
          OnePlayer.get_theoretical_win_probability small_cfg 1 small_game r'
            = Done (v, r').
Proof.
  destruct (OnePlayer.get_theoretical_win_probability small_cfg 5 small_game ∅)
    as [[v r']| |] eqn:E; [|exfalso; revert E; vm_compute; discriminate..].
  exists v, r'. split; [reflexivity|].
  exact (proj1 (second_call_is_answered_as_the_first small_cfg (λ _, Action 0)
                  (λ _, Action 0) (λ _, Action 0) 5 0 small_game) ∅ v r' E).
Defined.

(** * The moves of a game *)

Lemma py_pop_Done l x l' : py_pop l = Done (x, l') ↔ l = l' ++ [x].
Proof.
  unfold py_pop. split.
  - destruct (reverse l) as [|y k] eqn:E; [done|]. intros [= <- <-].
    apply (inj reverse). by rewrite reverse_snoc, reverse_involutive.
  - intros ->. by rewrite reverse_snoc, reverse_involutive.
Qed.

Lemma py_pop_nil l : py_pop l = Raise IndexError ↔ l = [].
Proof.
  unfold py_pop. split.
  - destruct (reverse l) as [|y k] eqn:E; [|done]. intros _.
    apply (inj reverse). by rewrite E.
  - by intros ->.
Qed.

Lemma py_pop_settled l : settled (py_pop l).
Proof. unfold py_pop. by destruct (reverse l). Qed.

Lemma deal_Done g g' :
  deal g = Done g' ↔
  ∃ c, deck g = deck g' ++ [c] ∧ turn g' = turn g ∧
       dealer_hand g' = match dealt_to g with
                        | Dealer => dealer_hand g ++ [c] | Player => dealer_hand g end ∧
       player_hand g' = match dealt_to g with
                        | Dealer => player_hand g | Player => player_hand g ++ [c] end.
Proof.
  unfold deal, dealt_to. split.
  - destruct (turn g =? 0);
      (destruct (py_pop (deck g)) as [[c d]| |] eqn:E; simpl; [|done..];
       apply py_pop_Done in E; intros [= <-]; by exists c).
  - intros (c & Hd & Ht & Hdh & Hph). apply py_pop_Done in Hd.
    destruct g' as [d dh ph t]. simpl in *. subst.
    destruct (turn g =? 0); by rewrite Hd.
Qed.

Lemma deal_Raise g e : deal g = Raise e ↔ deck g = [] ∧ e = IndexError.
Proof.
  unfold deal. split.
  - destruct (turn g =? 0);
      (destruct (py_pop (deck g)) as [[c d]|e'|] eqn:E; simpl; [done| |done];
       intros [= <-]; unfold py_pop in E; destruct (reverse (deck g)) eqn:E'; [|done];
       injection E as <-; split; [|done];
       apply (inj reverse); by rewrite E').
  - intros [Hd ->]. rewrite Hd. by destruct (turn g =? 0).
Qed.

Lemma deal_settled g : settled (deal g).
Proof.
  unfold deal. pose proof (py_pop_settled (deck g)).
  destruct (turn g =? 0); by destruct (py_pop (deck g)) as [[]| |].
Qed.

Lemma deal_cards g g' : deal g = Done g' → cards g' ≡ₚ cards g.
Proof.
  intros (c & Hd & _ & Hdh & Hph)%deal_Done. unfold cards. rewrite Hd, Hdh, Hph.
  destruct (dealt_to g); rewrite <- !(assoc (++)); f_equiv; simpl.
  - by rewrite <- Permutation_middle.
  - rewrite !(assoc (++)). by rewrite <- Permutation_cons_append.
Qed.

(** The card dealt is a card that the solvers draw, and the state after the
    deal has the key of the state that they build for it. *)
Lemma deal_hit g g' :
  deal g = Done g' →
  ∃ c g'', c ∈ deck g ∧ hit (dealt_to g) g c = Done g'' ∧ same_key g' g''.
Proof.
  intros (c & Hd & Ht & Hdh & Hph)%deal_Done.
  assert (c ∈ deck g) as Hc by (rewrite Hd; set_solver).
  exists c, (drawn (dealt_to g) g c). split; [done|]. split; [by apply hit_drawn|].
  apply same_key_intro; simpl.
  - by rewrite Hdh.
  - by rewrite Hph.
  - apply (Permutation_cons_inv (a := c)).
    rewrite <- (py_remove_Done c (deck g) _ (py_remove_remove_one c _ Hc)).
    rewrite Hd. by rewrite Permutation_cons_append.
  - done.
Qed.

Lemma reset_Done cfg shuffle game :
  reset cfg shuffle = Done game ↔
  ∃ dealer_card player_card1 player_card2,
    shuffle (deck_copy cfg) = deck game ++ [player_card2; player_card1; dealer_card] ∧
    dealer_hand game = [dealer_card] ∧
    player_hand game = [player_card1; player_card2] ∧ turn game = 0.
Proof.
  unfold reset. split.
  - destruct (py_pop (shuffle (deck_copy cfg))) as [[c1 d1]| |] eqn:E1; simpl; [|done..].
    destruct (py_pop d1) as [[c2 d2]| |] eqn:E2; simpl; [|done..].
    destruct (py_pop d2) as [[c3 d3]| |] eqn:E3; simpl; [|done..].
    apply py_pop_Done in E1, E2, E3. intros [= <-]. exists c1, c2, c3. simpl.
    rewrite E1, E2, E3. by rewrite <- !(assoc (++)).
  - intros (c1 & c2 & c3 & Hs & Hd & Hp & Ht). rewrite Hs.
    rewrite (proj2 (py_pop_Done _ c1 (deck game ++ [c3; c2])))
      by (by rewrite <- !(assoc (++))).
    simpl. rewrite (proj2 (py_pop_Done _ c2 (deck game ++ [c3])))
      by (by rewrite <- !(assoc (++))).
    simpl. rewrite (proj2 (py_pop_Done _ c3 (deck game))) by done.
    simpl. destruct game. simpl in *. by subst.
Qed.

Lemma reset_Raise cfg shuffle e :
  reset cfg shuffle = Raise e ↔
  (length (shuffle (deck_copy cfg)) < 3)%nat ∧ e = IndexError.
Proof.
  unfold reset. split.
  - destruct (py_pop (shuffle (deck_copy cfg))) as [[c1 d1]|e1|] eqn:E1; simpl.
    + apply py_pop_Done in E1.
      destruct (py_pop d1) as [[c2 d2]|e2|] eqn:E2; simpl.
      * apply py_pop_Done in E2.
        destruct (py_pop d2) as [[c3 d3]|e3|] eqn:E3; simpl; [done| |done].
        unfold py_pop in E3. destruct (reverse d2) eqn:E'; [|done].
        injection E3 as <-. intros [= <-]. split; [|done].
        apply (f_equal reverse) in E'. rewrite reverse_involutive in E'. subst.
        rewrite E1. simpl. lia.
      * unfold py_pop in E2. destruct (reverse d1) eqn:E'; [|done].
        injection E2 as <-. intros [= <-]. split; [|done].
        apply (f_equal reverse) in E'. rewrite reverse_involutive in E'. subst.
        rewrite E1. simpl. lia.
      * by apply py_pop_settled in E2.
    + unfold py_pop in E1. destruct (reverse _) eqn:E'; [|done].
      injection E1 as <-. intros [= <-]. split; [|done].
      apply (f_equal reverse) in E'. rewrite reverse_involutive in E'.
      rewrite E'. simpl. lia.
    + by apply py_pop_settled in E1.
  - intros [Hl ->].
    destruct (shuffle (deck_copy cfg)) as [|x [|y [|z l]]] eqn:E; simpl in Hl; try lia;
      by vm_compute.
Qed.

Lemma reset_settled cfg shuffle : settled (reset cfg shuffle).
Proof.
  unfold reset, settled.
  destruct (py_pop (shuffle (deck_copy cfg))) as [[c1 d1]| |] eqn:E1; simpl;
    [|done|by apply py_pop_settled in E1].
  destruct (py_pop d1) as [[c2 d2]| |] eqn:E2; simpl;
    [|done|by apply py_pop_settled in E2].
  destruct (py_pop d2) as [[c3 d3]| |] eqn:E3; simpl;
    [done|done|by apply py_pop_settled in E3].
Qed.

Lemma reset_cards cfg shuffle game :
  reset cfg shuffle = Done game → cards game ≡ₚ shuffle (deck_copy cfg).
Proof.
  intros (c1 & c2 & c3 & Hs & Hd & Hp & _)%reset_Done. unfold cards.
  rewrite Hs, Hd, Hp. f_equiv.
  exact (reverse_Permutation [c3; c2; c1]).
Qed.

(** * The games that are sampled *)

Lemma py_sum_cons (x : Z) (l : list Z) : py_sum (x :: l) = x + py_sum l.
Proof. unfold py_sum at 1. simpl. by rewrite py_sum_from. Qed.

Lemma py_sum_append (l k : list Z) : py_sum (l ++ k) = py_sum l + py_sum k.
Proof.
  induction l as [|x l IH]; [done|].
  simpl. rewrite !py_sum_cons, IH. lia.
Qed.

Lemma py_sum_perm (l k : list Z) : l ≡ₚ k → py_sum l = py_sum k.
Proof.
  induction 1 as [|x l k _ IH|x y l|l k m _ IH1 _ IH2];
    rewrite ?py_sum_cons; lia.
Qed.

Lemma py_sum_cards g :
  py_sum (cards g) = py_sum (deck g) + py_sum (dealer_hand g) + py_sum (player_hand g).
Proof. unfold cards. rewrite !py_sum_append. lia. Qed.

Lemma py_sum_elem_of (c : Z) (l : list Z) : c ∈ l → ∃ k, l ≡ₚ c :: k.
Proof.
  intros (l1 & l2 & ->)%list_elem_of_split. exists (l1 ++ l2).
  by rewrite Permutation_middle.
Qed.

Section Choose.
Context {R : Type} (gen : Generator R) (cfg : Config).

Lemma choose_settled a g (s : R) : settled (choose gen cfg a g s).
Proof.
  unfold choose. destruct a as [a|].
  - pose proof (ask_settled cfg a g). by destruct (ask cfg a g).
  - by destruct (np_random_choice gen s).
Qed.

Lemma choose_raise a g (s : R) e :
  choose gen cfg a g s = Raise e → raised_by_ask e.
Proof.
  unfold choose. destruct a as [a|].
  - destruct (ask cfg a g) as [i|e'|] eqn:E; simpl; [done| |done].
    intros [= <-]. by eapply ask_raise.
  - by destruct (np_random_choice gen s).
Qed.

Lemma choose_raise_Some a g (s : R) e :
  choose gen cfg a g s = Raise e → is_Some a ∧ raised_by_ask e.
Proof.
  intros E. split; [|by eapply choose_raise].
  destruct a; [done|]. unfold choose in E. by destruct (np_random_choice gen s).
Qed.

Lemma reset_with_Done (s : R) game s' :
  reset_with gen cfg s = Done (game, s') →
  reset cfg (λ deck, (np_random_shuffle gen s deck).1) = Done game.
Proof.
  unfold reset_with. destruct (reset cfg _) as [g| |]; simpl; [|done..].
  by intros [= <- _].
Qed.
End Choose.

Lemma op_over_zero_or_one cfg g result :
  OnePlayer.is_game_over cfg g = (true, Some result) → zero_or_one result.
Proof.
  unfold OnePlayer.is_game_over, zero_or_one.
  repeat match goal with |- context [if ?b then _ else _] => destruct b end;
    intros [= <-]; auto.
Qed.

Lemma tp_over_zero_or_one cfg g result :
  TwoPlayer.is_game_over cfg g = (true, Some result) → zero_or_one result.
Proof.
  unfold TwoPlayer.is_game_over, zero_or_one.
  repeat match goal with |- context [if ?b then _ else _] => destruct b end;
    intros [= <-]; auto.
Qed.

Lemma op_apply_action_settled g i : settled (OnePlayerGame.apply_action g i).
Proof.
  unfold OnePlayerGame.apply_action. destruct (i =? 1); [apply deal_settled|].
  by destruct (turn g =? 0).
Qed.

Lemma tp_apply_action_settled g i : settled (TwoPlayerGame.apply_action g i).
Proof.
  unfold TwoPlayerGame.apply_action. destruct (i =? 1); [apply deal_settled|done].
Qed.

Lemma op_apply_action_raise g i e :
  OnePlayerGame.apply_action g i = Raise e → deck g = [] ∧ e = IndexError.
Proof.
  unfold OnePlayerGame.apply_action. destruct (i =? 1); [by intros ?%deal_Raise|].
  by destruct (turn g =? 0).
Qed.

Lemma tp_apply_action_raise g i e :
  TwoPlayerGame.apply_action g i = Raise e → deck g = [] ∧ e = IndexError.
Proof.
  unfold TwoPlayerGame.apply_action. destruct (i =? 1); [by intros ?%deal_Raise|done].
Qed.

Lemma op_apply_action_moves g i g' :
  OnePlayerGame.apply_action g i = Done g' →
  (turn g = 0 ∨ i = 1) → op_moves g = S (op_moves g').
Proof.
  unfold OnePlayerGame.apply_action, op_moves.
  destruct (Z.eqb_spec i 1) as [->|Hi].
  - intros (c & Hd & Ht & _)%deal_Done _. rewrite Hd, Ht, length_app. simpl. lia.
  - intros E [Ht|]; [|done]. rewrite Ht in *. simpl in E. injection E as <-.
    simpl. rewrite Ht. simpl. lia.
Qed.

Section OnePlayerSampling.
Context {R : Type} (gen : Generator R) (cfg : Config) (a : option agent).

Lemma op_play_result fuel g (s : R) result s' :
  OnePlayerTrain.play gen cfg a fuel g s = Done (result, s') → zero_or_one result.
Proof.
  revert g s. induction fuel as [|fuel IH]; intros g s; [done|].
  simpl. destruct (OnePlayer.is_game_over cfg g) as [[] [res|]] eqn:Ho; try done.
  { intros [= <- _]. by eapply op_over_zero_or_one. }
  all: destruct (turn g =? 0);
    [destruct (choose gen cfg a g s) as [[i s1]| |]; simpl; [|done..];
     destruct (OnePlayerGame.apply_action g i) as [g1| |]; simpl; [|done..];
     apply IH
    |destruct (OnePlayerGame.apply_action g 1) as [g1| |]; simpl; [|done..];
     apply IH].
Qed.

(** A game ends: with a result, when the deck runs out, or when the agent
    cannot be asked. *)
Lemma op_play_ends fuel g (s : R) :
  (op_moves g < fuel)%nat →
  match OnePlayerTrain.play gen cfg a fuel g s with
  | Done _ => True
  | Raise e => e = IndexError ∨ raised_by_ask e
  | OutOfFuel => False
  end.
Proof.
  revert g s. induction fuel as [|fuel IH]; intros g s Hf; [lia|].
  simpl. pose proof (op_over_result cfg g) as Hres.
  destruct (OnePlayer.is_game_over cfg g) as [[] [res|]] eqn:Ho; try done.
  all: destruct (Z.eqb_spec (turn g) 0) as [Ht|Ht].
  all: try (pose proof (choose_settled gen cfg a g s) as Hc;
            destruct (choose gen cfg a g s) as [[i s1]|e|] eqn:Ec; simpl;
            [|right; by eapply choose_raise|done];
            pose proof (op_apply_action_settled g i) as Ha;
            destruct (OnePlayerGame.apply_action g i) as [g1|e|] eqn:Ea; simpl;
            [|left; by apply op_apply_action_raise in Ea as [_ ->]|done];
            apply IH; rewrite (op_apply_action_moves g i g1 Ea) in Hf by auto; lia).
  all: pose proof (op_apply_action_settled g 1) as Ha;
    destruct (OnePlayerGame.apply_action g 1) as [g1|e|] eqn:Ea; simpl;
    [|left; by apply op_apply_action_raise in Ea as [_ ->]|done];
    apply IH; rewrite (op_apply_action_moves g 1 g1 Ea) in Hf by auto; lia.
Qed.

(** With a deck that lasts, no game runs out of cards. *)
Lemma op_play_lasts fuel g (s : R) :
  op_deck_lasts cfg → op_in_play cfg g → (op_moves g < fuel)%nat →
  match OnePlayerTrain.play gen cfg a fuel g s with
  | Done _ => True
  | Raise e => is_Some a ∧ raised_by_ask e
  | OutOfFuel => False
  end.
Proof.
  intros [Hp Hd]. revert g s. induction fuel as [|fuel IH]; intros g s Hg Hf; [lia|].
  simpl. pose proof (op_over_result cfg g) as Hres.
  destruct (OnePlayer.is_game_over cfg g) as [over res] eqn:Ho.
  destruct over; [by destruct res|].
  assert (deck g ≠ []) as Hne.
  { intros Hg0. pose proof Hg as [Hc Ht]. apply py_sum_perm in Hc.
    rewrite py_sum_cards, Hg0 in Hc. change (py_sum []) with 0 in Hc.
    unfold OnePlayer.is_game_over in Ho.
    destruct Ht as [[Ht [c Hdh]]|[Ht Hph]]; rewrite Ht in Ho; simpl in Ho.
    - assert (c ∈ deck_copy cfg) as Hin.
      { destruct Hg as [Hc' _]. rewrite <- Hc'. unfold cards. rewrite Hdh. set_solver. }
      specialize (Hp c Hin). rewrite Hdh in Hc. unfold py_sum at 1 in Hc. simpl in Hc.
      destruct (Z.gtb_spec (py_sum (player_hand g)) (blackjack_num cfg)); [done|lia].
    - destruct (Z.gtb_spec (py_sum (dealer_hand g)) (blackjack_num cfg)); [done|].
      destruct (Z.geb_spec (py_sum (dealer_hand g)) (dealer_limit cfg)); [|lia].
      repeat match goal with H : context [if ?b then _ else _] |- _ => destruct b end;
        done. }
  assert (∀ g1, deal g = Done g1 → op_in_play cfg g1 ∨ False) as Hdeal.
  { intros g1 Eg1. left. destruct Hg as [Hc Ht]. split.
    - by rewrite (deal_cards g g1 Eg1).
    - apply deal_Done in Eg1 as (c & _ & Ht1 & Hdh & Hph). unfold dealt_to in *.
      destruct Ht as [[Ht [c0 Hc0]]|[Ht Hs]]; rewrite Ht in *; simpl in *.
      + left. split; [done|]. exists c0. congruence.
      + right. split; [done|]. by rewrite Hph. }
  assert (∀ i g1, OnePlayerGame.apply_action g i = Done g1 → op_in_play cfg g1) as Hact.
  { intros i g1. unfold OnePlayerGame.apply_action.
    destruct (i =? 1); [intros E; by destruct (Hdeal g1 E)|].
    destruct (Z.eqb_spec (turn g) 0) as [Ht|Ht]; intros [= <-]; [|done].
    destruct Hg as [Hc _]. split; [done|]. right. simpl. split; [lia|].
    unfold OnePlayer.is_game_over in Ho. rewrite Ht in Ho. simpl in Ho.
    destruct (Z.gtb_spec (py_sum (player_hand g)) (blackjack_num cfg)); [done|lia]. }
  assert (∀ i e, OnePlayerGame.apply_action g i = Raise e → False) as Hnr.
  { intros i e [? _]%op_apply_action_raise. done. }
  destruct (Z.eqb_spec (turn g) 0) as [Ht|Ht].
  - pose proof (choose_settled gen cfg a g s) as Hc.
    destruct (choose gen cfg a g s) as [[i s1]|e|] eqn:Ec; simpl;
      [|by eapply choose_raise_Some|done].
    pose proof (op_apply_action_settled g i) as Ha.
    destruct (OnePlayerGame.apply_action g i) as [g1|e|] eqn:Ea; simpl;
      [|by destruct (Hnr i e Ea)|done].
    apply IH; [by eapply Hact|].
    rewrite (op_apply_action_moves g i g1 Ea) in Hf by auto. lia.
  - pose proof (op_apply_action_settled g 1) as Ha.
    destruct (OnePlayerGame.apply_action g 1) as [g1|e|] eqn:Ea; simpl;
      [|by destruct (Hnr 1 e Ea)|done].
    apply IH; [by eapply Hact|].
    rewrite (op_apply_action_moves g 1 g1 Ea) in Hf by auto. lia.
Qed.
Lemma op_episodes_wins fuel n w (s : R) w' s' :
  OnePlayerTrain.episodes gen cfg a fuel n w s = Done (w', s') →
  (w ≤ w' ∧ w' ≤ w + Qc_of_Z (Z.of_nat n))%Qc.
Proof.
  revert w s. induction n as [|n IH]; intros w s.
  { intros [= <- _]. change (Z.of_nat 0) with 0. rewrite Z2Qc_inj_0.
    rewrite Qcplus_0_r. split; apply Qcle_refl. }
  cbn [OnePlayerTrain.episodes].
  destruct (reset_with gen cfg s) as [[g s1]| |]; simpl; [|done..].
  destruct (OnePlayerTrain.play gen cfg a fuel g s1) as [[res s2]| |] eqn:Ep;
    simpl; [|done..].
  intros [H1 H2]%IH. apply op_play_result in Ep.
  rewrite Nat2Z.inj_succ, <- Z.add_1_l, Z2Qc_inj_add.
  rewrite Z2Qc_inj_1.
  destruct Ep as [-> | ->]; split; qc_order.
Qed.
End OnePlayerSampling.

Lemma tp_apply_action_moves g i g' :
  TwoPlayerGame.apply_action g i = Done g' → turn g < 2 →
  tp_moves g = S (tp_moves g') ∧ turn g' ≤ 2.
Proof.
  unfold TwoPlayerGame.apply_action, tp_moves.
  destruct (Z.eqb_spec i 1) as [->|Hi].
  - intros (c & Hd & Ht & _)%deal_Done ?. rewrite Hd, Ht, length_app. simpl. lia.
  - intros [= <-] ?. simpl. lia.
Qed.

Section TwoPlayerSampling.
Context {R : Type} (gen : Generator R) (cfg : Config)
        (player_agent dealer_agent : option agent).

Lemma tp_play_result fuel g (s : R) result s' :
  TwoPlayerTrain.play gen cfg player_agent dealer_agent fuel g s = Done (result, s') →
  zero_or_one result.
Proof.
  revert g s. induction fuel as [|fuel IH]; intros g s; [done|].
  simpl. destruct (TwoPlayer.is_game_over cfg g) as [[] [res|]] eqn:Ho; try done.
  { intros [= <- _]. by eapply tp_over_zero_or_one. }
  all: destruct (if turn g =? 0 then _ else _) as [[i s1]| |]; simpl; [|done..];
    destruct (TwoPlayerGame.apply_action g i) as [g1| |]; simpl; [|done..];
    apply IH.
Qed.

Lemma tp_play_ends fuel g (s : R) :
  turn g ≤ 2 → (tp_moves g < fuel)%nat →
  match TwoPlayerTrain.play gen cfg player_agent dealer_agent fuel g s with
  | Done _ => True
  | Raise e => e = IndexError ∨ raised_by_ask e
  | OutOfFuel => False
  end.
Proof.
  revert g s. induction fuel as [|fuel IH]; intros g s Ht Hf; [lia|].
  simpl. pose proof (tp_over_result cfg g) as Hres.
  destruct (TwoPlayer.is_game_over cfg g) as [over res] eqn:Ho.
  destruct over; [by destruct res|].
  assert (turn g < 2) as Ht2 by (apply (tp_over_turn cfg); [done|by rewrite Ho]).
  assert (settled (if turn g =? 0 then choose gen cfg player_agent g s
                   else choose gen cfg dealer_agent g s)) as Hc
    by (destruct (turn g =? 0); apply choose_settled).
  assert (∀ e, (if turn g =? 0 then choose gen cfg player_agent g s
                else choose gen cfg dealer_agent g s) = Raise e → raised_by_ask e) as He
    by (intros e; destruct (turn g =? 0); apply choose_raise).
  destruct (if turn g =? 0 then _ else _) as [[i s1]|e|]; simpl; [|right; by apply He|done].
  pose proof (tp_apply_action_settled g i) as Ha.
  destruct (TwoPlayerGame.apply_action g i) as [g1|e|] eqn:Ea; simpl;
    [|left; by apply tp_apply_action_raise in Ea as [_ ->]|done].
  destruct (tp_apply_action_moves g i g1 Ea Ht2) as [Hm Ht1].
  apply IH; [done|lia].
Qed.

Lemma tp_play_lasts fuel g (s : R) :
  tp_deck_lasts cfg → tp_in_play cfg g → (tp_moves g < fuel)%nat →
  match TwoPlayerTrain.play gen cfg player_agent dealer_agent fuel g s with
  | Done _ => True
  | Raise e => (is_Some player_agent ∨ is_Some dealer_agent) ∧ raised_by_ask e
  | OutOfFuel => False
  end.
Proof.
  intros [Hp Hd]. revert g s. induction fuel as [|fuel IH]; intros g s Hg Hf; [lia|].
  simpl. pose proof (tp_over_result cfg g) as Hres.
  destruct (TwoPlayer.is_game_over cfg g) as [over res] eqn:Ho.
  destruct over; [by destruct res|].
  assert (turn g ≤ 2) as Ht by (destruct Hg as [_ [[-> _]|[[-> _]| ->]]]; lia).
  assert (turn g < 2) as Ht2 by (apply (tp_over_turn cfg); [done|by rewrite Ho]).
  assert (deck g ≠ []) as Hne.
  { intros Hg0. pose proof Hg as [Hc Hi]. apply py_sum_perm in Hc.
    rewrite py_sum_cards, Hg0 in Hc. change (py_sum []) with 0 in Hc.
    unfold TwoPlayer.is_game_over in Ho.
    destruct Hi as [[Ht0 [c Hdh]]|[[Ht1 Hph]|Ht2']]; [| |lia].
    - rewrite Ht0 in Ho. simpl in Ho.
      assert (c ∈ deck_copy cfg) as Hin.
      { destruct Hg as [Hc' _]. rewrite <- Hc'. unfold cards. rewrite Hdh. set_solver. }
      specialize (Hp c Hin). rewrite Hdh in Hc. unfold py_sum at 1 in Hc. simpl in Hc.
      destruct (Z.gtb_spec (py_sum (player_hand g)) (blackjack_num cfg)); [done|lia].
    - rewrite Ht1 in Ho. simpl in Ho.
      destruct (Z.gtb_spec (py_sum (dealer_hand g)) (blackjack_num cfg)); [done|lia]. }
  assert (∀ i g1, TwoPlayerGame.apply_action g i = Done g1 → tp_in_play cfg g1) as Hact.
  { intros i g1. unfold TwoPlayerGame.apply_action. destruct Hg as [Hc Hi].
    destruct (i =? 1).
    - intros Eg1. split; [by rewrite (deal_cards g g1 Eg1)|].
      apply deal_Done in Eg1 as (c & _ & Ht1 & Hdh & Hph). unfold dealt_to in *.
      destruct Hi as [[Ht0 [c0 Hc0]]|[[Ht1' Hs]|Ht2']]; [| |lia].
      + rewrite Ht0 in *. simpl in *. left. split; [done|]. exists c0. congruence.
      + rewrite Ht1' in *. simpl in *. right. left. split; [done|]. by rewrite Hph.
    - intros [= <-]. split; [done|]. simpl.
      destruct Hi as [[Ht0 _]|[[Ht1 _]|Ht2']]; [| |lia].
      + right. left. split; [lia|].
        unfold TwoPlayer.is_game_over in Ho. rewrite Ht0 in Ho. simpl in Ho.
        destruct (Z.gtb_spec (py_sum (player_hand g)) (blackjack_num cfg)); [done|lia].
      + right. right. lia. }
  assert (settled (if turn g =? 0 then choose gen cfg player_agent g s
                   else choose gen cfg dealer_agent g s)) as Hc
    by (destruct (turn g =? 0); apply choose_settled).
  assert (∀ e, (if turn g =? 0 then choose gen cfg player_agent g s
                else choose gen cfg dealer_agent g s) = Raise e →
               (is_Some player_agent ∨ is_Some dealer_agent) ∧ raised_by_ask e) as He
    by (intros e; destruct (turn g =? 0); intros [? ?]%choose_raise_Some; auto).
  destruct (if turn g =? 0 then _ else _) as [[i s1]|e|]; simpl; [|by apply He|done].
  pose proof (tp_apply_action_settled g i) as Ha.
  destruct (TwoPlayerGame.apply_action g i) as [g1|e|] eqn:Ea; simpl;
    [|by apply tp_apply_action_raise in Ea as [? _]|done].
  destruct (tp_apply_action_moves g i g1 Ea Ht2) as [Hm Ht1].
  apply IH; [by eapply Hact|lia].
Qed.

Lemma tp_episodes_wins fuel n w (s : R) w' s' :
  TwoPlayerTrain.episodes gen cfg player_agent dealer_agent fuel n w s = Done (w', s') →
  (w ≤ w' ∧ w' ≤ w + Qc_of_Z (Z.of_nat n))%Qc.
Proof.
  revert w s. induction n as [|n IH]; intros w s.
  { intros [= <- _]. change (Z.of_nat 0) with 0. rewrite Z2Qc_inj_0.
    rewrite Qcplus_0_r. split; apply Qcle_refl. }
  cbn [TwoPlayerTrain.episodes].
  destruct (reset_with gen cfg s) as [[g s1]| |]; simpl; [|done..].
  destruct (TwoPlayerTrain.play gen cfg player_agent dealer_agent fuel g s1)
    as [[res s2]| |] eqn:Ep; simpl; [|done..].
  intros [H1 H2]%IH. apply tp_play_result in Ep.
  rewrite Nat2Z.inj_succ, <- Z.add_1_l, Z2Qc_inj_add.
  rewrite Z2Qc_inj_1.
  destruct Ep as [-> | ->]; split; qc_order.
Qed.
End TwoPlayerSampling.

(** * The win rate *)

Lemma py_int_le (x : Qc) : (0 ≤ x)%Qc → (Qc_of_Z (py_int x) ≤ x)%Qc.
Proof.
  intros Hx. unfold py_int. destruct x as [[n d] Hc]. unfold Qcle in *. simpl in *.
  unfold Qle in *. simpl in *.
  assert (0 ≤ n) as Hn by lia.
  assert (Z.pos d ≠ 0) as Hd by lia.
  pose proof (Z.mul_quot_le n (Z.pos d) Hn Hd). lia.
Qed.

Lemma py_int_nonpos (x : Qc) : (x ≤ 0)%Qc → Z.to_nat (py_int x) = 0%nat.
Proof.
  intros Hx. unfold py_int. destruct x as [[n d] Hc]. unfold Qcle in *. simpl in *.
  unfold Qle in *. simpl in *.
  assert (n ≤ 0) as Hn by lia.
  assert (Z.pos d ≠ 0) as Hd by lia.
  pose proof (Z.quot_opp_l n (Z.pos d) Hd) as Ho.
  assert (0 ≤ - n) as Hn' by lia.
  assert (0 < Z.pos d) as Hd' by lia.
  pose proof (Z.quot_pos (- n) (Z.pos d) Hn' Hd'). lia.
Qed.

(** The rate of [num_wins] wins of [int(num_episodes)] games. *)
Lemma win_rate (num_wins num_episodes : Qc) :
  (0 ≤ num_wins)%Qc →
  (num_wins ≤ Qc_of_Z (Z.of_nat (Z.to_nat (py_int num_episodes))))%Qc →
  if decide (num_episodes = 0%Qc) then py_truediv num_wins num_episodes = None
  else ∃ p, py_truediv num_wins num_episodes = Some p ∧ probability p.
Proof.
  intros H0 Hn. unfold py_truediv. destruct (decide (num_episodes = 0%Qc)); [done|].
  eexists. split; [done|].
  destruct (Qclt_le_dec 0 num_episodes) as [Hpos|Hneg].
  - assert (num_wins ≤ num_episodes)%Qc as Hle.
    { etrans; [exact Hn|]. etrans; [|apply py_int_le; by apply Qclt_le_weak].
      assert (Z.of_nat (Z.to_nat (py_int num_episodes)) = py_int num_episodes) as ->;
        [|apply Qcle_refl].
      apply Z2Nat.id. unfold py_int. apply Z.quot_pos; [|done].
      apply Qclt_le_weak in Hpos. unfold Qcle, Qle in Hpos. simpl in Hpos. lia. }
    split.
    + apply Qcdiv_nonneg; [done|by apply Qclt_le_weak].
    + unfold Qcdiv. apply (Qcmult_le_compat_r _ _ (/ num_episodes)) in Hle.
      * by rewrite Qcmult_inv_r in Hle.
      * apply Qclt_le_weak. by apply Qcinv_pos.
  - rewrite (py_int_nonpos _ Hneg) in Hn. change (Z.of_nat 0) with 0 in Hn.
    rewrite Z2Qc_inj_0 in Hn.
    assert (num_wins = 0%Qc) as -> by (by apply Qcle_antisym).
    unfold Qcdiv. rewrite Qcmult_0_l. by split.
Qed.

(** * Further properties of the game *)

(** X10. No card is made or lost: after [reset] the deck and the two hands
    hold the cards of the configuration, when the shuffle permutes them, and
    [apply_action] of either game leaves the cards of the deck and the hands
    together as they were. *)
Theorem cards_are_conserved (cfg : Config) (shuffle : list Z → list Z)
    (g : BlackJack) (action_index : Z) :
  (shuffle (deck_copy cfg) ≡ₚ deck_copy cfg →
   ∀ g', reset cfg shuffle = Done g' → cards g' ≡ₚ deck_copy cfg) ∧
  (∀ g', OnePlayerGame.apply_action g action_index = Done g' → cards g' ≡ₚ cards g) ∧
  (∀ g', TwoPlayerGame.apply_action g action_index = Done g' → cards g' ≡ₚ cards g).
Proof.
  split; [|split].
  - intros Hs g' E. by rewrite (reset_cards cfg shuffle g' E).
  - intros g'. unfold OnePlayerGame.apply_action.
    destruct (action_index =? 1); [apply deal_cards|].
    destruct (turn g =? 0); by intros [= <-].
  - intros g'. unfold TwoPlayerGame.apply_action.
    destruct (action_index =? 1); [apply deal_cards|]. by intros [= <-].
Qed.

Lemma cards_are_conserved_witness :
  ∃ g', reset small_cfg reverse = Done g' ∧ cards g' ≡ₚ deck_copy small_cfg.
Proof.
  destruct (reset small_cfg reverse) as [g'| |] eqn:E;
    [|exfalso; revert E; vm_compute; discriminate..].
  exists g'. split; [reflexivity|].
  exact (proj1 (cards_are_conserved small_cfg reverse small_game 0)
           (reverse_Permutation _) g' E).
Defined.

(** X11. A card dealt in a game is a branch of the solvers: when the turn
    is 0 or 1 and [apply_action(1)] deals a card, that card is one of the
    cards [np.unique(deck)] that the solvers draw, for the party that they
    make draw at that turn, and the state after the deal has the key of the
    state that they build for it: the deal pops the last card and the solver
    removes the first such card, and the key does not tell them apart. *)
Theorem deal_is_a_branch_of_the_solvers (g g' : BlackJack) :
  0 ≤ turn g ≤ 1 →
  OnePlayerGame.apply_action g 1 = Done g' ∨ TwoPlayerGame.apply_action g 1 = Done g' →
  ∃ card g'',
    card ∈ np_unique (deck g) ∧
    hit (if turn g =? 1 then Dealer else Player) g card = Done g'' ∧
    get_game_state_representation g' = get_game_state_representation g''.
Proof.
  intros Ht E.
  assert (deal g = Done g') as E' by (by destruct E).
  destruct (deal_hit g g' E') as (c & g'' & Hc & Eh & Hk).
  exists c, g''. split; [by apply elem_of_np_unique|]. split; [|done].
  unfold dealt_to in Eh.
  destruct (Z.eqb_spec (turn g) 0) as [->|], (Z.eqb_spec (turn g) 1) as [E1|]; try done; lia.
Qed.

Lemma deal_is_a_branch_of_the_solvers_witness :
  ∃ g' card g'',
    OnePlayerGame.apply_action same_key_game1 1 = Done g' ∧
    hit Player same_key_game1 card = Done g'' ∧
    get_game_state_representation g' = get_game_state_representation g''.
Proof.
  destruct (OnePlayerGame.apply_action same_key_game1 1) as [g'| |] eqn:E;
    [|exfalso; revert E; vm_compute; discriminate..].
  destruct (deal_is_a_branch_of_the_solvers same_key_game1 g') as (c & g'' & _ & Eh & Hk);
    [simpl; lia|by left|].
  by exists g', c, g''.
Defined.

(** X12. With no card left in the deck, [apply_action(1)] raises
    [IndexError] in both games, but the solvers do not: their loop over the
    cards is empty and the hit is worth 0.  At a state of the dealer's turn
    where the game is not over, the one-player solver returns 0 for both
    strategies, and the two-player solver returns 0 in the two slots of the
    optimal dealer, whatever the hands. *)
Theorem hit_on_an_empty_deck (cfg : Config) (g : BlackJack) :
  deck g = [] →
  OnePlayerGame.apply_action g 1 = Raise IndexError ∧
  TwoPlayerGame.apply_action g 1 = Raise IndexError ∧
  (turn g = 1 → (OnePlayer.is_game_over cfg g).1 = false →
   OnePlayer.theoretical_win_probability cfg g = Done (0, 0)%Qc) ∧
  (turn g = 1 → (TwoPlayer.is_game_over cfg g).1 = false →
   ∃ v, TwoPlayer.theoretical_win_probability cfg g = Done v ∧
        v.1.1.1 = 0%Qc ∧ v.1.2 = 0%Qc).
Proof.
  intros Hd.
  assert (deal g = Raise IndexError) as Ed by (by apply deal_Raise).
  split; [done|]. split; [done|]. split.
  - intros Ht Ho. unfold OnePlayer.theoretical_win_probability, OnePlayer.fuel_for.
    rewrite Hd, Ht. simpl. rewrite lookup_empty.
    destruct (OnePlayer.is_game_over cfg g) as [[] res]; [done|].
    rewrite Ht, Hd. by destruct res.
  - intros Ht Ho. unfold TwoPlayer.theoretical_win_probability, TwoPlayer.fuel_for.
    rewrite Hd, Ht. simpl. rewrite lookup_empty.
    destruct (TwoPlayer.is_game_over cfg g) as [over res]; simpl in Ho. subst over.
    assert (∃ s, TwoPlayer.is_game_over cfg (advance_turn (copy g)) = (true, Some s) ∧
                 zero_or_one s) as (s & Es & Hs).
    { destruct (TwoPlayer.is_game_over cfg (advance_turn (copy g))) as [o r] eqn:E.
      assert (o = true ∧ ∃ s, r = Some s) as [-> [s ->]].
      { revert E. unfold TwoPlayer.is_game_over, copy. simpl. rewrite Ht. simpl.
        repeat match goal with |- context [if ?b then _ else _] => destruct b end;
          intros [= <- <-]; eauto. }
      exists s. split; [done|]. by eapply tp_over_zero_or_one. }
    assert (py_min s 0 = 0%Qc) as Hmin by (by destruct Hs as [-> | ->]).
    destruct res; rewrite Ht, lookup_empty, Es, Hd; simpl;
      (eexists; split; [done|]; simpl; by rewrite Hmin).
Qed.

Lemma hit_on_an_empty_deck_witness :
  deck empty_deck_game = [] ∧
  OnePlayerGame.apply_action empty_deck_game 1 = Raise IndexError ∧
  OnePlayer.theoretical_win_probability small_cfg empty_deck_game = Done (0, 0)%Qc.
Proof.
  split; [reflexivity|].
  destruct (hit_on_an_empty_deck small_cfg empty_deck_game eq_refl) as (H1 & _ & H3 & _).
  split; [exact H1|]. apply H3; reflexivity.
Defined.

(** X13. A sampled game ends.  With one step of fuel for each card of the
    deck and each turn left, the loop [while not game_over] of
    [evaluate_agent] and of [evaluate_agents] comes back: with a result that
    is 0 or 1, with the [IndexError] of a deal from an empty deck, or with
    what the question to an agent raises. *)
Theorem sampled_game_ends {R : Type} (gen : Generator R) (cfg : Config)
    (a player_agent dealer_agent : option agent) (fuel : nat) (g : BlackJack) (s : R) :
  ((op_moves g < fuel)%nat →
   match OnePlayerTrain.play gen cfg a fuel g s with
   | Done (result, _) => zero_or_one result
   | Raise e => e = IndexError ∨ raised_by_ask e
   | OutOfFuel => False
   end) ∧
  (turn g ≤ 2 → (tp_moves g < fuel)%nat →
   match TwoPlayerTrain.play gen cfg player_agent dealer_agent fuel g s with
   | Done (result, _) => zero_or_one result
   | Raise e => e = IndexError ∨ raised_by_ask e
   | OutOfFuel => False
   end).
Proof.
  split.
  - intros Hf. pose proof (op_play_ends gen cfg a fuel g s Hf) as H.
    destruct (OnePlayerTrain.play gen cfg a fuel g s) as [[res s']| |] eqn:E; [|done..].
    by eapply op_play_result.
  - intros Ht Hf.
    pose proof (tp_play_ends gen cfg player_agent dealer_agent fuel g s Ht Hf) as H.
    destruct (TwoPlayerTrain.play gen cfg player_agent dealer_agent fuel g s)
      as [[res s']| |] eqn:E; [|done..].
    by eapply tp_play_result.
Qed.

Lemma sampled_game_ends_witness :
  (op_moves small_game < 3)%nat ∧
  match OnePlayerTrain.play fixed_generator small_cfg None 3 small_game () with
  | Done (result, _) => zero_or_one result
  | Raise e => e = IndexError ∨ raised_by_ask e
  | OutOfFuel => False
  end.
Proof.
  split; [vm_compute; lia|].
  apply (proj1 (sampled_game_ends fixed_generator small_cfg None None None 3
                  small_game ())).
  vm_compute. lia.
Defined.

(** X14. A deck that lasts never runs out.  In the one-player game, when
    every card [c] of the deck has [sum(deck) - c > blackjack_num] and
    [sum(deck) - blackjack_num >= dealer_limit], as in [main.py], no game
    that [evaluate_agent] samples deals from an empty deck: after [reset]
    the loop comes back with a result, or with what the question to the
    agent raises, and never with [IndexError].  The same holds for
    [evaluate_agents] in the two-player game when [sum(deck) - c >
    blackjack_num] and [sum(deck) > 2 * blackjack_num]. *)
Theorem no_sampled_game_runs_out_of_cards {R : Type} (gen : Generator R) (cfg : Config)
    (a player_agent dealer_agent : option agent) (fuel : nat) (s s' : R)
    (game : BlackJack) :
  (np_random_shuffle gen s (deck_copy cfg)).1 ≡ₚ deck_copy cfg →
  (length (deck_copy cfg) ≤ fuel)%nat →
  reset_with gen cfg s = Done (game, s') →
  (op_deck_lasts cfg →
   match OnePlayerTrain.play gen cfg a fuel game s' with
   | Done (result, _) => zero_or_one result
   | Raise e => is_Some a ∧ raised_by_ask e
   | OutOfFuel => False
   end) ∧
  (tp_deck_lasts cfg →
   match TwoPlayerTrain.play gen cfg player_agent dealer_agent fuel game s' with
   | Done (result, _) => zero_or_one result
   | Raise e => (is_Some player_agent ∨ is_Some dealer_agent) ∧ raised_by_ask e
   | OutOfFuel => False
   end).
Proof.
  intros Hs Hf E. apply reset_with_Done in E.
  pose proof (reset_cards _ _ _ E) as Hc. simpl in Hc. rewrite Hs in Hc.
  apply reset_Done in E as (c1 & c2 & c3 & Hsh & Hdh & Hph & Ht).
  assert (length (deck_copy cfg) = (length (deck game) + 3)%nat) as Hl.
  { rewrite <- Hs. simpl in Hsh. rewrite Hsh, length_app. simpl. lia. }
  split.
  - intros Hlast.
    pose proof (op_play_lasts gen cfg a fuel game s' Hlast) as H.
    destruct (OnePlayerTrain.play gen cfg a fuel game s') as [[res s'']| |] eqn:Ep.
    + by eapply op_play_result.
    + apply H; [split; [done|left; eauto]|]. unfold op_moves. rewrite Ht. simpl. lia.
    + apply H; [split; [done|left; eauto]|]. unfold op_moves. rewrite Ht. simpl. lia.
  - intros Hlast.
    pose proof (tp_play_lasts gen cfg player_agent dealer_agent fuel game s' Hlast) as H.
    destruct (TwoPlayerTrain.play gen cfg player_agent dealer_agent fuel game s')
      as [[res s'']| |] eqn:Ep.
    + by eapply tp_play_result.
    + apply H; [split; [done|left; eauto]|]. unfold tp_moves. rewrite Ht. simpl. lia.
    + apply H; [split; [done|left; eauto]|]. unfold tp_moves. rewrite Ht. simpl. lia.
Qed.

Lemma no_sampled_game_runs_out_of_cards_witness :
  op_deck_lasts tie_cfg ∧
  ∃ game result s'',
    reset_with fixed_generator tie_cfg () = Done (game, ()) ∧
    OnePlayerTrain.play fixed_generator tie_cfg None 8 game () = Done (result, s'') ∧
    zero_or_one result.
Proof.
  assert (op_deck_lasts tie_cfg) as Hlast.
  { split; [|vm_compute; discriminate].
    intros c Hc. simpl in Hc.
    repeat (apply elem_of_cons in Hc as [->|Hc]; [vm_compute; reflexivity|]).
    by apply elem_of_nil in Hc. }
  split; [exact Hlast|].
  destruct (reset_with fixed_generator tie_cfg ()) as [[game []]| |] eqn:E;
    [|exfalso; revert E; vm_compute; discriminate..].
  pose proof (proj1 (no_sampled_game_runs_out_of_cards fixed_generator tie_cfg
                       None None None 8 () () game (Permutation_refl _)
                       (le_n 8) E) Hlast) as H.
  destruct (OnePlayerTrain.play fixed_generator tie_cfg None 8 game ())
    as [[result s'']| |] eqn:Ep.
  - by exists game, result, s''.
  - by destruct H as [[? [=]] _].
  - done.
Defined.

(** X15. The win rate that [evaluate_agent] and [evaluate_agents] return
    is a probability: the number of games won over [num_episodes], between
    0 and 1, whenever [num_episodes] is not 0.  When it is 0 no game is
    played and the division raises [ZeroDivisionError]. *)
Theorem win_rate_is_a_probability {R : Type} (gen : Generator R) (cfg : Config)
    (a player_agent dealer_agent : option agent) (fuel : nat) (num_episodes : Qc)
    (s s' : R) (rate : option Qc) :
  (OnePlayerTrain.evaluate_agent gen cfg a fuel num_episodes s = Done (rate, s') →
   if decide (num_episodes = 0%Qc) then rate = None
   else ∃ p, rate = Some p ∧ probability p) ∧
  (TwoPlayerTrain.evaluate_agents gen cfg player_agent dealer_agent fuel num_episodes s
     = Done (rate, s') →
   if decide (num_episodes = 0%Qc) then rate = None
   else ∃ p, rate = Some p ∧ probability p).
Proof.
  split.
  - unfold OnePlayerTrain.evaluate_agent.
    destruct (OnePlayerTrain.episodes gen cfg a fuel _ 0%Qc s) as [[w s1]| |] eqn:E;
      simpl; [|done..].
    intros [= <- _]. apply op_episodes_wins in E as [H1 H2].
    rewrite Qcplus_0_l in H2. by apply win_rate.
  - unfold TwoPlayerTrain.evaluate_agents.
    destruct (TwoPlayerTrain.episodes gen cfg player_agent dealer_agent fuel _ 0%Qc s)
      as [[w s1]| |] eqn:E; simpl; [|done..].
    intros [= <- _]. apply tp_episodes_wins in E as [H1 H2].
    rewrite Qcplus_0_l in H2. by apply win_rate.
Qed.

Lemma win_rate_is_a_probability_witness :
  ∃ p, OnePlayerTrain.evaluate_agent fixed_generator tie_cfg None 8 (Qc_of_Z 2) ()
         = Done (Some p, ()) ∧
       probability p.
Proof.
  destruct (OnePlayerTrain.evaluate_agent fixed_generator tie_cfg None 8 (Qc_of_Z 2) ())
    as [[[p|] []]| |] eqn:E; [|exfalso; revert E; vm_compute; discriminate..].
  exists p. split; [reflexivity|].
  pose proof (proj1 (win_rate_is_a_probability fixed_generator tie_cfg None None None
                       8 (Qc_of_Z 2) () () (Some p)) E) as H.
  destruct (decide (Qc_of_Z 2 = 0%Qc)) as [E0|_]; [discriminate E0|].
  destruct H as (p' & [= <-] & Hp). exact Hp.
Defined.

(** * The initial states *)

Lemma elem_of_map {A B} (f : A → B) (l : list A) (y : B) :
  y ∈ map f l ↔ ∃ x, y = f x ∧ x ∈ l.
Proof.
  induction l as [|x l IH]; simpl.
  - split; [by intros ?%elem_of_nil|by intros (? & _ & ?%elem_of_nil)].
  - rewrite elem_of_cons, IH. split.
    + intros [->|(x' & -> & Hx')]; [exists x; split; [done|left]|].
      exists x'. split; [done|by right].
    + intros (x' & -> & [->|Hx']%elem_of_cons); [by left|right; eauto].
Qed.

Lemma picks_perm {A} (l : list A) (x : A) (rest : list A) :
  (x, rest) ∈ picks l → l ≡ₚ x :: rest.
Proof.
  revert x rest. induction l as [|y l IH]; intros x rest; simpl.
  - by intros ?%elem_of_nil.
  - intros [[= -> ->]|Hin]%elem_of_cons; [done|].
    apply elem_of_map in Hin as ([z r] & [= -> ->] & Hin).
    rewrite (IH _ _ Hin). apply Permutation_swap.
Qed.



Lemma permutations3_perm (l : list Z) a b c :
  (a, b, c) ∈ permutations3 l → ∃ rest, l ≡ₚ a :: b :: c :: rest.
Proof.
  unfold permutations3.
  intros ([a' l1] & Hin & H1)%list_elem_of_bind.
  apply list_elem_of_bind in Hin as ([b' l2] & Hin & H2).
  apply list_elem_of_bind in Hin as ([c' l3] & Hin & H3).
  apply list_elem_of_singleton in Hin as [= -> -> ->].
  exists l3. rewrite (picks_perm _ _ _ H1), (picks_perm _ _ _ H2).
  by rewrite (picks_perm _ _ _ H3).
Qed.

Lemma permutations3_lt3 (l : list Z) : (length l < 3)%nat → permutations3 l = [].
Proof. destruct l as [|x [|y [|z l]]]; simpl; try lia; done. Qed.

(** The keys of the dictionary are permutations of three cards, the two of
    the player in order, and the counts are positive. *)
Definition counted_key (perms : list (Z * Z * Z)) (e : Z * Z * Z * Z) : Prop :=
  (∃ p, p ∈ perms ∧ e.1 = initial_state_of p) ∧ 1 ≤ e.2.

Lemma count_up_counted perms k d :
  (∃ p, p ∈ perms ∧ k = initial_state_of p) →
  Forall (counted_key perms) d → Forall (counted_key perms) (count_up k d).
Proof.
  intros Hk. induction 1 as [|[k' n] d [Hk' Hn] Hd IH]; simpl.
  - repeat constructor; [done|simpl; lia].
  - destruct (decide (k' = k)); constructor; try done.
    split; [done|simpl in *; lia].
Qed.

Lemma initial_state_counts_counted perms :
  Forall (counted_key perms) (initial_state_counts perms).
Proof.
  unfold initial_state_counts.
  assert (∀ ps d, ps ⊆ perms → Forall (counted_key perms) d →
            Forall (counted_key perms)
              (fold_left (λ d p, count_up (initial_state_of p) d) ps d)) as Hgen.
  { induction ps as [|p ps IH]; intros d Hps Hd; [done|].
    simpl. apply IH; [set_solver|]. apply count_up_counted; [|done].
    exists p. split; [set_solver|done]. }
  by apply Hgen.
Qed.

Lemma initial_state_of_perm p :
  ∃ a b c, initial_state_of p = (a, b, c) ∧ b ≤ c ∧
           [a; b; c] ≡ₚ [p.1.1; p.1.2; p.2].
Proof.
  destruct p as [[d p1] p2]. unfold initial_state_of. simpl.
  destruct (Z.ltb_spec p2 p1).
  - exists d, p2, p1. split; [done|]. split; [lia|]. by rewrite (Permutation_swap p1 p2).
  - by exists d, p1, p2.
Qed.

(** * What [get_all_initial_states] is made of *)

Lemma get_all_initial_states_eq cfg shuffle1 shuffle2 :
  get_all_initial_states cfg shuffle1 shuffle2 =
  (game ← reset cfg shuffle1;
   initial_state_probabilities ←
     mapM (probability_of (Z.of_nat (length (permutations3 (deck_copy cfg)))))
          (initial_state_counts (permutations3 (deck_copy cfg)));
   game_hard_copy ← reset cfg shuffle2;
   mapM (initial_state_from
           (deck game_hard_copy ++ dealer_hand game_hard_copy
              ++ reverse (player_hand game_hard_copy))
           (turn game_hard_copy))
        initial_state_probabilities).
Proof. reflexivity. Qed.

Lemma mapM_Forall2_Done {A B} (f : A → outcome B) (l : list A) (k : list B) :
  Forall2 (λ x y, f x = Done y) l k → mapM f l = Done k.
Proof.
  induction 1 as [|x y l k E _ IH]; [done|]. simpl. by rewrite E, IH.
Qed.

Lemma mapM_Done_total {A B} (f : A → outcome B) (P : A → Prop) (l : list A) :
  Forall P l → (∀ x, P x → ∃ y, f x = Done y) → ∃ k, mapM f l = Done k.
Proof.
  intros Hl Hf. induction Hl as [|x l Hx _ [k IH]]; [by exists []|].
  destruct (Hf x Hx) as [y E]. exists (y :: k). simpl. by rewrite E, IH.
Qed.

Lemma probability_of_Done N e :
  N ≠ 0 → probability_of N e = Done (e.1, (Qc_of_Z e.2 / Qc_of_Z N)%Qc).
Proof.
  intros HN. destruct e as [k n]. unfold probability_of, py_div.
  by destruct (Z.eqb_spec N 0).
Qed.

Lemma initial_state_from_Done full t e y :
  initial_state_from full t e = Done y →
  dealer_hand y.1 = [e.1.1.1] ∧ player_hand y.1 = [e.1.1.2; e.1.2] ∧
  full ≡ₚ e.1.1.1 :: e.1.1.2 :: e.1.2 :: deck y.1 ∧ turn y.1 = t ∧ y.2 = e.2.
Proof.
  destruct e as [[[d p1] p2] p]. unfold initial_state_from.
  destruct (py_remove d full) as [d1| |] eqn:E1; simpl; [|done..].
  destruct (py_remove p1 d1) as [d2| |] eqn:E2; simpl; [|done..].
  destruct (py_remove p2 d2) as [d3| |] eqn:E3; simpl; [|done..].
  intros [= <-]. simpl. repeat split.
  apply py_remove_Done in E1, E2, E3. by rewrite E1, E2, E3.
Qed.

Lemma initial_state_from_total full t e rest :
  full ≡ₚ e.1.1.1 :: e.1.1.2 :: e.1.2 :: rest →
  ∃ y, initial_state_from full t e = Done y.
Proof.
  destruct e as [[[d p1] p2] p]. simpl. intros Hf. unfold initial_state_from.
  destruct (py_remove_elem_of d full) as [d1 E1]; [rewrite Hf; left|].
  rewrite E1. simpl. apply py_remove_Done in E1.
  assert (d1 ≡ₚ p1 :: p2 :: rest) as H1.
  { apply (Permutation_cons_inv (a := d)). by rewrite <- E1. }
  destruct (py_remove_elem_of p1 d1) as [d2 E2]; [rewrite H1; left|].
  rewrite E2. simpl. apply py_remove_Done in E2.
  assert (d2 ≡ₚ p2 :: rest) as H2.
  { apply (Permutation_cons_inv (a := p1)). by rewrite <- E2. }
  destruct (py_remove_elem_of p2 d2) as [d3 E3]; [rewrite H2; left|].
  rewrite E3. simpl. eauto.
Qed.

Lemma initial_state_from_perm full full' t e y :
  full ≡ₚ full' → initial_state_from full t e = Done y →
  ∃ y', initial_state_from full' t e = Done y' ∧ same_initial y y'.
Proof.
  intros Hf E. pose proof (initial_state_from_Done _ _ _ _ E) as (Hd & Hp & Hk & Ht & Hq).
  destruct (initial_state_from_total full' t e (deck y.1)) as [y' E'];
    [by rewrite <- Hf|].
  exists y'. split; [done|].
  pose proof (initial_state_from_Done _ _ _ _ E') as (Hd' & Hp' & Hk' & Ht' & Hq').
  unfold same_initial. rewrite Hd, Hd', Hp, Hp', Ht, Ht', Hq, Hq'.
  repeat split; try done.
  apply (Permutation_cons_inv (a := e.1.2)), (Permutation_cons_inv (a := e.1.1.2)),
    (Permutation_cons_inv (a := e.1.1.1)).
  by rewrite <- Hk, <- Hk'.
Qed.

Lemma full_deck_perm cfg shuffle hard :
  reset cfg shuffle = Done hard →
  deck hard ++ dealer_hand hard ++ reverse (player_hand hard) ≡ₚ shuffle (deck_copy cfg).
Proof.
  intros E. rewrite <- (reset_cards cfg shuffle hard E). unfold cards.
  by rewrite reverse_Permutation.
Qed.

(** [get_all_initial_states] returns when the deck has three cards, and
    then its states are initial states. *)
Lemma get_all_initial_states_Done cfg shuffle1 shuffle2 :
  length (shuffle1 (deck_copy cfg)) = length (deck_copy cfg) →
  shuffle2 (deck_copy cfg) ≡ₚ deck_copy cfg →
  (3 ≤ length (deck_copy cfg))%nat →
  ∃ l, get_all_initial_states cfg shuffle1 shuffle2 = Done l.
Proof.
  intros H1 H2 H3. rewrite get_all_initial_states_eq.
  pose proof (reset_settled cfg shuffle1) as Hs1.
  destruct (reset cfg shuffle1) as [game|e|] eqn:E1; [|exfalso|done].
  2: { apply reset_Raise in E1 as [? _]. lia. }
  simpl.
  set (perms := permutations3 (deck_copy cfg)).
  assert (Z.of_nat (length perms) ≠ 0) as HN.
  { pose proof (permutations3_nonempty _ H3). unfold perms. destruct (permutations3 _); [done|].
    simpl. lia. }
  rewrite (mapM_Forall2_Done _ _
             ((λ e, (e.1, (Qc_of_Z e.2 / Qc_of_Z (Z.of_nat (length perms)))%Qc))
                <$> initial_state_counts perms)).
  2: { apply Forall2_fmap_r, Forall_Forall2_diag, Forall_forall. intros e _.
       by apply probability_of_Done. }
  simpl.
  pose proof (reset_settled cfg shuffle2) as Hs2.
  destruct (reset cfg shuffle2) as [hard|e|] eqn:E2; [|exfalso|done].
  2: { apply reset_Raise in E2 as [? _]. rewrite H2 in *. lia. }
  simpl.
  eapply (mapM_Done_total _ (λ e, ∃ rest, deck_copy cfg ≡ₚ e.1.1.1 :: e.1.1.2 :: e.1.2 :: rest)).
  - apply Forall_fmap. eapply Forall_impl; [apply initial_state_counts_counted|].
    intros [k n] [(p & Hp & Hk) _]. simpl in *. subst k.
    destruct p as [[a b] c]. destruct (permutations3_perm _ _ _ _ Hp) as [rest Hr].
    exists rest. rewrite Hr.
    destruct (initial_state_of_perm (a, b, c)) as (a' & b' & c' & -> & _ & Hperm).
    simpl in *. change (a' :: b' :: c' :: rest) with ([a'; b'; c'] ++ rest).
    by rewrite Hperm.
  - intros e [rest Hr]. eapply initial_state_from_total.
    rewrite (full_deck_perm _ _ _ E2), H2. exact Hr.
Qed.

Lemma get_all_initial_states_Raise cfg shuffle1 shuffle2 :
  length (shuffle1 (deck_copy cfg)) = length (deck_copy cfg) →
  (length (deck_copy cfg) < 3)%nat →
  get_all_initial_states cfg shuffle1 shuffle2 = Raise IndexError.
Proof.
  intros H1 H3. rewrite get_all_initial_states_eq.
  rewrite (proj2 (reset_Raise cfg shuffle1 IndexError)); [done|].
  split; [lia|done].
Qed.

Lemma get_all_initial_states_inv cfg shuffle1 shuffle2 l :
  get_all_initial_states cfg shuffle1 shuffle2 = Done l →
  ∃ hard probs,
    reset cfg shuffle2 = Done hard ∧
    Forall2 (λ e q, probability_of (Z.of_nat (length (permutations3 (deck_copy cfg)))) e
                      = Done q)
            (initial_state_counts (permutations3 (deck_copy cfg))) probs ∧
    Forall2 (λ q y, initial_state_from
                      (deck hard ++ dealer_hand hard ++ reverse (player_hand hard))
                      (turn hard) q = Done y) probs l.
Proof.
  rewrite get_all_initial_states_eq.
  destruct (reset cfg shuffle1) as [game| |] eqn:E1; simpl; [|done..].
  destruct (mapM _ (initial_state_counts _)) as [probs| |] eqn:E2; simpl; [|done..].
  destruct (reset cfg shuffle2) as [hard| |] eqn:E3; simpl; [|done..].
  intros E4. exists hard, probs. split; [done|].
  apply mapM_Done_Forall2 in E2, E4. by split.
Qed.

(** * The dictionary of the counts *)

Lemma count_of_count_up k k' d :
  count_of k' (count_up k d) = count_of k' d + (if decide (k = k') then 1 else 0).
Proof.
  induction d as [|[k1 n] d IH]; simpl.
  - by destruct (decide (k = k')).
  - destruct (decide (k1 = k)) as [->|Hk]; simpl.
    + destruct (decide (k = k')); lia.
    + destruct (decide (k1 = k')) as [->|Hk'].
      * destruct (decide (k = k')); [by subst|lia].
      * apply IH.
Qed.

Lemma count_of_initial_state_counts perms k :
  count_of k (initial_state_counts perms) =
  Z.of_nat (length (filter (λ p, initial_state_of p = k) perms)).
Proof.
  unfold initial_state_counts.
  assert (∀ d, count_of k (fold_left (λ d p, count_up (initial_state_of p) d) perms d)
               = count_of k d
                 + Z.of_nat (length (filter (λ p, initial_state_of p = k) perms))) as Hgen.
  { induction perms as [|p perms IH]; intros d; simpl; [lia|].
    rewrite IH, count_of_count_up, filter_cons.
    destruct (decide (initial_state_of p = k)); simpl; lia. }
  by rewrite Hgen.
Qed.

Lemma count_up_keys k d :
  (count_up k d).*1 = if decide (k ∈ d.*1) then d.*1 else d.*1 ++ [k].
Proof.
  induction d as [|[k1 n] d IH].
  - simpl. destruct (decide (k ∈ [])) as [Hin|_]; [by apply elem_of_nil in Hin|done].
  - cbn [count_up]. rewrite fmap_cons. cbn [fst].
    destruct (decide (k1 = k)) as [->|Hk].
    + rewrite fmap_cons. cbn [fst]. destruct (decide (k ∈ k :: d.*1)) as [_|Hn]; [done|].
      exfalso. apply Hn. left.
    + rewrite fmap_cons, IH. cbn [fst].
      destruct (decide (k ∈ d.*1)) as [Hin|Hn];
        destruct (decide (k ∈ k1 :: d.*1)) as [Hin'|Hn']; try done.
      * exfalso. apply Hn'. by right.
      * apply elem_of_cons in Hin' as [?|?]; [congruence|done].
Qed.

Lemma count_up_NoDup k d : NoDup d.*1 → NoDup (count_up k d).*1.
Proof.
  intros Hd. rewrite count_up_keys. destruct (decide (k ∈ d.*1)); [done|].
  apply NoDup_app. split; [done|]. split; [|apply NoDup_singleton].
  intros x Hx ->%list_elem_of_singleton. done.
Qed.

Lemma count_up_elem_of k k' d : k' ∈ (count_up k d).*1 ↔ k' = k ∨ k' ∈ d.*1.
Proof.
  rewrite count_up_keys. destruct (decide (k ∈ d.*1)).
  - split; [by right|]. by intros [->|?].
  - rewrite elem_of_app, list_elem_of_singleton. tauto.
Qed.

Lemma initial_state_counts_NoDup perms : NoDup (initial_state_counts perms).*1.
Proof.
  unfold initial_state_counts.
  assert (∀ d, NoDup d.*1 →
            NoDup (fold_left (λ d p, count_up (initial_state_of p) d) perms d).*1) as Hgen.
  { induction perms as [|p perms IH]; intros d Hd; [done|].
    simpl. by apply IH, count_up_NoDup. }
  apply Hgen. constructor.
Qed.

Lemma initial_state_counts_keys perms k :
  k ∈ (initial_state_counts perms).*1 ↔ ∃ p, p ∈ perms ∧ initial_state_of p = k.
Proof.
  unfold initial_state_counts.
  assert (∀ d, k ∈ (fold_left (λ d p, count_up (initial_state_of p) d) perms d).*1 ↔
               k ∈ d.*1 ∨ ∃ p, p ∈ perms ∧ initial_state_of p = k) as Hgen.
  { induction perms as [|p perms IH]; intros d; simpl.
    - split; [by left|]. intros [?|(p & Hp & _)]; [done|by apply elem_of_nil in Hp].
    - rewrite IH, count_up_elem_of. split.
      + intros [[->|?]|(q & Hq & Hk)]; [right; exists p; split; [left|done]|by left|].
        right. exists q. split; [by right|done].
      + intros [?|(q & [->|Hq]%elem_of_cons & Hk)]; [left; by right|left; by left|].
        right. by exists q. }
  rewrite Hgen. split; [|by right]. intros [Hin|?]; [|done].
  by apply elem_of_nil in Hin.
Qed.

Lemma count_of_elem_of k n d : NoDup d.*1 → (k, n) ∈ d → count_of k d = n.
Proof.
  induction d as [|[k1 n1] d IH]; simpl; [by intros _ ?%elem_of_nil|].
  intros [Hn Hd]%NoDup_cons [[= <- <-]|Hin]%elem_of_cons.
  - by destruct (decide (k = k)).
  - destruct (decide (k1 = k)) as [->|_]; [|by apply IH].
    exfalso. apply Hn. apply list_elem_of_fmap. by exists (k, n).
Qed.

(** * The states that [get_all_initial_states] returns *)

Lemma Forall2_chain {A B C} (P : A → Prop) (R1 : A → B → Prop) (R2 : B → C → Prop)
    (R : A → C → Prop) (l1 : list A) (l2 : list B) (l3 : list C) :
  (∀ a b c, P a → R1 a b → R2 b c → R a c) →
  Forall P l1 → Forall2 R1 l1 l2 → Forall2 R2 l2 l3 → Forall2 R l1 l3.
Proof.
  intros HR HP H1. revert l3 HP.
  induction H1 as [|a b l1 l2 Hab _ IH]; intros l3 HP H2.
  - inversion H2. constructor.
  - inversion H2 as [|? c ? l3' Hbc H2']. subst.
    apply Forall_cons in HP as [Ha HP]. constructor; [by eapply HR|by apply IH].
Qed.

Lemma probability_of_inv N e q :
  probability_of N e = Done q → N ≠ 0 ∧ q = (e.1, (Qc_of_Z e.2 / Qc_of_Z N)%Qc).
Proof.
  destruct e as [k n]. unfold probability_of, py_div.
  destruct (Z.eqb_spec N 0); [done|]. simpl. by intros [= <-].
Qed.

Lemma get_all_initial_states_spec cfg shuffle1 shuffle2 l :
  get_all_initial_states cfg shuffle1 shuffle2 = Done l →
  Forall2 (initial_state_for cfg shuffle2)
          (initial_state_counts (permutations3 (deck_copy cfg))).*1 l.
Proof.
  intros (hard & probs & Er & H1 & H2)%get_all_initial_states_inv.
  apply Forall2_fmap_l.
  pose proof (full_deck_perm _ _ _ Er) as Hfull.
  apply reset_Done in Er as (_ & _ & _ & _ & _ & _ & Ht).
  set (perms := permutations3 (deck_copy cfg)) in *.
  eapply (Forall2_chain
            (λ e, (∃ p, p ∈ perms ∧ e.1 = initial_state_of p) ∧
                  e.2 = count_of e.1 (initial_state_counts perms)));
    [|apply Forall_forall|exact H1|exact H2].
  - intros [k n] q y [(p & Hp & Hk) Hn] [HN ->]%probability_of_inv Hy.
    apply initial_state_from_Done in Hy as (Hd & Hh & Hc & Hturn & Hq).
    simpl in *. subst k. unfold initial_state_for.
    destruct (initial_state_of_perm p) as (a & b & c & Ek & Hle & _).
    rewrite Ek in *. simpl in *.
    split; [done|]. split; [done|]. split; [done|]. split; [congruence|]. split.
    + unfold cards. rewrite Hd, Hh, <- Hfull, Hc. simpl.
      apply (Permutation_app_comm (deck y.1) [a; b; c]).
    + rewrite Hq, Hn, count_of_initial_state_counts. done.
  - intros [k n] Hin. simpl. split.
    + pose proof (initial_state_counts_counted perms) as Hc.
      rewrite Forall_forall in Hc. by destruct (Hc _ Hin) as [? _].
    + symmetry. apply count_of_elem_of; [apply initial_state_counts_NoDup|done].
Qed.

Lemma share_positive cfg k p :
  p ∈ permutations3 (deck_copy cfg) → initial_state_of p = k → (0 < share cfg k)%Qc.
Proof.
  intros Hp Hk. unfold share.
  set (perms := permutations3 (deck_copy cfg)) in *.
  assert (0 < Z.of_nat (length (filter (λ p, initial_state_of p = k) perms))) as Hn.
  { assert (p ∈ filter (λ p, initial_state_of p = k) perms) as Hin
      by (by apply list_elem_of_filter).
    destruct (filter _ perms); [by apply elem_of_nil in Hin|simpl; lia]. }
  assert (0 < Z.of_nat (length perms)) as HN.
  { destruct perms; [by apply elem_of_nil in Hp|simpl; lia]. }
  revert Hn HN. generalize (Z.of_nat (length (filter (λ p, initial_state_of p = k) perms))).
  generalize (Z.of_nat (length perms)). intros N n Hn HN.
  unfold Qclt, Qcdiv, Qcmult, Qcinv, Qc_of_Z, Q2Qc. simpl. rewrite !Qred_correct.
  apply Qlt_shift_div_l; unfold Qlt; simpl; lia.
Qed.

(** * The totals *)

Lemma same_initial_key e1 e2 : same_initial e1 e2 → same_key e1.1 e2.1.
Proof.
  intros (Hd & Hp & Hk & Ht & _). apply same_key_intro; [by rewrite Hd|by rewrite Hp|done..].
Qed.

Lemma initial_state_for_same cfg shuffle shuffle' k e e' :
  shuffle (deck_copy cfg) ≡ₚ shuffle' (deck_copy cfg) →
  initial_state_for cfg shuffle k e → initial_state_for cfg shuffle' k e' →
  same_initial e e'.
Proof.
  intros Hs (Hd & Hp & _ & Ht & Hc & Hq) (Hd' & Hp' & _ & Ht' & Hc' & Hq').
  unfold same_initial. rewrite Hd, Hd', Hp, Hp', Ht, Ht', Hq, Hq'.
  repeat split; try done.
  unfold cards in Hc, Hc'. rewrite Hd, Hp in Hc. rewrite Hd', Hp' in Hc'.
  apply (Permutation_app_inv_r ([k.1.1] ++ [k.1.2; k.2])). by rewrite Hc, Hc'.
Qed.

Lemma Forall2_same_left {A B} (R R' : A → B → Prop) (S : B → B → Prop)
    (ks : list A) (l l' : list B) :
  (∀ k e e', R k e → R' k e' → S e e') →
  Forall2 R ks l → Forall2 R' ks l' → Forall2 S l l'.
Proof.
  intros HS H1. revert l'. induction H1 as [|k e ks l Hke _ IH]; intros l' H2.
  - inversion H2. constructor.
  - inversion H2 as [|? e' ? l2 Hke' H2']. subst. constructor; [by eapply HS|by apply IH].
Qed.

(** The shuffles change the order of the decks only. *)
Lemma get_all_initial_states_same cfg shuffle1 shuffle2 shuffle1' shuffle2' l l' :
  shuffle2 (deck_copy cfg) ≡ₚ shuffle2' (deck_copy cfg) →
  get_all_initial_states cfg shuffle1 shuffle2 = Done l →
  get_all_initial_states cfg shuffle1' shuffle2' = Done l' →
  Forall2 same_initial l l'.
Proof.
  intros Hs E E'. apply get_all_initial_states_spec in E, E'.
  eapply Forall2_same_left; [|exact E|exact E'].
  intros k e e'. by apply initial_state_for_same.
Qed.

Lemma get_all_initial_states_turn cfg shuffle1 shuffle2 l :
  get_all_initial_states cfg shuffle1 shuffle2 = Done l → Forall (λ e, turn e.1 = 0) l.
Proof.
  intros E%get_all_initial_states_spec. eapply Forall2_Forall_r; [exact E|].
  apply Forall_forall. by intros k _ e (_ & _ & _ & Ht & _).
Qed.

Lemma get_all_initial_states_positive cfg shuffle1 shuffle2 l :
  get_all_initial_states cfg shuffle1 shuffle2 = Done l → Forall (λ e, (0 < e.2)%Qc) l.
Proof.
  intros E%get_all_initial_states_spec. eapply Forall2_Forall_r; [exact E|].
  apply Forall_forall. intros k Hk e (_ & _ & _ & _ & _ & ->).
  apply initial_state_counts_keys in Hk as (p & Hp & Hk). by eapply share_positive.
Qed.

(** The probabilities of the initial states add up to 1. *)
Lemma get_all_initial_states_total cfg shuffle1 shuffle2 l :
  length (shuffle1 (deck_copy cfg)) = length (deck_copy cfg) →
  get_all_initial_states cfg shuffle1 shuffle2 = Done l →
  total_probability l = 1%Qc.
Proof.
  intros Hsh E.
  assert (permutations3 (deck_copy cfg) ≠ []) as Hne.
  { apply permutations3_nonempty. rewrite <- Hsh.
    unfold get_all_initial_states in E.
    destruct (reset cfg shuffle1) as [game| |] eqn:E1; [|done..].
    by apply reset_length in E1. }
  apply get_all_initial_states_inv in E as (hard & probs & _ & H1 & H2).
  set (perms := permutations3 (deck_copy cfg)) in *.
  set (N := Z.of_nat (length perms)) in *.
  assert (N ≠ 0) as HN by (unfold N; destruct perms; [done|simpl; lia]).
  assert (Qc_of_Z N ≠ 0%Qc) as HN'.
  { intros E. apply HN. apply Z2Qc_inj. by rewrite Z2Qc_inj_0. }
  assert (∀ d probs l,
    Forall2 (λ e q, probability_of N e = Done q) d probs →
    Forall2 (λ q y, initial_state_from
                      (deck hard ++ dealer_hand hard ++ reverse (player_hand hard))
                      (turn hard) q = Done y) probs l →
    (total_probability l * Qc_of_Z N = Qc_of_Z (counted d))%Qc) as Hgen.
  { clear -HN'. intros d probs l H1. revert l.
    induction H1 as [|e q d probs Hq _ IH]; intros l H2.
    - inversion H2. subst. unfold total_probability, counted. simpl.
      rewrite Z2Qc_inj_0. apply Qcmult_0_l.
    - inversion H2 as [|? y ? l' Hy H2']. subst.
      apply probability_of_inv in Hq as [_ ->].
      apply initial_state_from_Done in Hy as (_ & _ & _ & _ & Hy). simpl in Hy.
      rewrite total_probability_cons, Hy.
      unfold counted in *. simpl. rewrite Z2Qc_inj_add, <- (IH l' H2').
      rewrite Qcmult_plus_distr_l. f_equal.
      unfold Qcdiv. by rewrite <- Qcmult_assoc, Qcmult_inv_l, Qcmult_1_r. }
  rewrite <- (Qcmult_1_r (total_probability l)).
  rewrite <- (Qcmult_inv_r (Qc_of_Z N)) by done.
  by rewrite Qcmult_assoc, (Hgen _ _ _ H1 H2), counted_initial_state_counts.
Qed.

Section EngineFresh.
Context {T : Type} `{Slots T}.
Variable over : BlackJack → bool * option Qc.
Variable terminal : Qc → T.
Variable plan_of : BlackJack → outcome (plan T).
Hypothesis over_key : ∀ g1 g2, same_key g1 g2 → over g1 = over g2.
Hypothesis plan_key : ∀ g1 g2, same_key g1 g2 → plan_of g1 = plan_of g2.

(** A call on the record of earlier calls gives what the call on a fresh
    record gives, and leaves a record for the next call. *)
Lemma solve_fresh fuel g r :
  sound_record over terminal plan_of r → settled (value over terminal plan_of fuel g) →
  match solve over terminal plan_of fuel g r with
  | Done (v, r') =>
      fst <$> solve over terminal plan_of fuel g ∅ = Done v ∧
      sound_record over terminal plan_of r'
  | Raise e => fst <$> solve over terminal plan_of fuel g ∅ = Raise e
  | OutOfFuel => False
  end.
Proof.
  intros Hr Hs.
  pose proof (solve_value over terminal plan_of over_key plan_key fuel g r Hr Hs) as E.
  pose proof (solve_value over terminal plan_of over_key plan_key fuel g ∅
                (sound_empty over terminal plan_of) Hs) as E0.
  rewrite E0, <- E.
  destruct (solve over terminal plan_of fuel g r) as [[v r']|e|] eqn:Es; simpl.
  - split; [done|]. by eapply (solve_sound over terminal plan_of over_key plan_key).
  - done.
  - simpl in E. by rewrite <- E in Hs.
Qed.
End EngineFresh.

Lemma op_theoretical_fresh cfg g r :
  turn g ≤ 1 →
  sound_record (OnePlayer.is_game_over cfg) (λ result, (result, result))
               OnePlayer.theoretical_plan r →
  match OnePlayer.get_theoretical_win_probability cfg (OnePlayer.fuel_for g) g r with
  | Done (v, r') =>
      OnePlayer.theoretical_win_probability cfg g = Done v ∧
      sound_record (OnePlayer.is_game_over cfg) (λ result, (result, result))
                   OnePlayer.theoretical_plan r'
  | Raise e => OnePlayer.theoretical_win_probability cfg g = Raise e
  | OutOfFuel => False
  end.
Proof.
  intros Ht Hr. unfold OnePlayer.theoretical_win_probability.
  rewrite !op_theoretical_solve.
  apply solve_fresh; [apply op_over_key|apply op_theoretical_plan_key|done|].
  apply (value_settled _ _ _ 1); [apply op_theoretical_plan_settled
    |apply op_theoretical_stay_turn|done|unfold rank, OnePlayer.fuel_for; lia].
Qed.

Lemma op_ai_fresh cfg a g r :
  turn g ≤ 1 →
  sound_record (OnePlayer.is_game_over cfg) (λ result, result) (OnePlayer.ai_plan cfg a) r →
  match OnePlayer.get_ai_win_probability cfg a (OnePlayer.fuel_for g) g r with
  | Done (v, r') =>
      OnePlayer.ai_win_probability cfg a g = Done v ∧
      sound_record (OnePlayer.is_game_over cfg) (λ result, result)
                   (OnePlayer.ai_plan cfg a) r'
  | Raise e => OnePlayer.ai_win_probability cfg a g = Raise e
  | OutOfFuel => False
  end.
Proof.
  intros Ht Hr. unfold OnePlayer.ai_win_probability.
  rewrite !op_ai_solve.
  apply solve_fresh; [apply op_over_key|apply op_ai_plan_key|done|].
  apply (value_settled _ _ _ 1); [apply op_ai_plan_settled
    |apply op_ai_stay_turn|done|unfold rank, OnePlayer.fuel_for; lia].
Qed.

Lemma tp_theoretical_fresh cfg g r :
  turn g ≤ 2 →
  sound_record (TwoPlayer.is_game_over cfg) (λ result, (result, result, result, result))
               TwoPlayer.theoretical_plan r →
  match TwoPlayer.get_theoretical_win_probability cfg (TwoPlayer.fuel_for g) g r with
  | Done (v, r') =>
      TwoPlayer.theoretical_win_probability cfg g = Done v ∧
      sound_record (TwoPlayer.is_game_over cfg)
                   (λ result, (result, result, result, result))
                   TwoPlayer.theoretical_plan r'
  | Raise e => TwoPlayer.theoretical_win_probability cfg g = Raise e
  | OutOfFuel => False
  end.
Proof.
  intros Ht Hr. unfold TwoPlayer.theoretical_win_probability.
  rewrite !tp_theoretical_solve.
  apply solve_fresh; [apply tp_over_key|apply tp_theoretical_plan_key|done|].
  apply (value_settled _ _ _ 2); [apply tp_theoretical_plan_settled
    |apply tp_theoretical_stay_turn|done|unfold rank, TwoPlayer.fuel_for; lia].
Qed.

Lemma tp_ai_fresh cfg pa da g r :
  turn g ≤ 2 →
  sound_record (TwoPlayer.is_game_over cfg) (λ result, (result, result, result))
               (TwoPlayer.ai_plan cfg pa da) r →
  match TwoPlayer.get_ai_win_probability cfg pa da (TwoPlayer.fuel_for g) g r with
  | Done (v, r') =>
      TwoPlayer.ai_win_probability cfg pa da g = Done v ∧
      sound_record (TwoPlayer.is_game_over cfg) (λ result, (result, result, result))
                   (TwoPlayer.ai_plan cfg pa da) r'
  | Raise e => TwoPlayer.ai_win_probability cfg pa da g = Raise e
  | OutOfFuel => False
  end.
Proof.
  intros Ht Hr. unfold TwoPlayer.ai_win_probability.
  rewrite !tp_ai_solve.
  apply solve_fresh; [apply tp_over_key|apply tp_ai_plan_key|done|].
  apply (value_settled _ _ _ 2); [apply tp_ai_plan_settled
    |apply tp_ai_stay_turn|done|unfold rank, TwoPlayer.fuel_for; lia].
Qed.

(** The loops of the totals, with the record of the loop and with a fresh
    record for every state. *)
Lemma op_theoretical_total_loop cfg l totals r :
  Forall (λ e, turn e.1 = 0) l →
  sound_record (OnePlayer.is_game_over cfg) (λ result, (result, result))
               OnePlayer.theoretical_plan r →
  OnePlayerTotal.total_loop cfg l totals r =
  totals_of_values (OnePlayer.theoretical_win_probability cfg) l totals.
Proof.
  intros Hl. revert totals r.
  induction Hl as [|[g p] l Ht _ IH]; intros totals r Hr; [done|].
  simpl in Ht. cbn [OnePlayerTotal.total_loop totals_of_values].
  pose proof (op_theoretical_fresh cfg g r ltac:(lia) Hr) as Hf.
  destruct (OnePlayer.get_theoretical_win_probability cfg _ g r) as [[v r']|e|];
    [|by rewrite Hf|done].
  destruct Hf as [-> Hr']. simpl. by apply IH.
Qed.

Lemma op_ai_total_loop cfg a l total r :
  Forall (λ e, turn e.1 = 0) l →
  sound_record (OnePlayer.is_game_over cfg) (λ result, result) (OnePlayer.ai_plan cfg a) r →
  OnePlayerAiTotal.total_loop cfg a l total r =
  totals_of_values (OnePlayer.ai_win_probability cfg a) l total.
Proof.
  intros Hl. revert total r.
  induction Hl as [|[g p] l Ht _ IH]; intros total r Hr; [done|].
  simpl in Ht. cbn [OnePlayerAiTotal.total_loop totals_of_values].
  pose proof (op_ai_fresh cfg a g r ltac:(lia) Hr) as Hf.
  destruct (OnePlayer.get_ai_win_probability cfg a _ g r) as [[v r']|e|];
    [|by rewrite Hf|done].
  destruct Hf as [-> Hr']. simpl. by apply IH.
Qed.

Lemma tp_theoretical_total_loop cfg l totals r :
  Forall (λ e, turn e.1 = 0) l →
  sound_record (TwoPlayer.is_game_over cfg) (λ result, (result, result, result, result))
               TwoPlayer.theoretical_plan r →
  TwoPlayerTotal.total_loop cfg l totals r =
  totals_of_values (TwoPlayer.theoretical_win_probability cfg) l totals.
Proof.
  intros Hl. revert totals r.
  induction Hl as [|[g p] l Ht _ IH]; intros totals r Hr; [done|].
  simpl in Ht. cbn [TwoPlayerTotal.total_loop totals_of_values].
  pose proof (tp_theoretical_fresh cfg g r ltac:(lia) Hr) as Hf.
  destruct (TwoPlayer.get_theoretical_win_probability cfg _ g r) as [[v r']|e|];
    [|by rewrite Hf|done].
  destruct Hf as [-> Hr']. simpl. by apply IH.
Qed.

Lemma tp_ai_total_loop cfg pa da l totals r :
  Forall (λ e, turn e.1 = 0) l →
  sound_record (TwoPlayer.is_game_over cfg) (λ result, (result, result, result))
               (TwoPlayer.ai_plan cfg pa da) r →
  TwoPlayerTotal.ai_total_loop cfg pa da l totals r =
  totals_of_values (TwoPlayer.ai_win_probability cfg pa da) l totals.
Proof.
  intros Hl. revert totals r.
  induction Hl as [|[g p] l Ht _ IH]; intros totals r Hr; [done|].
  simpl in Ht. cbn [TwoPlayerTotal.ai_total_loop totals_of_values].
  pose proof (tp_ai_fresh cfg pa da g r ltac:(lia) Hr) as Hf.
  destruct (TwoPlayer.get_ai_win_probability cfg pa da _ g r) as [[v r']|e|];
    [|by rewrite Hf|done].
  destruct Hf as [-> Hr']. simpl. by apply IH.
Qed.

(** * The totals from the values of the initial states *)

Lemma same_key_op_fuel g1 g2 : same_key g1 g2 → OnePlayer.fuel_for g1 = OnePlayer.fuel_for g2.
Proof.
  intros (_ & _ & Hk & Ht)%same_key_inv. unfold OnePlayer.fuel_for. by rewrite Hk, Ht.
Qed.

Lemma same_key_tp_fuel g1 g2 : same_key g1 g2 → TwoPlayer.fuel_for g1 = TwoPlayer.fuel_for g2.
Proof.
  intros (_ & _ & Hk & Ht)%same_key_inv. unfold TwoPlayer.fuel_for. by rewrite Hk, Ht.
Qed.

Lemma op_theoretical_key cfg g1 g2 :
  same_key g1 g2 →
  OnePlayer.theoretical_win_probability cfg g1 = OnePlayer.theoretical_win_probability cfg g2.
Proof.
  intros Hk. unfold OnePlayer.theoretical_win_probability.
  rewrite (same_key_op_fuel g1 g2 Hk), !op_theoretical_solve.
  by rewrite (solve_key _ _ _ (op_over_key cfg) op_theoretical_plan_key _ g1 g2 ∅ Hk).
Qed.

Lemma op_ai_key cfg a g1 g2 :
  same_key g1 g2 →
  OnePlayer.ai_win_probability cfg a g1 = OnePlayer.ai_win_probability cfg a g2.
Proof.
  intros Hk. unfold OnePlayer.ai_win_probability.
  rewrite (same_key_op_fuel g1 g2 Hk), !op_ai_solve.
  by rewrite (solve_key _ _ _ (op_over_key cfg) (op_ai_plan_key cfg a) _ g1 g2 ∅ Hk).
Qed.

Lemma tp_theoretical_key cfg g1 g2 :
  same_key g1 g2 →
  TwoPlayer.theoretical_win_probability cfg g1 = TwoPlayer.theoretical_win_probability cfg g2.
Proof.
  intros Hk. unfold TwoPlayer.theoretical_win_probability.
  rewrite (same_key_tp_fuel g1 g2 Hk), !tp_theoretical_solve.
  by rewrite (solve_key _ _ _ (tp_over_key cfg) tp_theoretical_plan_key _ g1 g2 ∅ Hk).
Qed.

Lemma tp_ai_key cfg pa da g1 g2 :
  same_key g1 g2 →
  TwoPlayer.ai_win_probability cfg pa da g1 = TwoPlayer.ai_win_probability cfg pa da g2.
Proof.
  intros Hk. unfold TwoPlayer.ai_win_probability.
  rewrite (same_key_tp_fuel g1 g2 Hk), !tp_ai_solve.
  by rewrite (solve_key _ _ _ (tp_over_key cfg) (tp_ai_plan_key cfg pa da) _ g1 g2 ∅ Hk).
Qed.

Lemma totals_of_values_same {T} `{Slots T} (val : BlackJack → outcome T)
    (l l' : list (BlackJack * Qc)) (totals : T) :
  (∀ g1 g2, same_key g1 g2 → val g1 = val g2) → Forall2 same_initial l l' →
  totals_of_values val l totals = totals_of_values val l' totals.
Proof.
  intros Hv Hl. revert totals.
  induction Hl as [|[g p] [g' p'] l l' He _ IH]; intros totals; [done|].
  simpl. rewrite (Hv g g') by apply (same_initial_key _ _ He).
  destruct He as (_ & _ & _ & _ & Hp). simpl in Hp. subst p'.
  destruct (val g'); simpl; [apply IH|done..].
Qed.

Lemma totals_of_values_Done {T} `{Slots T} (val : BlackJack → outcome T)
    (l : list (BlackJack * Qc)) (totals : T) :
  Forall (λ e, ∃ v, val e.1 = Done v) l → ∃ t, totals_of_values val l totals = Done t.
Proof.
  intros Hl. revert totals.
  induction Hl as [|[g p] l [v Hv] _ IH]; intros totals; [by exists totals|].
  simpl in *. rewrite Hv. simpl. apply IH.
Qed.

(** A relation between the tuples of two solvers that the sums keep. *)
Lemma totals_of_values_related {T1 T2} `{Slots T1} `{Slots T2} (Rel : T1 → T2 → Prop)
    (val1 : BlackJack → outcome T1) (val2 : BlackJack → outcome T2)
    (l : list (BlackJack * Qc)) (t1 x : T1) (t2 y : T2) :
  (∀ a b p v w, (0 ≤ p)%Qc → Rel a b → Rel v w →
                Rel (slots_add_scaled a p v) (slots_add_scaled b p w)) →
  Forall (λ e, (0 ≤ e.2)%Qc ∧ ∀ v w, val1 e.1 = Done v → val2 e.1 = Done w → Rel v w) l →
  Rel t1 t2 →
  totals_of_values val1 l t1 = Done x → totals_of_values val2 l t2 = Done y → Rel x y.
Proof.
  intros Hadd Hl. revert t1 t2.
  induction Hl as [|[g p] l [Hp Hv] _ IH]; intros t1 t2 Ht; simpl.
  - by intros [= <-] [= <-].
  - simpl in *. destruct (val1 g) as [v| |]; simpl; [|done..].
    destruct (val2 g) as [w| |]; simpl; [|done..].
    apply IH. apply Hadd; [done..|]. by apply Hv.
Qed.

(** A property of the tuples that the sums keep. *)
Lemma totals_of_values_keeps {T} `{Slots T} (P : T → Prop) (val : BlackJack → outcome T)
    (l : list (BlackJack * Qc)) (t x : T) :
  (∀ a p v, (0 ≤ p)%Qc → P a → P v → P (slots_add_scaled a p v)) →
  Forall (λ e, (0 ≤ e.2)%Qc ∧ ∀ v, val e.1 = Done v → P v) l →
  P t → totals_of_values val l t = Done x → P x.
Proof.
  intros Hadd Hl. revert t.
  induction Hl as [|[g p] l [Hp Hv] _ IH]; intros t Ht; simpl.
  - by intros [= <-].
  - simpl in *. destruct (val g) as [v| |]; simpl; [|done..].
    apply IH. apply Hadd; [done..|]. by apply Hv.
Qed.

(** The sums stay within the probability that has been added. *)
Lemma totals_of_values_weighted {T} `{Slots T} (P : T → Prop) (W : Qc → T → Prop)
    (val : BlackJack → outcome T) (l : list (BlackJack * Qc)) (w : Qc) (t x : T) :
  (∀ w a p v, (0 ≤ p)%Qc → W w a → P v → W (w + p)%Qc (slots_add_scaled a p v)) →
  Forall (λ e, (0 ≤ e.2)%Qc ∧ ∀ v, val e.1 = Done v → P v) l →
  W w t → totals_of_values val l t = Done x → W (w + total_probability l)%Qc x.
Proof.
  intros Hadd Hl. revert w t.
  induction Hl as [|[g p] l [Hp Hv] _ IH]; intros w t Ht; simpl.
  - intros [= <-]. unfold total_probability. simpl. by rewrite Qcplus_0_r.
  - simpl in *. destruct (val g) as [v| |]; simpl; [|done..].
    intros E. rewrite total_probability_cons. simpl. rewrite Qcplus_assoc.
    eapply IH; [|exact E]. apply Hadd; [done..|]. by apply Hv.
Qed.

(** What the values of the initial states are. *)
Lemma op_theoretical_fresh_probabilities cfg g v :
  OnePlayer.theoretical_win_probability cfg g = Done v → probabilities2 v.
Proof.
  unfold OnePlayer.theoretical_win_probability.
  destruct (OnePlayer.get_theoretical_win_probability cfg _ g ∅) as [[v' r]| |] eqn:E;
    simpl; [|done..].
  intros [= <-]. exact (proj1 (op_theoretical_probabilities cfg _ g ∅ v' r (map_Forall_empty _) E)).
Qed.

Lemma op_ai_fresh_probability cfg a g v :
  OnePlayer.ai_win_probability cfg a g = Done v → probability v.
Proof.
  unfold OnePlayer.ai_win_probability.
  destruct (OnePlayer.get_ai_win_probability cfg a _ g ∅) as [[v' r]| |] eqn:E;
    simpl; [|done..].
  intros [= <-]. exact (proj1 (op_ai_probabilities cfg a _ g ∅ v' r (map_Forall_empty _) E)).
Qed.

Lemma tp_theoretical_fresh_probabilities cfg g v :
  TwoPlayer.theoretical_win_probability cfg g = Done v → probabilities4 v.
Proof.
  unfold TwoPlayer.theoretical_win_probability.
  destruct (TwoPlayer.get_theoretical_win_probability cfg _ g ∅) as [[v' r]| |] eqn:E;
    simpl; [|done..].
  intros [= <-]. exact (proj1 (tp_theoretical_probabilities cfg _ g ∅ v' r (map_Forall_empty _) E)).
Qed.

Lemma tp_ai_fresh_probabilities cfg pa da g v :
  TwoPlayer.ai_win_probability cfg pa da g = Done v → probabilities3 v.
Proof.
  unfold TwoPlayer.ai_win_probability.
  destruct (TwoPlayer.get_ai_win_probability cfg pa da _ g ∅) as [[v' r]| |] eqn:E;
    simpl; [|done..].
  intros [= <-]. exact (proj1 (tp_ai_probabilities cfg pa da _ g ∅ v' r (map_Forall_empty _) E)).
Qed.

Lemma op_theoretical_fresh_ordered cfg g v :
  OnePlayer.theoretical_win_probability cfg g = Done v → op_ordered v.
Proof.
  unfold OnePlayer.theoretical_win_probability.
  destruct (OnePlayer.get_theoretical_win_probability cfg _ g ∅) as [[v' r]| |] eqn:E;
    simpl; [|done..].
  intros [= <-]. exact (proj1 (op_theoretical_ordered cfg _ g ∅ v' r (map_Forall_empty _) E)).
Qed.

Lemma tp_theoretical_fresh_ordered cfg g v :
  TwoPlayer.theoretical_win_probability cfg g = Done v →
  tp_ordered v ∧ tp_dealer_ordered v.
Proof.
  unfold TwoPlayer.theoretical_win_probability.
  destruct (TwoPlayer.get_theoretical_win_probability cfg _ g ∅) as [[v' r]| |] eqn:E;
    simpl; [|done..].
  intros [= <-]. split.
  - exact (proj1 (tp_theoretical_ordered cfg _ g ∅ v' r (map_Forall_empty _) E)).
  - exact (proj1 (tp_theoretical_dealer_ordered cfg _ g ∅ v' r (map_Forall_empty _) E)).
Qed.

(** * Further properties of the initial states and of the totals *)

(** X16. [get_all_initial_states] needs three cards: when the shuffles
    permute the deck, it raises [IndexError] (from the [pop] of [reset]) on a
    deck of fewer than three cards, and returns its list on every other
    deck. *)
Theorem initial_states_need_three_cards (cfg : Config)
    (shuffle1 shuffle2 : list Z → list Z) :
  length (shuffle1 (deck_copy cfg)) = length (deck_copy cfg) →
  shuffle2 (deck_copy cfg) ≡ₚ deck_copy cfg →
  ((length (deck_copy cfg) < 3)%nat →
   get_all_initial_states cfg shuffle1 shuffle2 = Raise IndexError) ∧
  ((3 ≤ length (deck_copy cfg))%nat →
   ∃ l, get_all_initial_states cfg shuffle1 shuffle2 = Done l ∧ l ≠ []).
Proof.
  intros H1 H2. split; [by apply get_all_initial_states_Raise|].
  intros H3. destruct (get_all_initial_states_Done cfg shuffle1 shuffle2 H1 H2 H3) as [l E].
  exists l. split; [done|]. intros ->.
  pose proof (get_all_initial_states_total cfg shuffle1 shuffle2 [] H1 E) as Ht.
  by vm_compute in Ht.
Qed.

Lemma initial_states_need_three_cards_witness :
  ∃ l, get_all_initial_states small_cfg id reverse = Done l ∧ l ≠ [].
Proof.
  apply (proj2 (initial_states_need_three_cards small_cfg id reverse eq_refl
                  (reverse_Permutation _))).
  vm_compute. lia.
Defined.

(** X17. The list of [get_all_initial_states] has one state for every
    deal: the keys (dealer card, lower player card, higher player card) of its
    states are pairwise distinct and are those of the ordered draws of three
    cards from the deck; the state of a key holds its cards in the two hands
    and the other cards in the deck, the player is to move, and its
    probability is the share of the ordered draws that give the key. *)
Theorem initial_states_are_the_deals (cfg : Config)
    (shuffle1 shuffle2 : list Z → list Z) (l : list (BlackJack * Qc)) :
  get_all_initial_states cfg shuffle1 shuffle2 = Done l →
  ∃ ks, NoDup ks ∧
        (∀ k, k ∈ ks ↔ ∃ p, p ∈ permutations3 (deck_copy cfg) ∧ initial_state_of p = k) ∧
        Forall2 (initial_state_for cfg shuffle2) ks l.
Proof.
  intros E. exists (initial_state_counts (permutations3 (deck_copy cfg))).*1.
  split; [apply initial_state_counts_NoDup|].
  split; [apply initial_state_counts_keys|]. by eapply get_all_initial_states_spec.
Qed.

Lemma initial_states_are_the_deals_witness :
  ∃ l, get_all_initial_states small_cfg id reverse = Done l ∧
  ∃ ks, NoDup ks ∧
        (∀ k, k ∈ ks ↔
              ∃ p, p ∈ permutations3 (deck_copy small_cfg) ∧ initial_state_of p = k) ∧
        Forall2 (initial_state_for small_cfg reverse) ks l.
Proof.
  destruct (get_all_initial_states small_cfg id reverse) as [l| |] eqn:E;
    [|exfalso; revert E; vm_compute; discriminate..].
  exists l. split; [reflexivity|].
  exact (initial_states_are_the_deals small_cfg id reverse l E).
Defined.

(** X18. The record that the loop of a total shares between the initial
    states is a cache and no more: each of the four totals is what the loop
    gives when every initial state is solved on an empty record of its
    own, with the same result, the same exception or none. *)
Theorem record_of_the_totals_is_a_cache (cfg : Config)
    (a player_agent dealer_agent : agent) (shuffle1 shuffle2 : list Z → list Z) :
  OnePlayerTotal.get_total_theoretical_win_probability cfg shuffle1 shuffle2 =
    (initial_states ← get_all_initial_states cfg shuffle1 shuffle2;
     totals_of_values (OnePlayer.theoretical_win_probability cfg) initial_states
                      (0, 0)%Qc) ∧
  OnePlayerAiTotal.get_total_ai_win_probability cfg a shuffle1 shuffle2 =
    (initial_states ← get_all_initial_states cfg shuffle1 shuffle2;
     totals_of_values (OnePlayer.ai_win_probability cfg a) initial_states 0%Qc) ∧
  TwoPlayerTotal.get_total_theoretical_win_probability cfg shuffle1 shuffle2 =
    (initial_states ← get_all_initial_states cfg shuffle1 shuffle2;
     totals_of_values (TwoPlayer.theoretical_win_probability cfg) initial_states
                      (0, 0, 0, 0)%Qc) ∧
  TwoPlayerTotal.get_total_ai_win_probability cfg player_agent dealer_agent
      shuffle1 shuffle2 =
    (initial_states ← get_all_initial_states cfg shuffle1 shuffle2;
     totals_of_values (TwoPlayer.ai_win_probability cfg player_agent dealer_agent)
                      initial_states (0, 0, 0)%Qc).
Proof.
  unfold OnePlayerTotal.get_total_theoretical_win_probability,
    OnePlayerAiTotal.get_total_ai_win_probability,
    TwoPlayerTotal.get_total_theoretical_win_probability,
    TwoPlayerTotal.get_total_ai_win_probability.
  destruct (get_all_initial_states cfg shuffle1 shuffle2) as [l| |] eqn:E; [|done..].
  apply get_all_initial_states_turn in E. simpl.
  split; [|split; [|split]].
  - apply op_theoretical_total_loop; [done|apply sound_empty].
  - apply op_ai_total_loop; [done|apply sound_empty].
  - apply tp_theoretical_total_loop; [done|apply sound_empty].
  - apply tp_ai_total_loop; [done|apply sound_empty].
Qed.

(** X19. The totals do not depend on the shuffles: two runs whose shuffles
    permute the deck give the same four totals, whatever the orders that the
    shuffles have left. *)
Theorem totals_do_not_depend_on_the_shuffles (cfg : Config)
    (a player_agent dealer_agent : agent)
    (shuffle1 shuffle2 shuffle1' shuffle2' : list Z → list Z) :
  length (shuffle1 (deck_copy cfg)) = length (deck_copy cfg) →
  length (shuffle1' (deck_copy cfg)) = length (deck_copy cfg) →
  shuffle2 (deck_copy cfg) ≡ₚ deck_copy cfg →
  shuffle2' (deck_copy cfg) ≡ₚ deck_copy cfg →
  OnePlayerTotal.get_total_theoretical_win_probability cfg shuffle1 shuffle2 =
    OnePlayerTotal.get_total_theoretical_win_probability cfg shuffle1' shuffle2' ∧
  OnePlayerAiTotal.get_total_ai_win_probability cfg a shuffle1 shuffle2 =
    OnePlayerAiTotal.get_total_ai_win_probability cfg a shuffle1' shuffle2' ∧
  TwoPlayerTotal.get_total_theoretical_win_probability cfg shuffle1 shuffle2 =
    TwoPlayerTotal.get_total_theoretical_win_probability cfg shuffle1' shuffle2' ∧
  TwoPlayerTotal.get_total_ai_win_probability cfg player_agent dealer_agent
      shuffle1 shuffle2 =
    TwoPlayerTotal.get_total_ai_win_probability cfg player_agent dealer_agent
      shuffle1' shuffle2'.
Proof.
  intros H1 H1' H2 H2'.
  unfold OnePlayerTotal.get_total_theoretical_win_probability,
    OnePlayerAiTotal.get_total_ai_win_probability,
    TwoPlayerTotal.get_total_theoretical_win_probability,
    TwoPlayerTotal.get_total_ai_win_probability.
  destruct (decide (length (deck_copy cfg) < 3)%nat) as [H3|H3].
  - by rewrite !get_all_initial_states_Raise by done.
  - destruct (get_all_initial_states_Done cfg shuffle1 shuffle2 H1 H2) as [l E]; [lia|].
    destruct (get_all_initial_states_Done cfg shuffle1' shuffle2' H1' H2') as [l' E'];
      [lia|].
    rewrite E, E'. simpl.
    assert (Forall2 same_initial l l') as Hs.
    { eapply get_all_initial_states_same; [|exact E|exact E']. by rewrite H2, H2'. }
    pose proof (get_all_initial_states_turn _ _ _ _ E) as Ht.
    pose proof (get_all_initial_states_turn _ _ _ _ E') as Ht'.
    rewrite !op_theoretical_total_loop, !op_ai_total_loop,
      !tp_theoretical_total_loop, !tp_ai_total_loop by (done || apply sound_empty).
    split; [|split; [|split]]; apply totals_of_values_same; try done.
    + apply op_theoretical_key.
    + apply op_ai_key.
    + apply tp_theoretical_key.
    + apply tp_ai_key.
Qed.

Lemma totals_do_not_depend_on_the_shuffles_witness :
  OnePlayerTotal.get_total_theoretical_win_probability small_cfg id reverse =
    OnePlayerTotal.get_total_theoretical_win_probability small_cfg reverse id.
Proof.
  apply (totals_do_not_depend_on_the_shuffles small_cfg (λ _, Action 0) (λ _, Action 0)
           (λ _, Action 0) id reverse reverse id eq_refl eq_refl
           (reverse_Permutation _) (Permutation_refl _)).
Defined.

(** X21. No agent's total beats the optimal total: in the one-player game
    the total of [get_total_ai_win_probability] is at most the optimal
    component of [get_total_theoretical_win_probability]; in the two-player
    game the total of the agent player against the random dealer is at most
    that of the optimal player against the random dealer, and the total of the
    random player against the agent dealer is at least the one against the
    optimal dealer. *)
Theorem no_agent_total_beats_the_optimal_total (cfg : Config)
    (a player_agent dealer_agent : agent) (shuffle1 shuffle2 : list Z → list Z) :
  (∀ p v,
     OnePlayerAiTotal.get_total_ai_win_probability cfg a shuffle1 shuffle2 = Done p →
     OnePlayerTotal.get_total_theoretical_win_probability cfg shuffle1 shuffle2 = Done v →
     (p ≤ v.1)%Qc) ∧
  (∀ p v,
     TwoPlayerTotal.get_total_ai_win_probability cfg player_agent dealer_agent
       shuffle1 shuffle2 = Done p →
     TwoPlayerTotal.get_total_theoretical_win_probability cfg shuffle1 shuffle2 = Done v →
     (p.1.2 ≤ v.1.1.2)%Qc ∧ (v.1.2 ≤ p.2)%Qc).
Proof.
  unfold OnePlayerTotal.get_total_theoretical_win_probability,
    OnePlayerAiTotal.get_total_ai_win_probability,
    TwoPlayerTotal.get_total_theoretical_win_probability,
    TwoPlayerTotal.get_total_ai_win_probability.
  destruct (get_all_initial_states cfg shuffle1 shuffle2) as [l| |] eqn:E;
    [|by split..].
  simpl. pose proof (get_all_initial_states_turn _ _ _ _ E) as Hturn.
  pose proof (get_all_initial_states_positive _ _ _ _ E) as Hpos.
  rewrite op_theoretical_total_loop, op_ai_total_loop,
    tp_theoretical_total_loop, tp_ai_total_loop by (done || apply sound_empty).
  split.
  - intros p v Ep Ev.
    apply (totals_of_values_related (λ (p : Qc) (v : Qc * Qc), (p ≤ v.1)%Qc)
             (OnePlayer.ai_win_probability cfg a)
             (OnePlayer.theoretical_win_probability cfg) l 0%Qc p (0, 0)%Qc v);
      [| |apply Qcle_refl|done|done].
    + intros x y q x' y' Hq Hxy Hxy'. simpl. by apply add_scaled_mono.
    + rewrite Forall_forall in Hturn, Hpos. apply Forall_forall. intros e He.
      split; [by apply Qclt_le_weak, Hpos|]. intros x y Ex Ey.
      rewrite <- (op_ai_value cfg a (OnePlayer.fuel_for e.1)) in Ex
        by (rewrite ?(Hturn e He); lia).
      rewrite <- (op_theoretical_value cfg (OnePlayer.fuel_for e.1)) in Ey
        by (rewrite ?(Hturn e He); lia).
      by eapply op_value_ai_le_optimal.
  - intros p v Ep Ev.
    apply (totals_of_values_related
             (λ (p : Qc * Qc * Qc) (v : Qc * Qc * Qc * Qc),
                (p.1.2 ≤ v.1.1.2)%Qc ∧ (v.1.2 ≤ p.2)%Qc)
             (TwoPlayer.ai_win_probability cfg player_agent dealer_agent)
             (TwoPlayer.theoretical_win_probability cfg) l (0, 0, 0)%Qc p
             (0, 0, 0, 0)%Qc v);
      [| |split; apply Qcle_refl|done|done].
    + intros x y q x' y' Hq [Hx1 Hx2] [Hy1 Hy2]. simpl. split; by apply add_scaled_mono.
    + rewrite Forall_forall in Hturn, Hpos. apply Forall_forall. intros e He.
      split; [by apply Qclt_le_weak, Hpos|]. intros x y Ex Ey.
      rewrite <- (tp_ai_value cfg _ _ (TwoPlayer.fuel_for e.1)) in Ex
        by (rewrite ?(Hturn e He); lia).
      rewrite <- (tp_theoretical_value cfg (TwoPlayer.fuel_for e.1)) in Ey
        by (rewrite ?(Hturn e He); lia).
      by eapply tp_value_ai_between.
Qed.

Lemma no_agent_total_beats_the_optimal_total_witness :
  ∃ p v,
    OnePlayerAiTotal.get_total_ai_win_probability small_cfg (λ _, Action 0) id reverse
      = Done p ∧
    OnePlayerTotal.get_total_theoretical_win_probability small_cfg id reverse = Done v ∧
    (p ≤ v.1)%Qc.
Proof.
  destruct (OnePlayerAiTotal.get_total_ai_win_probability small_cfg (λ _, Action 0)
              id reverse) as [p| |] eqn:Ep; [|exfalso; revert Ep; vm_compute; discriminate..].
  destruct (OnePlayerTotal.get_total_theoretical_win_probability small_cfg id reverse)
    as [v| |] eqn:Ev; [|exfalso; revert Ev; vm_compute; discriminate..].
  exists p, v. split; [reflexivity|]. split; [reflexivity|].
  exact (proj1 (no_agent_total_beats_the_optimal_total small_cfg (λ _, Action 0)
                  (λ _, Action 0) (λ _, Action 0) id reverse) p v Ep Ev).
Defined.

(** X22. The totals of the optimal and the random strategies are returned
    for every deck of at least three cards, in the two games, when the
    shuffles permute the deck; on a deck of fewer than three cards each of
    the four totals raises [IndexError]. *)
Theorem theoretical_totals_are_returned (cfg : Config)
    (a player_agent dealer_agent : agent) (shuffle1 shuffle2 : list Z → list Z) :
  length (shuffle1 (deck_copy cfg)) = length (deck_copy cfg) →
  shuffle2 (deck_copy cfg) ≡ₚ deck_copy cfg →
  ((3 ≤ length (deck_copy cfg))%nat →
   (∃ v, OnePlayerTotal.get_total_theoretical_win_probability cfg shuffle1 shuffle2
           = Done v) ∧
   (∃ v, TwoPlayerTotal.get_total_theoretical_win_probability cfg shuffle1 shuffle2
           = Done v)) ∧
  ((length (deck_copy cfg) < 3)%nat →
   OnePlayerTotal.get_total_theoretical_win_probability cfg shuffle1 shuffle2
     = Raise IndexError ∧
   OnePlayerAiTotal.get_total_ai_win_probability cfg a shuffle1 shuffle2
     = Raise IndexError ∧
   TwoPlayerTotal.get_total_theoretical_win_probability cfg shuffle1 shuffle2
     = Raise IndexError ∧
   TwoPlayerTotal.get_total_ai_win_probability cfg player_agent dealer_agent
     shuffle1 shuffle2 = Raise IndexError).
Proof.
  intros H1 H2.
  unfold OnePlayerTotal.get_total_theoretical_win_probability,
    OnePlayerAiTotal.get_total_ai_win_probability,
    TwoPlayerTotal.get_total_theoretical_win_probability,
    TwoPlayerTotal.get_total_ai_win_probability.
  split; intros H3.
  - destruct (get_all_initial_states_Done cfg shuffle1 shuffle2 H1 H2 H3) as [l E].
    rewrite E. simpl. pose proof (get_all_initial_states_turn _ _ _ _ E) as Hturn.
    rewrite op_theoretical_total_loop, tp_theoretical_total_loop
      by (done || apply sound_empty).
    split; apply totals_of_values_Done; (eapply Forall_impl; [exact Hturn|]);
      intros e He; simpl in He.
    + apply op_theoretical_Done. lia.
    + apply tp_theoretical_Done. lia.
  - by rewrite (get_all_initial_states_Raise cfg shuffle1 shuffle2 H1 H3).
Qed.

Lemma theoretical_totals_are_returned_witness :
  (∃ v, OnePlayerTotal.get_total_theoretical_win_probability small_cfg id reverse
          = Done v) ∧
  (∃ v, TwoPlayerTotal.get_total_theoretical_win_probability small_cfg id reverse
          = Done v).
Proof.
  apply (proj1 (theoretical_totals_are_returned small_cfg (λ _, Action 0) (λ _, Action 0)
                  (λ _, Action 0) id reverse eq_refl (reverse_Permutation _))).
  vm_compute. lia.
Defined.

(** * binary64 *)

(** ** Powers of 2 *)

Lemma pow2_pos e : (0 < pow2 e)%Q.
Proof. apply Qpower_0_lt. reflexivity. Qed.

Lemma pow2_add a b : (pow2 (a + b) == pow2 a * pow2 b)%Q.
Proof. apply Qpower_plus. discriminate. Qed.

Lemma pow2_le a b : a ≤ b → (pow2 a <= pow2 b)%Q.
Proof. intros H. apply Qpower_le_compat_l; [done|]. discriminate. Qed.

Lemma pow2_lt a b : a < b → (pow2 a < pow2 b)%Q.
Proof. intros H. apply Qpower_lt_compat_l; [done|]. reflexivity. Qed.

Lemma pow2_lt_inv a b : (pow2 a < pow2 b)%Q → a < b.
Proof. intros H. eapply Qpower_lt_compat_l_inv; [exact H|]. reflexivity. Qed.

Lemma pow2_Z n : 0 ≤ n → (pow2 n == inject_Z (2 ^ n))%Q.
Proof. intros Hn. unfold pow2. by rewrite (Zpower_Qpower 2 n Hn). Qed.

Lemma pow2_succ a : (pow2 (a + 1) == 2 * pow2 a)%Q.
Proof. rewrite pow2_add. change (pow2 1) with 2%Q. ring. Qed.

Lemma pow2_pred a : (pow2 (a - 1) == pow2 a / 2)%Q.
Proof.
  assert (pow2 a == 2 * pow2 (a - 1))%Q as E.
  { rewrite <- pow2_succ. by replace (a - 1 + 1) with a by lia. }
  rewrite E. field.
Qed.

(** ** The exponent *)

Lemma Qlog2_spec (x : Q) :
  (0 < x)%Q → (pow2 (Qlog2 x) <= x)%Q ∧ (x < pow2 (Qlog2 x + 1))%Q.
Proof.
  intros Hx. destruct x as [a b]. unfold Qlog2. cbn [Qnum Qden].
  assert (0 < a) as Ha by (unfold Qlt in Hx; simpl in Hx; lia).
  set (la := Z.log2 a). set (lb := Z.log2 (Z.pos b)). set (d := la - lb).
  destruct (Z.log2_spec a Ha) as [Ha1 Ha2]. fold la in Ha1, Ha2.
  destruct (Z.log2_spec (Z.pos b) (Pos2Z.is_pos b)) as [Hb1 Hb2]. fold lb in Hb1, Hb2.
  assert (0 ≤ la) as Hla by apply Z.log2_nonneg.
  assert (0 ≤ lb) as Hlb by apply Z.log2_nonneg.
  assert (a # b == inject_Z a / inject_Z (Z.pos b))%Q as Ex by apply Qmake_Qdiv.
  assert (0 < inject_Z (Z.pos b))%Q as HB by (unfold Qlt; simpl; lia).
  assert ((a # b) * inject_Z (Z.pos b) == inject_Z a)%Q as Em.
  { rewrite Ex. field. intros E. rewrite E in HB. by apply Qlt_irrefl in HB. }
  assert (pow2 la <= inject_Z a)%Q as Qa1.
  { rewrite (pow2_Z la Hla). by rewrite <- Zle_Qle. }
  assert (inject_Z a < pow2 (la + 1))%Q as Qa2.
  { rewrite (pow2_Z (la + 1)) by lia. by rewrite <- Zlt_Qlt. }
  assert (pow2 lb <= inject_Z (Z.pos b))%Q as Qb1.
  { rewrite (pow2_Z lb Hlb). by rewrite <- Zle_Qle. }
  assert (inject_Z (Z.pos b) < pow2 (lb + 1))%Q as Qb2.
  { rewrite (pow2_Z (lb + 1)) by lia. by rewrite <- Zlt_Qlt. }
  assert (pow2 (d + 1) * pow2 lb == pow2 (la + 1))%Q as E1.
  { rewrite <- pow2_add. by replace (d + 1 + lb) with (la + 1) by (unfold d; lia). }
  assert (pow2 (d - 1) * pow2 (lb + 1) == pow2 la)%Q as E2.
  { rewrite <- pow2_add. by replace (d - 1 + (lb + 1)) with la by (unfold d; lia). }
  pose proof (pow2_pos (d + 1)) as P1. pose proof (pow2_pos (d - 1)) as P2.
  pose proof (pow2_pos lb) as P3. pose proof (pow2_pos (lb + 1)) as P4.
  assert (a # b < pow2 (d + 1))%Q as Hup.
  { apply Qnot_le_lt. intros Hle.
    assert (pow2 (d + 1) * pow2 lb <= (a # b) * inject_Z (Z.pos b))%Q as Hc.
    { apply Qmult_le_compat_nonneg; split;
        [by apply Qlt_le_weak|done|by apply Qlt_le_weak|done]. }
    rewrite E1, Em in Hc. lra. }
  assert (pow2 (d - 1) < a # b)%Q as Hlow.
  { apply Qnot_le_lt. intros Hle.
    assert ((a # b) * inject_Z (Z.pos b) <= pow2 (d - 1) * inject_Z (Z.pos b))%Q as Hc.
    { apply Qmult_le_compat_r; [done|by apply Qlt_le_weak]. }
    assert (pow2 (d - 1) * inject_Z (Z.pos b) < pow2 (d - 1) * pow2 (lb + 1))%Q as Hc'.
    { by apply Qmult_lt_l. }
    rewrite E2 in Hc'. rewrite Em in Hc. lra. }
  destruct (Qle_bool (pow2 d) (a # b)) eqn:Eb.
  - apply Qle_bool_iff in Eb. split; [exact Eb|exact Hup].
  - replace (d - 1 + 1) with d by lia. split; [apply Qlt_le_weak; exact Hlow|].
    apply Qnot_le_lt. intros Hle. apply Qle_bool_iff in Hle. congruence.
Qed.


(** ** The nearest integer *)


Lemma round_half_even_near (y : Q) :
  (inject_Z (round_half_even y) - (1 # 2) <= y)%Q ∧
  (y <= inject_Z (round_half_even y) + (1 # 2))%Q.
Proof.
  unfold round_half_even.
  pose proof (Qfloor_le y) as H1. pose proof (Qlt_floor y) as H2.
  rewrite inject_Z_plus in H2. change (inject_Z 1) with 1%Q in H2.
  destruct (Qcompare_spec (y - inject_Z (Qfloor y)) (1 # 2)) as [E|E|E].
  - destruct (Z.even (Qfloor y)); rewrite ?inject_Z_plus;
      change (inject_Z 1) with 1%Q; lra.
  - lra.
  - rewrite inject_Z_plus. change (inject_Z 1) with 1%Q. lra.
Qed.

Lemma round_half_even_nonneg (y : Q) : (0 <= y)%Q → 0 ≤ round_half_even y.
Proof.
  intros Hy. unfold round_half_even.
  assert (0 ≤ Qfloor y) as Hf.
  { change 0 with (Qfloor 0). by apply Qfloor_resp_le. }
  destruct (_ ?= _)%Q; [destruct (Z.even _)|..]; lia.
Qed.




(** ** The rounding *)

(** In the range of the normal numbers the rounding changes a number by
    at most [2^-53] of it. *)
Lemma binary64_of_pos_near (x : Q) :
  (pow2 (-1022) <= x)%Q →
  (x * (1 - pow2 (-53)) <= binary64_of_pos x)%Q ∧
  (binary64_of_pos x <= x * (1 + pow2 (-53)))%Q.
Proof.
  intros Hx.
  assert (0 < x)%Q as Hpos by (pose proof (pow2_pos (-1022)); lra).
  destruct (Qlog2_spec x Hpos) as [H1 H2].
  assert (-1022 < Qlog2 x + 1) as Hm by (apply pow2_lt_inv; lra).
  unfold binary64_of_pos, last_place.
  rewrite Z.max_l by lia.
  set (m := Qlog2 x) in *. set (e := m - 52).
  pose proof (pow2_pos e) as He.
  set (y := (x / pow2 e)%Q).
  assert (x == y * pow2 e)%Q as Ex by (unfold y; field; lra).
  destruct (round_half_even_near y) as [R1 R2].
  set (r := inject_Z (round_half_even y)) in *.
  assert (pow2 m == pow2 53 * (pow2 e * pow2 (-1)))%Q as Em.
  { rewrite <- !pow2_add. by replace (53 + (e + -1)) with m by (unfold e; lia). }
  assert (pow2 (-53) * pow2 53 == 1)%Q as E53 by reflexivity.
  assert (pow2 (-1) == 1 # 2)%Q as Eh by reflexivity.
  assert ((1 # 2) * pow2 e <= pow2 (-53) * x)%Q as Hu.
  { assert (pow2 (-53) * pow2 m <= pow2 (-53) * x)%Q as Hc.
    { apply Qmult_le_l; [apply pow2_pos|done]. }
    rewrite Em in Hc. rewrite Eh in Hc.
    assert (pow2 (-53) * (pow2 53 * (pow2 e * (1 # 2))) == (1 # 2) * pow2 e)%Q as E'.
    { transitivity ((pow2 (-53) * pow2 53) * ((1 # 2) * pow2 e))%Q; [ring|].
      rewrite E53. ring. }
    by rewrite E' in Hc. }
  assert ((r - (1 # 2)) * pow2 e <= y * pow2 e)%Q as L1.
  { apply Qmult_le_compat_r; [done|by apply Qlt_le_weak]. }
  assert (y * pow2 e <= (r + (1 # 2)) * pow2 e)%Q as L2.
  { apply Qmult_le_compat_r; [done|by apply Qlt_le_weak]. }
  rewrite <- Ex in L1, L2.
  split; lra.
Qed.

Lemma binary64_of_pos_nonneg (x : Q) : (0 <= x)%Q → (0 <= binary64_of_pos x)%Q.
Proof.
  intros Hx. unfold binary64_of_pos.
  pose proof (pow2_pos (last_place x)) as He.
  apply Qmult_le_0_compat; [|by apply Qlt_le_weak].
  change 0%Q with (inject_Z 0). rewrite <- Zle_Qle.
  apply round_half_even_nonneg. apply Qle_shift_div_l; [done|]. lra.
Qed.

(** ** The rounding of the canonical fractions *)

Ltac qc_to_q :=
  unfold Qcle, Qclt, Qcminus, Qcplus, Qcmult, Qcopp in *; cbn [this Q2Qc] in *;
  rewrite ?Qred_correct in *.

Lemma unit_roundoff_this : (this unit_roundoff == pow2 (-53))%Q.
Proof. unfold unit_roundoff. cbn [this Q2Qc]. apply Qred_correct. Qed.

Lemma unit_roundoff_value : (pow2 (-53) == 1 # 9007199254740992)%Q.
Proof. reflexivity. Qed.

Lemma binary64_0 : binary64 0 = 0%Qc.
Proof. reflexivity. Qed.

Lemma binary64_positive (x : Qc) : (0 < x)%Qc → binary64 x = Q2Qc (binary64_of_pos x).
Proof.
  intros Hx. unfold binary64, Qccompare. unfold Qclt in Hx.
  destruct (Qcompare_spec 0%Qc x) as [E|E|E]; [|done|].
  - rewrite E in Hx. by apply Qlt_irrefl in Hx.
  - exfalso. exact (Qlt_irrefl _ (Qlt_trans _ _ _ Hx E)).
Qed.

Lemma binary64_nonneg (x : Qc) : (0 ≤ x)%Qc → (0 ≤ binary64 x)%Qc.
Proof.
  intros Hx. apply Qcle_lt_or_eq in Hx as [Hx| <-]; [|by rewrite binary64_0].
  rewrite (binary64_positive x Hx). qc_to_q. apply binary64_of_pos_nonneg.
  by apply Qlt_le_weak.
Qed.

Lemma smallest_normal_pos : (0 < smallest_normal)%Qc.
Proof. unfold smallest_normal. qc_to_q. apply pow2_pos. Qed.

Lemma binary64_near (x : Qc) :
  (smallest_normal ≤ x)%Qc →
  (x * (1 - unit_roundoff) ≤ binary64 x)%Qc ∧ (binary64 x ≤ x * (1 + unit_roundoff))%Qc.
Proof.
  intros Hx.
  assert (0 < x)%Qc as Hpos by (eapply Qclt_le_trans; [apply smallest_normal_pos|done]).
  rewrite (binary64_positive x Hpos).
  unfold smallest_normal in Hx. pose proof unit_roundoff_this as Eu.
  qc_to_q. rewrite !Eu.
  by apply binary64_of_pos_near.
Qed.

(** ** Sums of rounded numbers *)

Lemma py_sum_Qc_from (ps : list Qc) (a : Qc) :
  fold_left Qcplus ps a = (a + py_sum_Qc ps)%Qc.
Proof.
  unfold py_sum_Qc. revert a. induction ps as [|p ps IH]; intros a; simpl.
  - by rewrite Qcplus_0_r.
  - rewrite (IH (a + p)%Qc), (IH (0 + p)%Qc). ring.
Qed.

Lemma py_sum_Qc_cons (p : Qc) (ps : list Qc) :
  py_sum_Qc (p :: ps) = (p + py_sum_Qc ps)%Qc.
Proof. unfold py_sum_Qc at 1. simpl. rewrite py_sum_Qc_from. ring. Qed.

Lemma py_sum_Qc_nonneg (ps : list Qc) :
  Forall (λ p, 0 ≤ p)%Qc ps → (0 ≤ py_sum_Qc ps)%Qc.
Proof.
  induction 1 as [|p ps Hp _ IH]; [done|]. rewrite py_sum_Qc_cons.
  rewrite <- (Qcplus_0_l 0). by apply Qcplus_le_compat.
Qed.


(** The exact sum of numbers that have been rounded is the sum of the
    numbers but for [2^-53] of it. *)
Lemma rounded_sum_near (xs : list Qc) :
  Forall (λ x, smallest_normal ≤ x)%Qc xs →
  (py_sum_Qc xs * (1 - unit_roundoff) ≤ py_sum_Qc (binary64 <$> xs))%Qc ∧
  (py_sum_Qc (binary64 <$> xs) ≤ py_sum_Qc xs * (1 + unit_roundoff))%Qc.
Proof.
  induction 1 as [|x xs Hx _ [IH1 IH2]].
  - split; vm_compute; discriminate.
  - rewrite fmap_cons, !py_sum_Qc_cons.
    destruct (binary64_near x Hx) as [H1 H2].
    split; qc_to_q; lra.
Qed.

(** The sum that is rounded after every addition: it stays within
    [2 * 2^-53] for each addition of the exact sum of its terms, as long as
    that sum is about 1. *)
Lemma float_sum_near (ps : list Qc) (S T E : Qc) :
  Forall (λ p, smallest_normal ≤ p)%Qc ps →
  (0 ≤ S)%Qc → (T - E ≤ S)%Qc → (S ≤ T + E)%Qc →
  (T + py_sum_Qc ps ≤ 1 + unit_roundoff)%Qc →
  (E + Qc_of_Z (Z.of_nat (length ps)) * (2 * unit_roundoff) ≤ 1 - unit_roundoff)%Qc →
  (T + py_sum_Qc ps - (E + Qc_of_Z (Z.of_nat (length ps)) * (2 * unit_roundoff))
     ≤ fold_left (λ s p, binary64 (s + p)) ps S)%Qc ∧
  (fold_left (λ s p, binary64 (s + p)) ps S
     ≤ T + py_sum_Qc ps + (E + Qc_of_Z (Z.of_nat (length ps)) * (2 * unit_roundoff)))%Qc.
Proof.
  intros Hps. revert S T E.
  induction Hps as [|p ps Hp Hps IH]; intros S T E HS H1 H2 HT HE.
  - cbn [fold_left length]. change (py_sum_Qc []) with 0%Qc.
    change (Z.of_nat 0) with 0. rewrite Z2Qc_inj_0.
    split; qc_to_q; lra.
  - cbn [fold_left length] in *. rewrite py_sum_Qc_cons in *.
    rewrite Nat2Z.inj_succ, <- Z.add_1_r, Z2Qc_inj_add, Z2Qc_inj_1 in *.
    set (n := Qc_of_Z (Z.of_nat (length ps))) in *.
    assert (0 ≤ n)%Qc as Hn by (apply Qc_of_Z_nonneg; lia).
    assert (0 ≤ py_sum_Qc ps)%Qc as Hsum.
    { apply py_sum_Qc_nonneg. eapply Forall_impl; [exact Hps|].
      intros q Hq. simpl in Hq. etrans; [|exact Hq].
      apply Qclt_le_weak, smallest_normal_pos. }
    assert (0 ≤ unit_roundoff)%Qc as Hu by (vm_compute; discriminate).
    assert (0 ≤ n * (2 * unit_roundoff))%Qc as Hnu.
    { apply Qcmult_nonneg; [done|]. by apply Qcmult_nonneg; [vm_compute; discriminate|]. }
    assert (smallest_normal ≤ S + p)%Qc as Hsp.
    { etrans; [exact Hp|]. rewrite <- (Qcplus_0_l p) at 1. by apply Qcplus_le_compat. }
    destruct (binary64_near (S + p) Hsp) as [B1 B2].
    assert (0 ≤ (2 - (S + p)) * unit_roundoff)%Qc as Hprod.
    { apply Qcmult_nonneg; [|done]. qc_to_q. lra. }
    assert (0 ≤ (S + p) * unit_roundoff)%Qc as Hprod'.
    { apply Qcmult_nonneg; [|done]. qc_to_q.
      pose proof smallest_normal_pos as Hsn. qc_to_q. lra. }
    destruct (IH (binary64 (S + p)) (T + p)%Qc (E + 2 * unit_roundoff)%Qc) as [I1 I2].
    + apply binary64_nonneg. etrans; [|exact Hsp]. apply Qclt_le_weak, smallest_normal_pos.
    + qc_to_q. lra.
    + qc_to_q. lra.
    + qc_to_q. lra.
    + fold n. qc_to_q. lra.
    + fold n in I1, I2. split; qc_to_q; lra.
Qed.

(** * The number of the ordered draws *)






(** * A deck of distinct cards *)












(** * The sum of equal terms *)





(** * The probabilities as binary64 numbers *)

(** A quotient of two counts is far above the subnormal numbers. *)
Lemma quotient_normal (n N : Z) :
  1 ≤ n → 0 < N → N ≤ 2 ^ 1021 → (normal2 ≤ Qc_of_Z n / Qc_of_Z N)%Qc.
Proof.
  intros Hn HN Hb. unfold normal2, Qcdiv, Qcinv, Qc_of_Z. qc_to_q.
  apply Qle_shift_div_l; [unfold Qlt; simpl; lia|].
  apply Qle_trans with (pow2 (-1021) * inject_Z (2 ^ 1021))%Q.
  - apply Qmult_le_l; [apply pow2_pos|]. by rewrite <- Zle_Qle.
  - rewrite <- pow2_Z by lia. rewrite <- pow2_add.
    change (pow2 (-1021 + 1021)) with 1%Q. change 1%Q with (inject_Z 1).
    by rewrite <- Zle_Qle.
Qed.

Lemma smallest_normal_normal2 : (smallest_normal ≤ normal2)%Qc.
Proof.
  unfold smallest_normal, normal2. qc_to_q. apply pow2_le. lia.
Qed.

Lemma binary64_normal (x : Qc) : (normal2 ≤ x)%Qc → (smallest_normal ≤ binary64 x)%Qc.
Proof.
  intros Hx.
  assert (smallest_normal ≤ x)%Qc as Hs
    by (etrans; [apply smallest_normal_normal2|exact Hx]).
  destruct (binary64_near x Hs) as [Hlow _].
  etrans; [|exact Hlow].
  assert (this smallest_normal == pow2 (-1021) * (1 # 2))%Q as E1.
  { unfold smallest_normal. cbn [this Q2Qc]. rewrite Qred_correct.
    apply (pow2_pred (-1021)). }
  assert (this normal2 == pow2 (-1021))%Q as E2.
  { unfold normal2. cbn [this Q2Qc]. by rewrite Qred_correct. }
  pose proof unit_roundoff_this as Eu. pose proof unit_roundoff_value as Ev.
  pose proof (pow2_pos (-1021)) as Hp.
  qc_to_q. rewrite E1. rewrite E2 in Hx. rewrite Eu, Ev.
  generalize dependent (pow2 (-1021)). intros a Hx _ Ha.
  generalize dependent (this x). intros b Hx _ H1 H2. clear -H1 H2. lra.
Qed.




(** The exact sum of rounded numbers that add up to 1 before the rounding. *)
Lemma rounded_sum_within (xs : list Qc) :
  Forall (λ x, normal2 ≤ x)%Qc xs → py_sum_Qc xs = 1%Qc →
  within unit_roundoff (py_sum_Qc (binary64 <$> xs)) ∧
  Forall (λ p, smallest_normal ≤ p)%Qc (binary64 <$> xs).
Proof.
  intros Hxs Hsum. split.
  - destruct (rounded_sum_near xs) as [H1 H2].
    { eapply Forall_impl; [exact Hxs|]. intros x Hx. simpl in *.
      etrans; [apply smallest_normal_normal2|exact Hx]. }
    rewrite Hsum, Qcmult_1_l in H1, H2. by split.
  - apply Forall_fmap. eapply Forall_impl; [exact Hxs|]. intros x Hx.
    by apply binary64_normal.
Qed.

(** The sum that is rounded after every addition, of at most 4,500,000
    numbers. *)
Lemma float_sum_within (ps : list Qc) :
  Forall (λ p, smallest_normal ≤ p)%Qc ps →
  within unit_roundoff (py_sum_Qc ps) →
  Z.of_nat (length ps) ≤ 4500000 →
  within tolerance (py_float_sum ps).
Proof.
  intros Hps [Hlo Hhi] Hlen.
  assert (Qc_of_Z (Z.of_nat (length ps)) * (2 * unit_roundoff)
          ≤ Qc_of_Z 4500000 * (2 * unit_roundoff))%Qc as Hk.
  { apply Qcmult_le_compat_r; [|by vm_compute].
    unfold Qcle, Qc_of_Z. cbn [this Q2Qc]. rewrite ?Qred_correct. by rewrite <- Zle_Qle. }
  assert (Qc_of_Z 4500000 * (2 * unit_roundoff) + unit_roundoff ≤ tolerance)%Qc as Hc
    by (by vm_compute).
  assert (tolerance ≤ 1 - unit_roundoff)%Qc as Hc' by (by vm_compute).
  destruct (float_sum_near ps 0 0 0 Hps) as [H1 H2].
  - done.
  - by vm_compute.
  - by vm_compute.
  - by rewrite Qcplus_0_l.
  - rewrite Qcplus_0_l. etrans; [exact Hk|]. etrans; [|exact Hc'].
    etrans; [|exact Hc]. rewrite <- (Qcplus_0_r (_ * _)) at 1.
    apply Qcplus_le_compat; [done|by vm_compute].
  - fold (py_float_sum ps) in H1, H2. rewrite !Qcplus_0_l in H1, H2.
    revert Hlo Hhi Hk Hc H1 H2. unfold within.
    generalize (py_float_sum ps) (py_sum_Qc ps)
      (Qc_of_Z (Z.of_nat (length ps)) * (2 * unit_roundoff))%Qc
      (Qc_of_Z 4500000 * (2 * unit_roundoff))%Qc.
    intros r s a b. generalize unit_roundoff tolerance. intros u t.
    intros. qc_to_q. split; lra.
Qed.

(** * The solvers return no negative number *)

Lemma nonnegative_add (acc p v : Qc) :
  (0 ≤ p)%Qc → nonnegative acc → nonnegative v → nonnegative (acc + p * v).
Proof.
  unfold nonnegative. intros Hp Ha Hv.
  rewrite <- (Qcplus_0_l 0). apply Qcplus_le_compat; [done|]. by apply Qcmult_nonneg.
Qed.

Lemma nonnegative_max a b : nonnegative a → nonnegative b → nonnegative (0 + py_max a b).
Proof. rewrite Qcplus_0_l. unfold py_max. by destruct (decide _). Qed.

Lemma nonnegative_min a b : nonnegative a → nonnegative b → nonnegative (0 + py_min a b).
Proof. rewrite Qcplus_0_l. unfold py_min. by destruct (decide _). Qed.

Lemma nonnegative_avg a b :
  nonnegative a → nonnegative b → nonnegative (0 + (half * a + half * b)).
Proof.
  unfold nonnegative. intros Ha Hb. rewrite Qcplus_0_l.
  rewrite <- (Qcplus_0_l 0). apply Qcplus_le_compat; by apply Qcmult_nonneg.
Qed.

Lemma nonnegative_same a : nonnegative a → nonnegative (0 + a).
Proof. by rewrite Qcplus_0_l. Qed.

Lemma op_theoretical_nonnegative cfg fuel :
  keeps nonnegative2 (OnePlayer.get_theoretical_win_probability cfg fuel).
Proof.
  intros g r v r'. rewrite op_theoretical_solve.
  apply (solve_bounded _ _ _ nonnegative2 (λ _, nonnegative2)).
  - by split.
  - intros _ acc p x Hp [Ha1 Ha2] [Hx1 Hx2]. split; by apply nonnegative_add.
  - done.
  - intros g' result Ho. split; by eapply op_over_probability.
  - intros g' p. unfold OnePlayer.theoretical_plan. intros [= <-].
    destruct (turn g' =? 1); simpl; [done|].
    intros s h [Hs1 Hs2] [Hh1 Hh2]. split; [by apply nonnegative_max|by apply nonnegative_avg].
Qed.

Lemma op_ai_nonnegative cfg a fuel :
  keeps nonnegative (OnePlayer.get_ai_win_probability cfg a fuel).
Proof.
  intros g r v r'. rewrite op_ai_solve.
  apply (solve_bounded _ _ _ nonnegative (λ _, nonnegative)).
  - done.
  - intros _ acc p x Hp Ha Hx. by apply nonnegative_add.
  - done.
  - intros g' result Ho. by eapply op_over_probability.
  - intros g' p. rewrite op_ai_plan_ask. destruct (turn g' =? 1); [by intros [= <-]|].
    destruct (ask cfg a g') as [i| |]; simpl; [|done..]. intros [= <-].
    destruct (i =? 0); simpl; [|done]. intros s Hs. by apply nonnegative_same.
Qed.

Lemma tp_theoretical_nonnegative cfg fuel :
  keeps nonnegative4 (TwoPlayer.get_theoretical_win_probability cfg fuel).
Proof.
  intros g r v r'. rewrite tp_theoretical_solve.
  apply (solve_bounded _ _ _ nonnegative4 (λ _, nonnegative4)).
  - by repeat split.
  - intros _ acc p x Hp (Ha1 & Ha2 & Ha3 & Ha4) (Hx1 & Hx2 & Hx3 & Hx4).
    split; [|split; [|split]]; by apply nonnegative_add.
  - done.
  - intros g' result Ho. pose proof (proj1 (tp_over_probability _ _ _ Ho)).
    unfold nonnegative4, nonnegative. simpl. auto.
  - intros g' p. unfold TwoPlayer.theoretical_plan. intros [= <-].
    destruct (turn g' =? 1); simpl;
      intros s h (Hs1 & Hs2 & Hs3 & Hs4) (Hh1 & Hh2 & Hh3 & Hh4);
      (split; [|split; [|split]]); simpl;
      auto using nonnegative_max, nonnegative_min, nonnegative_avg.
Qed.

Lemma tp_ai_nonnegative cfg pa da fuel :
  keeps nonnegative3 (TwoPlayer.get_ai_win_probability cfg pa da fuel).
Proof.
  intros g r v r'. rewrite tp_ai_solve.
  apply (solve_bounded _ _ _ nonnegative3 (λ _, nonnegative3)).
  - by repeat split.
  - intros _ acc p x Hp (Ha1 & Ha2 & Ha3) (Hx1 & Hx2 & Hx3).
    split; [|split]; by apply nonnegative_add.
  - done.
  - intros g' result Ho. pose proof (proj1 (tp_over_probability _ _ _ Ho)).
    unfold nonnegative3, nonnegative. simpl. auto.
  - intros g' p. rewrite tp_ai_plan_ask.
    destruct (turn g' =? 1);
      (destruct (ask cfg _ g') as [i| |]; simpl; [|done..]; intros [= <-];
       unfold tp_agent_combine; simpl;
       intros s h (Hs1 & Hs2 & Hs3) (Hh1 & Hh2 & Hh3);
       destruct (i =? 0); (split; [|split]); simpl;
       auto using nonnegative_same, nonnegative_avg).
Qed.

(** * The probabilities in binary64 *)


(** The sums of the floats of two decks: [1 - 2^-52 = 0.9999999999999998]
    for the deck [[1, 2, 3, 4] * 2] of [main.py], and
    [1 + 6 * 2^-52 = 1.0000000000000013] for the cards 1 to 6. *)
Lemma sum_of_floats_of_two_decks :
  sum_of_floats tie_cfg = Some (4503599627370495 # 4503599627370496)%Q ∧
  sum_of_floats six_cfg = Some (2251799813685251 # 2251799813685248)%Q.
Proof. split; vm_compute; reflexivity. Qed.

(** [binary64] next to the floats of the machine: the quotients of ints,
    the sums of the probabilities of three decks, and 3000 additions of the
    probability of the deck of 500 cards come out the same. *)
Lemma binary64_agrees_with_the_machine :
  Forall (λ '(a, b), float_value (float_div a b) = Some (this (py_div64 a b)))
         [(2, 124251000); (1, 10); (1, 3); (2, 3); (7, 9); (2, 24); (4, 336); (8, 336);
          (16, 336); (2, 120); (1, 1); (0, 5); (9007199254740991, 7); (1, 9007199254740991)] ∧
  Forall (λ cfg, machine_sum_of_floats cfg = sum_of_floats cfg ∧ sum_of_floats cfg ≠ None)
         [small_cfg; tie_cfg; six_cfg] ∧
  float_value (N.iter 3000 (λ s, PrimFloat.add s (float_div 2 124251000)) (float_of_Z 0))
    = Some (this (add_times (py_div64 2 124251000) 3000 0)).
Proof.
  split; [|split].
  - repeat (constructor; [vm_compute; reflexivity|]). constructor.
  - repeat (constructor; [split; [vm_compute; reflexivity|by vm_compute]|]). constructor.
  - vm_compute. reflexivity.
Qed.




(** * The draws and the solvers in binary64 *)

Lemma draw_probs_Done (g : BlackJack) (cards : list Z) :
  (∀ c, c ∈ cards → c ∈ deck g) →
  mapM (draw_prob g) cards = Done (draw_weight g <$> cards).
Proof.
  induction cards as [|c cards IH]; intros Hin; [done|].
  simpl. rewrite (draw_prob_weight g c), IH; [done| |].
  - intros c' Hc'. apply Hin. by right.
  - apply Hin. left.
Qed.

Lemma draw_weight_sum (g : BlackJack) (cards : list Z) :
  py_sum_Qc (draw_weight g <$> cards) = foldr (λ c s, draw_weight g c + s)%Qc 0%Qc cards.
Proof.
  induction cards as [|c cards IH]; [done|].
  rewrite fmap_cons, py_sum_Qc_cons, IH. reflexivity.
Qed.

Lemma draw_weight_normal (g : BlackJack) (c : Z) :
  c ∈ deck g → py_len (deck g) ≤ 2 ^ 1021 → (normal2 ≤ draw_weight g c)%Qc.
Proof.
  intros Hc Hlen. apply quotient_normal; [| |done].
  - unfold py_count.
    assert (c ∈ filter (λ y, y = c) (deck g)) as Hin by (by apply list_elem_of_filter).
    destruct (filter _ (deck g)); [by apply elem_of_nil in Hin|simpl; lia].
  - unfold py_len. destruct (deck g); [by apply elem_of_nil in Hc|simpl; lia].
Qed.

(** X1. [draw_prob] gives a probability for each distinct card of a deck
    that is not empty, the cards of the loop
    [for card in np.unique(game_state.deck)].  In exact arithmetic these
    quotients add up to 1.  The floats that the program holds are the
    quotients rounded to binary64: for a deck of at most [2^1021] cards their
    exact sum is within [2^-53] of 1, and their sum as floats, rounded after
    every addition, is within [1e-9] of 1 when the deck has at most
    4,500,000 distinct cards. *)
Theorem draw_probabilities_sum_to_one (g : BlackJack) :
  deck g ≠ [] →
  ∃ ps, mapM (draw_prob g) (np_unique (deck g)) = Done ps ∧
        py_sum_Qc ps = 1%Qc ∧
        (py_len (deck g) ≤ 2 ^ 1021 →
         within unit_roundoff (py_sum_Qc (binary64 <$> ps)) ∧
         (Z.of_nat (length ps) ≤ 4500000 →
          within tolerance (py_float_sum (binary64 <$> ps)))).
Proof.
  intros Hd. exists (draw_weight g <$> np_unique (deck g)).
  assert (∀ c, c ∈ np_unique (deck g) → c ∈ deck g) as Hin
    by (intros c Hc; by apply elem_of_np_unique).
  split; [by apply draw_probs_Done|].
  assert (py_sum_Qc (draw_weight g <$> np_unique (deck g)) = 1%Qc) as Hsum
    by (by rewrite draw_weight_sum, draw_weight_total).
  split; [done|]. intros Hlen.
  destruct (rounded_sum_within (draw_weight g <$> np_unique (deck g))) as [H1 H2];
    [|done|].
  { apply Forall_fmap, Forall_forall. intros c Hc. simpl.
    apply draw_weight_normal; [by apply Hin|done]. }
  split; [done|]. intros Hk. apply float_sum_within; [done..|].
  by rewrite length_fmap.
Qed.

Lemma draw_probabilities_sum_to_one_witness :
  deck tie_game ≠ [] ∧
  ∃ ps, mapM (draw_prob tie_game) (np_unique (deck tie_game)) = Done ps ∧
        py_sum_Qc ps = 1%Qc ∧
        (py_len (deck tie_game) ≤ 2 ^ 1021 →
         within unit_roundoff (py_sum_Qc (binary64 <$> ps)) ∧
         (Z.of_nat (length ps) ≤ 4500000 →
          within tolerance (py_float_sum (binary64 <$> ps)))).
Proof. split; [discriminate|]. apply draw_probabilities_sum_to_one. discriminate. Defined.

(** X2. No solver returns a negative number: when no entry of the record
    is negative, no slot of the tuple that [get_theoretical_win_probability]
    or [get_ai_win_probability] returns is negative, in both games, and no
    entry of the record that the call leaves.  Only the order with 0 is
    stated: a bound of 1 from above holds for the exact quotients, and the
    rounding of the floats can break it in the last place. *)
Theorem solver_results_are_not_negative (cfg : Config)
    (a player_agent dealer_agent : agent) (fuel : nat) (g : BlackJack) :
  (∀ r v r', map_Forall (λ _, nonnegative2) r →
     OnePlayer.get_theoretical_win_probability cfg fuel g r = Done (v, r') →
     nonnegative2 v ∧ map_Forall (λ _, nonnegative2) r') ∧
  (∀ r v r', map_Forall (λ _, nonnegative) r →
     OnePlayer.get_ai_win_probability cfg a fuel g r = Done (v, r') →
     nonnegative v ∧ map_Forall (λ _, nonnegative) r') ∧
  (∀ r v r', map_Forall (λ _, nonnegative4) r →
     TwoPlayer.get_theoretical_win_probability cfg fuel g r = Done (v, r') →
     nonnegative4 v ∧ map_Forall (λ _, nonnegative4) r') ∧
  (∀ r v r', map_Forall (λ _, nonnegative3) r →
     TwoPlayer.get_ai_win_probability cfg player_agent dealer_agent fuel g r
       = Done (v, r') →
     nonnegative3 v ∧ map_Forall (λ _, nonnegative3) r').
Proof.
  split; [|split; [|split]]; intros r v r'.
  - apply op_theoretical_nonnegative.
  - apply op_ai_nonnegative.
  - apply tp_theoretical_nonnegative.
  - apply tp_ai_nonnegative.
Qed.

Lemma solver_results_are_not_negative_witness :
  ∃ v r', OnePlayer.get_theoretical_win_probability small_cfg 5 small_game ∅
            = Done (v, r') ∧
          nonnegative2 v.
Proof.
  assert (match OnePlayer.get_theoretical_win_probability small_cfg 5 small_game ∅
          with Done _ => true | _ => false end = true) as H by (vm_compute; reflexivity).
  destruct (OnePlayer.get_theoretical_win_probability small_cfg 5 small_game ∅)
    as [[v r']| |] eqn:E; [|discriminate H..].
  exists v, r'. split; [reflexivity|].
  apply (proj1 (solver_results_are_not_negative small_cfg (λ _, Action 0)
                  (λ _, Action 0) (λ _, Action 0) 5 small_game) ∅ v r');
    [apply map_Forall_empty|exact E].
Defined.

(** X20. The totals are not negative and they are ordered: whenever a
    total is returned, none of its components is negative; the optimal
    player's total is not below the random player's, against the same dealer,
    and in the two-player game the player's total against the optimal dealer
    is not above the one against the random dealer.  Only orders are
    stated: a bound of 1 from above holds for the exact quotients, and the
    rounding of the floats can break it in the last place. *)
Theorem totals_are_not_negative_and_ordered (cfg : Config)
    (a player_agent dealer_agent : agent) (shuffle1 shuffle2 : list Z → list Z) :
  (∀ v, OnePlayerTotal.get_total_theoretical_win_probability cfg shuffle1 shuffle2
          = Done v → nonnegative2 v ∧ op_ordered v) ∧
  (∀ p, OnePlayerAiTotal.get_total_ai_win_probability cfg a shuffle1 shuffle2
          = Done p → nonnegative p) ∧
  (∀ v, TwoPlayerTotal.get_total_theoretical_win_probability cfg shuffle1 shuffle2
          = Done v → nonnegative4 v ∧ tp_ordered v ∧ tp_dealer_ordered v) ∧
  (∀ p, TwoPlayerTotal.get_total_ai_win_probability cfg player_agent dealer_agent
          shuffle1 shuffle2 = Done p → nonnegative3 p).
Proof.
  unfold OnePlayerTotal.get_total_theoretical_win_probability,
    OnePlayerAiTotal.get_total_ai_win_probability,
    TwoPlayerTotal.get_total_theoretical_win_probability,
    TwoPlayerTotal.get_total_ai_win_probability.
  destruct (get_all_initial_states cfg shuffle1 shuffle2) as [l| |] eqn:E;
    [|by repeat split..].
  simpl. pose proof (get_all_initial_states_turn _ _ _ _ E) as Hturn.
  rewrite op_theoretical_total_loop, op_ai_total_loop,
    tp_theoretical_total_loop, tp_ai_total_loop by (done || apply sound_empty).
  pose proof (get_all_initial_states_positive _ _ _ _ E) as Hpos.
  assert (∀ {T} (P : T → Prop) (val : BlackJack → outcome T),
            (∀ g v, val g = Done v → P v) →
            Forall (λ e, (0 ≤ e.2)%Qc ∧ ∀ v, val e.1 = Done v → P v) l) as Hl.
  { intros T P val Hval. eapply Forall_impl; [exact Hpos|].
    intros e He. split; [by apply Qclt_le_weak|]. intros v. apply Hval. }
  split; [|split; [|split]].
  - intros v Ev. split.
    + apply (totals_of_values_keeps nonnegative2 (OnePlayer.theoretical_win_probability cfg)
               l (0, 0)%Qc v); [| |by split|exact Ev].
      * intros t p x Hp [Ht1 Ht2] [Hx1 Hx2]. split; by apply nonnegative_add.
      * apply Hl. intros g x Ex.
        destruct (op_theoretical_fresh_probabilities _ _ _ Ex) as [[] []]. by split.
    + apply (totals_of_values_keeps op_ordered (OnePlayer.theoretical_win_probability cfg)
               l (0, 0)%Qc v);
        [| |unfold op_ordered; simpl; apply Qcle_refl|exact Ev].
      * unfold op_ordered. simpl. intros t p x Hp Ht Hx. by apply add_scaled_mono.
      * apply Hl. apply op_theoretical_fresh_ordered.
  - intros p Ep.
    apply (totals_of_values_keeps nonnegative (OnePlayer.ai_win_probability cfg a)
             l 0%Qc p); [| |done|exact Ep].
    + intros t q x Hq Ht Hx. by apply nonnegative_add.
    + apply Hl. intros g x Ex. by destruct (op_ai_fresh_probability _ _ _ _ Ex).
  - intros v Ev. split; [|split].
    + apply (totals_of_values_keeps nonnegative4 (TwoPlayer.theoretical_win_probability cfg)
               l (0, 0, 0, 0)%Qc v); [| |by repeat split|exact Ev].
      * intros t p x Hp (Ht1 & Ht2 & Ht3 & Ht4) (Hx1 & Hx2 & Hx3 & Hx4).
        split; [|split; [|split]]; by apply nonnegative_add.
      * apply Hl. intros g x Ex.
        destruct (tp_theoretical_fresh_probabilities _ _ _ Ex) as ([] & [] & [] & []).
        by repeat split.
    + apply (totals_of_values_keeps tp_ordered (TwoPlayer.theoretical_win_probability cfg)
               l (0, 0, 0, 0)%Qc v);
        [| |unfold tp_ordered; simpl; split; apply Qcle_refl|exact Ev].
      * unfold tp_ordered. simpl. intros t p x Hp [Ht1 Ht2] [Hx1 Hx2].
        split; by apply add_scaled_mono.
      * apply Hl. intros g x Ex. by apply (tp_theoretical_fresh_ordered cfg g).
    + apply (totals_of_values_keeps tp_dealer_ordered
               (TwoPlayer.theoretical_win_probability cfg) l (0, 0, 0, 0)%Qc v);
        [| |unfold tp_dealer_ordered; simpl; split; apply Qcle_refl|exact Ev].
      * unfold tp_dealer_ordered. simpl. intros t p x Hp [Ht1 Ht2] [Hx1 Hx2].
        split; by apply add_scaled_mono.
      * apply Hl. intros g x Ex. by apply (tp_theoretical_fresh_ordered cfg g).
  - intros p Ep.
    apply (totals_of_values_keeps nonnegative3
             (TwoPlayer.ai_win_probability cfg player_agent dealer_agent)
             l (0, 0, 0)%Qc p); [| |by repeat split|exact Ep].
    + intros t q x Hq (Ht1 & Ht2 & Ht3) (Hx1 & Hx2 & Hx3).
      split; [|split]; by apply nonnegative_add.
    + apply Hl. intros g x Ex.
      destruct (tp_ai_fresh_probabilities _ _ _ _ _ Ex) as ([] & [] & []).
      by repeat split.
Qed.

Lemma totals_are_not_negative_and_ordered_witness :
  ∃ v, OnePlayerTotal.get_total_theoretical_win_probability small_cfg id reverse = Done v ∧
       nonnegative2 v ∧ op_ordered v.
Proof.
  assert (match OnePlayerTotal.get_total_theoretical_win_probability small_cfg id reverse
          with Done _ => true | _ => false end = true) as H by (vm_compute; reflexivity).
  destruct (OnePlayerTotal.get_total_theoretical_win_probability small_cfg id reverse)
    as [v| |] eqn:E; [|discriminate H..].
  exists v. split; [reflexivity|].
  exact (proj1 (totals_are_not_negative_and_ordered small_cfg (λ _, Action 0)
                  (λ _, Action 0) (λ _, Action 0) id reverse) v E).
Defined.
